(** * fancyflags: structured dict flags (src/fancyflags/_definitions.py)

    A shallow embedding of the dict-flag mechanism: leaf descriptors
    ([Item], [MultiItem]), the builder of the shared mapping of defaults
    ([_extract_defaults]), the leaf flags that write their value through
    to the shared mapping ([_ItemFlag], [_MultiFlag]), the aggregate flag
    ([_DictFlag]) and the public entry points ([define_flags],
    [DEFINE_dict]).

    Python state is passed explicitly.  The objects that the program
    mutates in place and reaches from several places live in stores and
    are named by their address: the dicts created by [define_flags], which
    every flag of a definition closes over, and the lists that a program
    hands to several flags.  The flag registry (absl's [FlagValues]) is a
    finite map from flag names to flag objects.  Exceptions are values of
    type [exn]; a computation that raises keeps the state it reached, as
    in Python. *)

From Stdlib Require Import ZArith String List Bool Lia.
From stdpp Require Import base option list strings gmap.
Import ListNotations.
Set Warnings "-register-all".
Open Scope string_scope.
Open Scope list_scope.

(* ===================================================================== *)
(** ** Python values *)
(* ===================================================================== *)

(** The address of an object in a store. *)
Definition ref : Type := nat.

(** The values that defaults, parsed arguments and the shared mapping are
    made of.  Dicts keep insertion order; their keys are strings.  A list
    or dict written out ([VList], [VDict]) is an object referred to from
    the one place where it stands; [VRef l] is the list object at address
    [l] of the store of lists, which may be referred to from many
    places. *)
Inductive pyval : Type :=
| VNone
| VBool (b : bool)
| VInt (z : Z)
| VStr (s : string)
| VBytes (s : string)
| VTuple (items : list pyval)
| VList (items : list pyval)
| VDict (entries : list (string * pyval))
| VRef (l : ref).

(** The store of list objects: the items of each. *)
Definition list_store : Type := list (list pyval).

(** The items of the list object at [l]. *)
Definition items_at (lists : list_store) (l : ref) : list pyval :=
  match lists !! l with
  | Some items => items
  | None => []
  end.

(** A value with the list object it refers to written out. *)
Definition resolve (lists : list_store) (v : pyval) : pyval :=
  match v with
  | VRef l => VList (items_at lists l)
  | _ => v
  end.

(** [d[k]] on a dict kept as an ordered list of entries. *)
Fixpoint dict_get {A : Type} (d : list (string * A)) (k : string) : option A :=
  match d with
  | [] => None
  | (k', v) :: d' => if String.eqb k' k then Some v else dict_get d' k
  end.

(** [d[k] = v]: an existing key keeps its position, a new key goes last. *)
Fixpoint dict_set {A : Type} (d : list (string * A)) (k : string) (v : A)
  : list (string * A) :=
  match d with
  | [] => [(k, v)]
  | (k', v') :: d' =>
      if String.eqb k' k then (k, v) :: d' else (k', v') :: dict_set d' k v
  end.

Definition keys {A : Type} (d : list (string * A)) : list string := map fst d.

(** Reading along a path of keys: [d[p0][p1]...]. *)
Fixpoint get_path (d : pyval) (path : list string) : option pyval :=
  match path with
  | [] => Some d
  | k :: path' =>
      match d with
      | VDict entries =>
          match dict_get entries k with
          | Some d' => get_path d' path'
          | None => None
          end
      | _ => None
      end
  end.

(* ===================================================================== *)
(** ** Exceptions and the state-and-exception monad *)
(* ===================================================================== *)

(** [flags_Error] is absl's [flags.Error]. *)
Inductive exn_class : Type :=
| ValueError
| TypeError
| IndexError
| KeyError
| AttributeError
| flags_Error
| IllegalFlagValueError
| DuplicateFlagError
| FlagNameConflictsWithMethodError
| UnrecognizedFlagError
| UnparsedFlagAccessError.

(** An exception message: a literal text, absl's
    ['flag --%s=%s: %s' % (name, argument, e)], or the text absl's
    [DuplicateFlagError.from_flag] makes for a flag name. *)
Inductive message : Type :=
| Text (s : string)
| FlagMessage (flag_name : string) (argument : pyval) (cause : message)
| DefinedTwice (flag_name : string).

Record exn : Type := Exception { exn_type : exn_class; exn_message : message }.

Inductive outcome (A : Type) : Type :=
| Return (a : A)
| Raise (e : exn).
Arguments Return {A} a.
Arguments Raise {A} e.

(** A computation over a mutable state [S]; the state survives a raise. *)
Definition M (S A : Type) : Type := S -> outcome A * S.

Definition ret {S A : Type} (a : A) : M S A := fun s => (Return a, s).
Definition raise {S A : Type} (e : exn) : M S A := fun s => (Raise e, s).
Definition bind {S A B : Type} (m : M S A) (k : A -> M S B) : M S B :=
  fun s =>
    match m s with
    | (Return a, s') => k a s'
    | (Raise e, s') => (Raise e, s')
    end.
Definition get {S : Type} : M S S := fun s => (Return s, s).
Definition put {S : Type} (s : S) : M S unit := fun _ => (Return tt, s).
Definition modify {S : Type} (f : S -> S) : M S unit := fun s => (Return tt, f s).
Definition lift_outcome {S A : Type} (o : outcome A) : M S A := fun s => (o, s).

Notation "x <- m ;; k" := (bind m (fun x => k))
  (at level 20, m at level 99, k at level 200, only parsing).
Notation "m ;;; k" := (bind m (fun _ => k))
  (at level 100, k at level 200, right associativity, only parsing).

(** Sequencing of pure fallible steps. *)
Definition obind {A B : Type} (o : outcome A) (k : A -> outcome B) : outcome B :=
  match o with
  | Return a => k a
  | Raise e => Raise e
  end.

(* ===================================================================== *)
(** ** Leaf descriptors: [Item] and [MultiItem] *)
(* ===================================================================== *)

(** A [flags.ArgumentParser]: its [parse] method. *)
Definition parser : Type := pyval -> outcome pyval.

(** The serializers of absl that this module hands to its flags, and any
    other object with a [serialize] method. *)
Inductive serializer : Type :=
| ArgumentSerializer
| CsvListSerializer (list_sep : string)
| CustomSerializer (serialize : pyval -> outcome string).

(** The text a serializer returns, kept as the expression that makes it:
    [str(value)], the CSV row of [[str(x) for x in value]], or the text of
    a custom serializer. *)
Inductive serialized : Type :=
| StrOf (value : pyval)
| CsvRowOf (list_sep : string) (items : list pyval)
| Written (text : string).

(** [list(arguments)] for bytes: the byte values. *)
Definition byte_values (s : string) : list pyval :=
  map (fun c => VInt (Z.of_nat (Ascii.nat_of_ascii c))) (list_ascii_of_string s).

(** What iterating a value yields; [None] for a value that is not
    iterable.  Iterating a dict yields its keys, a string its characters. *)
Definition iterate (lists : list_store) (v : pyval) : option (list pyval) :=
  match v with
  | VNone | VBool _ | VInt _ => None
  | VStr s => Some (map (fun c => VStr (String c EmptyString)) (list_ascii_of_string s))
  | VBytes s => Some (byte_values s)
  | VTuple items | VList items => Some items
  | VDict entries => Some (map VStr (keys entries))
  | VRef l => Some (items_at lists l)
  end.

Definition not_iterable : exn :=
  Exception TypeError (Text "object is not iterable").
Definition bad_delimiter : exn :=
  Exception TypeError (Text "delimiter must be a 1-character string").

(** [serializer.serialize(value)].  [ArgumentSerializer] returns
    [str(value)]; [CsvListSerializer] makes a [csv.writer] with its
    separator as delimiter and writes the row [[str(x) for x in value]]. *)
Definition serialize (lists : list_store) (s : serializer) (value : pyval)
  : outcome serialized :=
  match s with
  | ArgumentSerializer => Return (StrOf value)
  | CsvListSerializer list_sep =>
      if Nat.eqb (String.length list_sep) 1
      then match iterate lists value with
           | Some items => Return (CsvRowOf list_sep items)
           | None => Raise not_iterable
           end
      else Raise bad_delimiter
  | CustomSerializer f =>
      match f value with
      | Return text => Return (Written text)
      | Raise e => Raise e
      end
  end.

(** The attributes of an [Item] or [MultiItem] instance. *)
Record descriptor : Type := Descriptor {
  default : pyval;
  _help_string : string;
  _parser : parser;
  _serializer : serializer
}.

(** [Item.__init__] (lines 271-301). *)
Definition Item__init__ (default : pyval) (help_string : string)
    (parser : parser) (serializer : option serializer) : outcome descriptor :=
  obind
    (match default with
     | VNone => Return default
     | _ => parser default
     end)
    (fun self_default =>
       Return {| default := self_default;
                 _help_string := help_string;
                 _parser := parser;
                 _serializer := match serializer with
                                | None => ArgumentSerializer
                                | Some s => s
                                end |}).

(** [isinstance(default, collections.abc.Iterable)
     and not isinstance(default, (str, bytes))]. *)
Definition is_non_string_iterable (v : pyval) : bool :=
  match v with
  | VTuple _ | VList _ | VDict _ | VRef _ => true
  | VNone | VBool _ | VInt _ | VStr _ | VBytes _ => false
  end.

(** [list(v)] for an iterable [v]; iterating a dict yields its keys. *)
Definition py_list (lists : list_store) (v : pyval) : list pyval :=
  match v with
  | VTuple items | VList items => items
  | VDict entries => map VStr (keys entries)
  | VRef l => items_at lists l
  | _ => []
  end.

(** [[parser.parse(item) for item in items]]: stops at the first raise. *)
Fixpoint parse_each (parser : parser) (items : list pyval) : outcome (list pyval) :=
  match items with
  | [] => Return []
  | item :: items' =>
      obind (parser item) (fun v =>
      obind (parse_each parser items') (fun vs => Return (v :: vs)))
  end.

(** The two normalisation steps of [MultiItem.__init__] (lines 341-348);
    [lists] is the store in which a default that is a list object has its
    items. *)
Definition multi_normalize (lists : list_store) (default : pyval) : list pyval :=
  let default :=
    if is_non_string_iterable default then VList (py_list lists default)
    else default in
  match default with
  | VList items => items
  | _ => [default]
  end.

(** [MultiItem.__init__] (lines 333-359). *)
Definition MultiItem__init__ (lists : list_store) (default : pyval)
    (help_string : string) (parser : parser) (serializer : option serializer)
  : outcome descriptor :=
  obind
    (match default with
     | VNone => Return default
     | _ => obind (parse_each parser (multi_normalize lists default))
              (fun items => Return (VList items))
     end)
    (fun self_default =>
       Return {| default := self_default;
                 _help_string := help_string;
                 _parser := parser;
                 _serializer := match serializer with
                                | None => ArgumentSerializer
                                | Some s => s
                                end |}).

(* ===================================================================== *)
(** ** Definition trees and the shared mapping of defaults *)
(* ===================================================================== *)

(** A value met in a definition: an [Item], a [MultiItem], a nested dict,
    or any other object, of which only the type name matters. *)
Inductive node : Type :=
| ItemNode (it : descriptor)
| MultiItemNode (it : descriptor)
| DictNode (entries : list (string * node))
| OtherNode (type_name : string).

Definition found_type_message (type_name : string) : message :=
  Text ("DEFINE_dict only supports flat or nested dictionaries, "
        ++ "and these must contain `ff.Item`s or `ff.MultiItems. "
        ++ "Found type " ++ type_name ++ " in this definition.").

(** [_extract_defaults] (lines 503-517).  The inner [loop] is the
    [for key, value in mapping.items()] with its accumulator [result]. *)
Fixpoint extract_value (value : node) : outcome pyval :=
  match value with
  | ItemNode it | MultiItemNode it => Return (default it)
  | DictNode mapping =>
      obind
        ((fix loop (items : list (string * node)) (result : list (string * pyval))
            : outcome (list (string * pyval)) :=
            match items with
            | [] => Return result
            | (key, value) :: items' =>
                obind (extract_value value) (fun x =>
                loop items' (dict_set result key x))
            end) mapping [])
        (fun result => Return (VDict result))
  | OtherNode type_name =>
      Raise (Exception TypeError (found_type_message type_name))
  end.

Fixpoint extract_loop (items : list (string * node)) (result : list (string * pyval))
  : outcome (list (string * pyval)) :=
  match items with
  | [] => Return result
  | (key, value) :: items' =>
      obind (extract_value value) (fun x =>
      extract_loop items' (dict_set result key x))
  end.

Definition _extract_defaults (mapping : list (string * node))
  : outcome (list (string * pyval)) :=
  extract_loop mapping [].


(* ===================================================================== *)
(** ** The heap of shared mappings and the leaf flags *)
(* ===================================================================== *)

(** An entry of the dict a leaf flag closes over: either the shared
    mapping itself (the dict object at an address of the heap) or a value
    the dict holds on its own. *)
Inductive slot : Type :=
| Alias (r : ref)
| Held (v : pyval).

(** The [{name: shared_dict}] of line 163. *)
Definition wrapper : Type := list (string * slot).

Definition deref (heap : list pyval) (s : slot) : pyval :=
  match s with
  | Alias r => match heap !! r with Some d => d | None => VNone end
  | Held v => v
  end.

(** The wrapper read as a plain nested value. *)
Definition view (w : wrapper) (heap : list pyval) : pyval :=
  VDict (map (fun e => (fst e, deref heap (snd e))) w).

(** Which of the two leaf flag classes an object belongs to. *)
Inductive flag_class : Type := _ItemFlag | _MultiFlag.

(** The attributes of an [_ItemFlag] or [_MultiFlag] object: the two the
    subclasses add, then those of [flags.Flag].  [default_as_str] is the
    [repr] of the text it holds. *)
Record leaf_flag : Type := LeafFlag {
  class_of : flag_class;
  _shared_dict : wrapper;
  _namespace : list string;
  name : string;
  flag_parser : parser;
  flag_serializer : serializer;
  help : string;
  default_unparsed : pyval;
  flag_default : pyval;
  default_as_str : option serialized;
  _value : pyval;
  present : nat;
  using_default_value : bool
}.

Definition set__value (v : pyval) (f : leaf_flag) : leaf_flag :=
  {| class_of := class_of f; _shared_dict := _shared_dict f;
     _namespace := _namespace f; name := name f;
     flag_parser := flag_parser f; flag_serializer := flag_serializer f;
     help := help f; default_unparsed := default_unparsed f;
     flag_default := flag_default f; default_as_str := default_as_str f;
     _value := v; present := present f;
     using_default_value := using_default_value f |}.

Definition set_flag_default (v : pyval) (f : leaf_flag) : leaf_flag :=
  {| class_of := class_of f; _shared_dict := _shared_dict f;
     _namespace := _namespace f; name := name f;
     flag_parser := flag_parser f; flag_serializer := flag_serializer f;
     help := help f; default_unparsed := default_unparsed f;
     flag_default := v; default_as_str := default_as_str f;
     _value := _value f; present := present f;
     using_default_value := using_default_value f |}.

Definition set_default_unparsed (v : pyval) (f : leaf_flag) : leaf_flag :=
  {| class_of := class_of f; _shared_dict := _shared_dict f;
     _namespace := _namespace f; name := name f;
     flag_parser := flag_parser f; flag_serializer := flag_serializer f;
     help := help f; default_unparsed := v;
     flag_default := flag_default f; default_as_str := default_as_str f;
     _value := _value f; present := present f;
     using_default_value := using_default_value f |}.

Definition set_default_as_str (s : option serialized) (f : leaf_flag) : leaf_flag :=
  {| class_of := class_of f; _shared_dict := _shared_dict f;
     _namespace := _namespace f; name := name f;
     flag_parser := flag_parser f; flag_serializer := flag_serializer f;
     help := help f; default_unparsed := default_unparsed f;
     flag_default := flag_default f; default_as_str := s;
     _value := _value f; present := present f;
     using_default_value := using_default_value f |}.

Definition set_help (h : string) (f : leaf_flag) : leaf_flag :=
  {| class_of := class_of f; _shared_dict := _shared_dict f;
     _namespace := _namespace f; name := name f;
     flag_parser := flag_parser f; flag_serializer := flag_serializer f;
     help := h; default_unparsed := default_unparsed f;
     flag_default := flag_default f; default_as_str := default_as_str f;
     _value := _value f; present := present f;
     using_default_value := using_default_value f |}.

Definition set_present (n : nat) (f : leaf_flag) : leaf_flag :=
  {| class_of := class_of f; _shared_dict := _shared_dict f;
     _namespace := _namespace f; name := name f;
     flag_parser := flag_parser f; flag_serializer := flag_serializer f;
     help := help f; default_unparsed := default_unparsed f;
     flag_default := flag_default f; default_as_str := default_as_str f;
     _value := _value f; present := n;
     using_default_value := using_default_value f |}.

Definition set_using_default_value (b : bool) (f : leaf_flag) : leaf_flag :=
  {| class_of := class_of f; _shared_dict := _shared_dict f;
     _namespace := _namespace f; name := name f;
     flag_parser := flag_parser f; flag_serializer := flag_serializer f;
     help := help f; default_unparsed := default_unparsed f;
     flag_default := flag_default f; default_as_str := default_as_str f;
     _value := _value f; present := present f;
     using_default_value := b |}.

Definition set__shared_dict (w : wrapper) (f : leaf_flag) : leaf_flag :=
  {| class_of := class_of f; _shared_dict := w;
     _namespace := _namespace f; name := name f;
     flag_parser := flag_parser f; flag_serializer := flag_serializer f;
     help := help f; default_unparsed := default_unparsed f;
     flag_default := flag_default f; default_as_str := default_as_str f;
     _value := _value f; present := present f;
     using_default_value := using_default_value f |}.

(** A method of a leaf flag runs on the object and the heap. *)
Definition method (A : Type) : Type := M (leaf_flag * list pyval) A.

Definition self : method leaf_flag := fun s => (Return (fst s), s).
Definition update_self (g : leaf_flag -> leaf_flag) : method unit :=
  modify (fun s => (g (fst s), snd s)).

(** A method that also reaches the store of lists. *)
Definition list_method (A : Type) : Type :=
  M ((leaf_flag * list pyval) * list_store) A.

(** A method of the first kind run where the store of lists is at hand. *)
Definition keeping_lists {A : Type} (m : method A) : list_method A :=
  fun s =>
    match m (fst s) with
    | (o, s') => (o, (s', snd s))
    end.

Definition not_subscriptable : exn :=
  Exception TypeError (Text "object is not subscriptable by a string key").
Definition no_item_assignment : exn :=
  Exception TypeError (Text "object does not support item assignment").

(** [d[name]]. *)
Definition getitem (d : pyval) (name : string) : outcome pyval :=
  match d with
  | VDict entries =>
      match dict_get entries name with
      | Some v => Return v
      | None => Raise (Exception KeyError (Text name))
      end
  | _ => Raise not_subscriptable
  end.

(** [d[name] = v]. *)
Definition setitem (d : pyval) (name : string) (v : pyval) : outcome pyval :=
  match d with
  | VDict entries => Return (VDict (dict_set entries name v))
  | _ => Raise no_item_assignment
  end.

(** [for name in names: d = d[name]], with the number of lookups made. *)
Fixpoint descend (d : pyval) (names : list string) : outcome pyval * nat :=
  match names with
  | [] => (Return d, 0)
  | name :: names' =>
      match getitem d name with
      | Return d' => let (o, n) := descend d' names' in (o, S n)
      | Raise e => (Raise e, 1)
      end
  end.

(** The body of [_update_shared_dict] below the first lookup: descend from
    [d] through all of [k :: rest] but the last, assign [v] at the last.
    The dicts on the way are updated in place in Python; here the changed
    dict is put back under the key it was read from. *)
Fixpoint store_path (d : pyval) (k : string) (rest : list string) (v : pyval)
  : outcome pyval :=
  match rest with
  | [] => setitem d k v
  | k' :: rest' =>
      obind (getitem d k) (fun d' =>
      obind (store_path d' k' rest' v) (fun d'' =>
      setitem d k d''))
  end.

Definition tuple_index_out_of_range : exn :=
  Exception IndexError (Text "tuple index out of range").

(** [_ItemFlag._update_shared_dict] (lines 230-234) and
    [_MultiFlag._update_shared_dict] (lines 259-263), which are the same
    text.  [d] starts at the wrapper; when the first segment is an alias,
    the walk continues in the shared mapping on the heap. *)
Definition _update_shared_dict : method unit :=
  fun s =>
    let (f, heap) := s in
    match _namespace f with
    | [] => (Raise tuple_index_out_of_range, s)
    | [k] => (Return tt, (set__shared_dict (dict_set (_shared_dict f) k (Held (_value f))) f, heap))
    | k :: (k' :: rest') =>
        match dict_get (_shared_dict f) k with
        | None => (Raise (Exception KeyError (Text k)), s)
        | Some (Alias r) =>
            match heap !! r with
            | None => (Raise (Exception KeyError (Text k)), s)
            | Some d =>
                match store_path d k' rest' (_value f) with
                | Return d' => (Return tt, (f, <[r := d']> heap))
                | Raise e => (Raise e, s)
                end
            end
        | Some (Held d) =>
            match store_path d k' rest' (_value f) with
            | Return d' =>
                (Return tt, (set__shared_dict (dict_set (_shared_dict f) k (Held d')) f, heap))
            | Raise e => (Raise e, s)
            end
        end
    end.

(* ===================================================================== *)
(** ** The base classes [flags.Flag] and [flags.MultiFlag]

    absl is outside the repository.  What is written here is the part of
    its flag classes that [_ItemFlag], [_MultiFlag] and [_DictFlag] run
    through [super()]: the constructor sets the help text, parses the
    default, serializes it and assigns it to [value] (the comment at
    lines 282-289 of the source describes the parsing), [parse] assigns
    the parsed argument to [value], and [MultiFlag.parse] extends the
    value in place on repeated occurrences. *)
(* ===================================================================== *)

(** [Flag._parse]: the parser, with [TypeError] and [ValueError] recast
    as [IllegalFlagValueError]. *)
Definition Flag__parse (f : leaf_flag) (argument : pyval) : outcome pyval :=
  match flag_parser f argument with
  | Return v => Return v
  | Raise e =>
      match exn_type e with
      | TypeError | ValueError =>
          Raise (Exception IllegalFlagValueError
                   (FlagMessage (name f) argument (exn_message e)))
      | _ => Raise e
      end
  end.

(** The normalisation at the head of [MultiFlag._parse]: an iterable that
    is not a [str] becomes a list, anything else a one-element list. *)
Definition multi_arguments (lists : list_store) (arguments : pyval) : list pyval :=
  match arguments with
  | VTuple items | VList items => items
  | VDict entries => map VStr (keys entries)
  | VBytes s => byte_values s
  | VRef l => items_at lists l
  | VNone | VBool _ | VInt _ | VStr _ => [arguments]
  end.

(** [MultiFlag._parse]: every item through [Flag._parse]; the result is a
    new list. *)
Definition MultiFlag__parse (lists : list_store) (f : leaf_flag) (arguments : pyval)
  : outcome pyval :=
  obind (parse_each (Flag__parse f) (multi_arguments lists arguments))
    (fun items => Return (VList items)).

(** [self._parse], dispatched on the class of the object. *)
Definition _parse (lists : list_store) (f : leaf_flag) (argument : pyval)
  : outcome pyval :=
  match class_of f with
  | _ItemFlag => Flag__parse f argument
  | _MultiFlag => MultiFlag__parse lists f argument
  end.

(** The overridden [value] setter (lines 221-224 and 250-253): the base
    property's [fset] stores the value, then the shared dict is updated. *)
Definition value_setter (value : pyval) : method unit :=
  update_self (set__value value) ;;;
  _update_shared_dict.

(** The default [Flag._set_default] computes: [None] is kept, any other
    value goes through [self._parse]. *)
Definition parsed_default (lists : list_store) (f : leaf_flag) (value : pyval)
  : outcome pyval :=
  match value with
  | VNone => Return VNone
  | _ => _parse lists f value
  end.

(** [Flag._get_parsed_value_as_string] on a flag that has a serializer, as
    the flags of this module have: nothing for [None], and otherwise the
    text the serializer makes of the value. *)
Definition _get_parsed_value_as_string (lists : list_store) (f : leaf_flag)
    (value : pyval) : outcome (option serialized) :=
  match value with
  | VNone => Return None
  | _ => obind (serialize lists (flag_serializer f) value)
           (fun text => Return (Some text))
  end.

(** [Flag._set_default]. *)
Definition _set_default (lists : list_store) (value : pyval) : method unit :=
  update_self (set_default_unparsed value) ;;;
  f <- self ;;
  d <- lift_outcome (parsed_default lists f value) ;;
  update_self (set_flag_default d) ;;;
  f <- self ;;
  text <- lift_outcome (_get_parsed_value_as_string lists f (flag_default f)) ;;
  update_self (set_default_as_str text) ;;;
  f <- self ;;
  if using_default_value f then value_setter (flag_default f) else ret tt.

Definition no_help_available : string := "(no help available)".

(** The object as [Flag.__init__] has it before [_set_default]: the
    attributes given, an empty help text replaced, no value, not present,
    on its default. *)
Definition new_object (cls : flag_class) (shared_dict : wrapper)
    (namespace : list string) (parser : parser) (serializer : serializer)
    (name : string) (help_string : string) : leaf_flag :=
  {| class_of := cls; _shared_dict := shared_dict; _namespace := namespace;
     name := name; flag_parser := parser; flag_serializer := serializer;
     help := if String.eqb help_string "" then no_help_available else help_string;
     default_unparsed := VNone; flag_default := VNone; default_as_str := None;
     _value := VNone; present := 0; using_default_value := true |}.

Definition newline : string :=
  String (Ascii.Ascii false true false true false false false false) EmptyString.

(** What [MultiFlag.__init__] appends to the help text. *)
Definition repeat_this_option : string :=
  ";" ++ newline ++ "    repeat this option to specify a list of values".

(** [Flag.__init__]: the new object, then [_set_default(default)].  The
    result is the object; a raise leaves what was already written to the
    heap. *)
Definition Flag__init__ (lists : list_store) (cls : flag_class)
    (shared_dict : wrapper) (namespace : list string) (parser : parser)
    (serializer : serializer) (name : string) (default : pyval)
    (help_string : string)
  : M (list pyval) leaf_flag :=
  fun heap =>
    let self0 :=
      new_object cls shared_dict namespace parser serializer name help_string in
    match _set_default lists default (self0, heap) with
    | (Return _, (f, heap')) => (Return f, heap')
    | (Raise e, (_, heap')) => (Raise e, heap')
    end.

(** [MultiFlag.__init__]: [Flag.__init__], then the addition to the help
    text. *)
Definition MultiFlag__init__ (lists : list_store)
    (shared_dict : wrapper) (namespace : list string) (parser : parser)
    (serializer : serializer) (name : string) (default : pyval)
    (help_string : string)
  : M (list pyval) leaf_flag :=
  f <- Flag__init__ lists _MultiFlag shared_dict namespace parser serializer
         name default help_string ;;
  ret (set_help (help f ++ repeat_this_option) f).

(** [_ItemFlag.__init__] (lines 215-218) and [_MultiFlag.__init__]
    (lines 244-247): the two attributes, then the constructor of the base
    class. *)
Definition leaf_flag__init__ (lists : list_store) (cls : flag_class)
    (shared_dict : wrapper) (namespace : list string) (parser : parser)
    (serializer : serializer) (name : string) (default : pyval)
    (help_string : string)
  : M (list pyval) leaf_flag :=
  match cls with
  | _ItemFlag =>
      Flag__init__ lists _ItemFlag shared_dict namespace parser serializer
        name default help_string
  | _MultiFlag =>
      MultiFlag__init__ lists shared_dict namespace parser serializer
        name default help_string
  end.

(** [Flag.parse]: [allow_overwrite] keeps its default [True], so a second
    occurrence is accepted. *)
Definition Flag_parse (lists : list_store) (argument : pyval) : method unit :=
  f <- self ;;
  v <- lift_outcome (_parse lists f argument) ;;
  value_setter v ;;;
  update_self (fun f => set_present (S (present f)) f).

Definition no_extend : exn :=
  Exception AttributeError (Text "object has no attribute 'extend'").

(** [self.value.extend(new_values)]: the list is extended in place and no
    setter runs.  For a list object of the store, every holder of it sees
    the longer list; a list written out in the flag is the flag's own. *)
Definition extend_value (new_values : list pyval) : list_method unit :=
  fun s =>
    match _value (fst (fst s)) with
    | VList items =>
        (Return tt,
         ((set__value (VList (items ++ new_values)) (fst (fst s)), snd (fst s)),
          snd s))
    | VRef l =>
        (Return tt,
         (fst s, <[l := items_at (snd s) l ++ new_values]> (snd s)))
    | _ => (Raise no_extend, s)
    end.

(** [MultiFlag.parse]: the first occurrence replaces the value, later ones
    extend it. *)
Definition MultiFlag_parse (arguments : pyval) : list_method unit :=
  fun s =>
    let f := fst (fst s) in
    (new_values <- lift_outcome
                     (parse_each (Flag__parse f)
                        (multi_arguments (snd s) arguments)) ;;
     (if Nat.eqb (present f) 0
      then keeping_lists (value_setter (VList new_values))
      else extend_value new_values) ;;;
     keeping_lists
       (update_self (fun f => set_present (present f + length new_values) f))) s.

(** [_ItemFlag.parse] (lines 226-228) and [_MultiFlag.parse]
    (lines 255-257): [super().parse(argument)], then the update. *)
Definition parse (argument : pyval) : list_method unit :=
  fun s =>
    ((match class_of (fst (fst s)) with
      | _ItemFlag => keeping_lists (Flag_parse (snd s) argument)
      | _MultiFlag => MultiFlag_parse argument
      end) ;;;
     keeping_lists _update_shared_dict) s.

(* ===================================================================== *)
(** ** The aggregate flag [_DictFlag] *)
(* ===================================================================== *)

Definition _EMPTY : string := "".
Definition SEPARATOR : string := ".".

(** What a [_DictFlag] may hold or be handed: a dict object of the heap,
    told apart by its address, or any other value. *)
Inductive pyobj : Type :=
| Object (r : ref)
| Value (v : pyval).

(** The attributes of a [_DictFlag]: the shared dict it closes over and
    those of [flags.Flag]. *)
Record dict_flag : Type := DictFlag {
  dict_name : string;
  dict_shared_dict : ref;
  dict_help : string;
  dict_default : pyobj;
  dict_value : pyobj;
  dict_present : nat;
  dict_using_default_value : bool
}.

Definition cannot_override : exn :=
  Exception IllegalFlagValueError
    (Text ("Can't override a dict flag directly. Did you mean to override one of "
           ++ "its `Item`s instead?")).

(** [value == _EMPTY]. *)
Definition equals_EMPTY (value : pyobj) : bool :=
  match value with
  | Value (VStr s) => String.eqb s _EMPTY
  | _ => false
  end.

(** [value is self._shared_dict]. *)
Definition is_shared_dict (d : dict_flag) (value : pyobj) : bool :=
  match value with
  | Object r => Nat.eqb r (dict_shared_dict d)
  | Value _ => false
  end.

(** [_DictFlag._parse] (lines 178-194). *)
Definition _DictFlag__parse (d : dict_flag) (value : pyobj) : outcome ref :=
  if is_shared_dict d value || equals_EMPTY value
  then Return (dict_shared_dict d)
  else Raise cannot_override.

(** [_DictFlag.__init__] (lines 174-176) with a dict object as default:
    [Flag.__init__] parses the default and assigns it to the value.  The
    flag has no serializer, and the text of its default is the [str] of
    the dict, which always exists. *)
Definition _DictFlag__init__ (shared_dict : ref) (name : string) (default : ref)
    (help_string : string) : outcome dict_flag :=
  let self0 :=
    {| dict_name := name; dict_shared_dict := shared_dict;
       dict_help := if String.eqb help_string "" then no_help_available
                    else help_string;
       dict_default := Value VNone; dict_value := Value VNone;
       dict_present := 0; dict_using_default_value := true |} in
  obind (_DictFlag__parse self0 (Object default)) (fun v =>
  Return {| dict_name := name; dict_shared_dict := shared_dict;
            dict_help := dict_help self0;
            dict_default := Object v; dict_value := Object v;
            dict_present := 0; dict_using_default_value := true |}).

(** [Flag.parse] run on a [_DictFlag]. *)
Definition _DictFlag_parse (d : dict_flag) (argument : pyobj) : outcome dict_flag :=
  obind (_DictFlag__parse d argument) (fun v =>
  Return {| dict_name := dict_name d; dict_shared_dict := dict_shared_dict d;
            dict_help := dict_help d;
            dict_default := dict_default d; dict_value := Object v;
            dict_present := S (dict_present d);
            dict_using_default_value := dict_using_default_value d |}).

(** [_DictFlag.serialize] (lines 196-197). *)
Definition _DictFlag_serialize (d : dict_flag) : string := _EMPTY.

(** [_DictFlag.flag_type] (lines 199-200). *)
Definition _DictFlag_flag_type (d : dict_flag) : string := "dict".

(* ===================================================================== *)
(** ** The registry and the definition functions *)
(* ===================================================================== *)

Inductive flag : Type :=
| Leaf (f : leaf_flag)
| Aggregate (d : dict_flag).

Definition flag_name (fl : flag) : string :=
  match fl with
  | Leaf f => name f
  | Aggregate d => dict_name d
  end.

(** [flag.value], [flag.default] and [flag.present]. *)
Definition flag_value (fl : flag) : pyobj :=
  match fl with
  | Leaf f => Value (_value f)
  | Aggregate d => dict_value d
  end.

Definition flag_default_of (fl : flag) : pyobj :=
  match fl with
  | Leaf f => Value (flag_default f)
  | Aggregate d => dict_default d
  end.

Definition flag_present (fl : flag) : nat :=
  match fl with
  | Leaf f => present f
  | Aggregate d => dict_present d
  end.

Definition is_None (o : pyobj) : bool :=
  match o with
  | Value VNone => true
  | _ => false
  end.

(** The state of the program: the dict objects made by [define_flags],
    the list objects the program shares, and the [FlagValues] instance in
    use: the flags registered in it, whether it has been marked as parsed,
    and the names it refuses because they are names of its own attributes
    and methods. *)
Record World : Type := MkWorld {
  heap : list pyval;
  lists : list_store;
  registry : gmap string flag;
  flags_parsed : bool;
  banned_flag_names : list string
}.

Definition set_heap (h : list pyval) (w : World) : World :=
  {| heap := h; lists := lists w; registry := registry w;
     flags_parsed := flags_parsed w; banned_flag_names := banned_flag_names w |}.

Definition set_lists (l : list_store) (w : World) : World :=
  {| heap := heap w; lists := l; registry := registry w;
     flags_parsed := flags_parsed w; banned_flag_names := banned_flag_names w |}.

Definition set_registry (g : gmap string flag) (w : World) : World :=
  {| heap := heap w; lists := lists w; registry := g;
     flags_parsed := flags_parsed w; banned_flag_names := banned_flag_names w |}.

Definition set_flags_parsed (b : bool) (w : World) : World :=
  {| heap := heap w; lists := lists w; registry := registry w;
     flags_parsed := b; banned_flag_names := banned_flag_names w |}.

(** What [flags.DEFINE_flag] returns: a holder that, asked for its value,
    looks the flag up by name. *)
Record FlagHolder : Type := MkFlagHolder {
  holder_name : string;
  ensure_non_none_value : bool
}.

Definition has_space (s : string) : bool :=
  existsb (Ascii.eqb (Ascii.Ascii false false false false false true false false))
    (list_ascii_of_string s).

Definition name_is_empty : exn :=
  Exception flags_Error (Text "Flag name cannot be empty").
Definition name_has_space : exn :=
  Exception flags_Error (Text "Flag name cannot contain a space").
Definition name_is_method (name : string) : exn :=
  Exception FlagNameConflictsWithMethodError
    (Text ("Cannot define a flag named " ++ name
           ++ ". It conflicts with a method on class FlagValues.")).
Definition defined_twice (name : string) : exn :=
  Exception DuplicateFlagError (DefinedTwice name).

(** [flag_values[name] = flag], absl's [FlagValues.__setitem__]: its
    checks in their order, then the registration.  Every module is taken
    to be imported once; absl lets a name pass a second time, without
    registering anything, only when the module that defines it is
    imported again under the same name. *)
Definition FlagValues__setitem__ (name : string) (fl : flag) : M World unit :=
  fun w =>
    if String.eqb name "" then (Raise name_is_empty, w)
    else if has_space name then (Raise name_has_space, w)
    else if existsb (String.eqb name) (banned_flag_names w)
    then (Raise (name_is_method name), w)
    else match registry w !! name with
         | Some _ => (Raise (defined_twice name), w)
         | None => (Return tt, set_registry (<[name := fl]> (registry w)) w)
         end.

(** [flags.DEFINE_flag(flag, flag_values)]: the registration, then the
    holder, which is to refuse [None] when the flag's default is not
    [None]. *)
Definition DEFINE_flag (fl : flag) : M World FlagHolder :=
  FlagValues__setitem__ (flag_name fl) fl ;;;
  ret {| holder_name := flag_name fl;
         ensure_non_none_value := negb (is_None (flag_default_of fl)) |}.

(** Runs a computation on the heap inside the world. *)
Definition on_heap {A : Type} (m : M (list pyval) A) : M World A :=
  fun w =>
    let (o, heap') := m (heap w) in
    (o, set_heap heap' w).

(** [Item.define] (lines 303-324) and [MultiItem.define] (lines 361-371),
    which differ in the flag class only. *)
Definition define (cls : flag_class) (it : descriptor) (namespace : list string)
    (shared_dict : wrapper) : M World unit :=
  w <- get ;;
  f <- on_heap (leaf_flag__init__ (lists w) cls shared_dict namespace
                  (_parser it) (_serializer it)
                  (String.concat SEPARATOR namespace)
                  (default it) (_help_string it)) ;;
  DEFINE_flag (Leaf f) ;;;
  ret tt.

Definition no_define (type_name : string) : exn :=
  Exception AttributeError
    (Text ("'" ++ type_name ++ "' object has no attribute 'define'")).

(** [recursively_define_flags] (lines 158-163), closed over [name] and the
    address of [shared_dict]. *)
Fixpoint recursively_define_flags (name : string) (shared_dict : ref)
    (namespace : list string) (maybe_definition : node) : M World unit :=
  match maybe_definition with
  | DictNode entries =>
      (fix loop (items : list (string * node)) : M World unit :=
         match items with
         | [] => ret tt
         | (key, value) :: items' =>
             recursively_define_flags name shared_dict (namespace ++ [key]) value ;;;
             loop items'
         end) entries
  | ItemNode it => define _ItemFlag it namespace [(name, Alias shared_dict)]
  | MultiItemNode it => define _MultiFlag it namespace [(name, Alias shared_dict)]
  | OtherNode type_name => raise (no_define type_name)
  end.

(** The loop of lines 165-166. *)
Fixpoint define_each (name : string) (shared_dict : ref)
    (items : list (string * node)) : M World unit :=
  match items with
  | [] => ret tt
  | (key, value) :: items' =>
      recursively_define_flags name shared_dict [name; key] value ;;;
      define_each name shared_dict items'
  end.

(** Allocation of a new dict object. *)
Definition alloc (d : pyval) : M World ref :=
  fun w => (Return (length (heap w)), set_heap (heap w ++ [d]) w).

(** [define_flags] (lines 131-168); the result is the shared dict. *)
Definition define_flags (name : string) (deferred_flags : list (string * node))
  : M World ref :=
  defaults <- lift_outcome (_extract_defaults deferred_flags) ;;
  shared_dict <- alloc (VDict defaults) ;;
  define_each name shared_dict deferred_flags ;;;
  ret shared_dict.

(** A positional argument of [DEFINE_dict]. *)
Inductive argument : Type :=
| StrArg (s : string)
| FlagValuesArg
| OtherArg (type_name : string).

Definition no_positional : exn :=
  Exception ValueError
    (Text ("Please supply one positional argument containing the "
           ++ "top-level flag name for the dict.")).
Definition no_keyword : exn :=
  Exception ValueError
    (Text ("Please supply at least one keyword argument defining a "
           ++ "flag.")).
Definition too_many_positional : exn :=
  Exception ValueError
    (Text ("Please supply at most two positional arguments, the "
           ++ "first containing the top-level flag name for the dict "
           ++ "and, optionally and unusually, a second positional "
           ++ "argument to override the flags.FlagValues instance to "
           ++ "use.")).
Definition first_not_string (type_name : string) : exn :=
  Exception ValueError
    (Text ("The first positional argument must be a string "
           ++ "containing top-level flag name for the dict. Got a "
           ++ type_name ++ ".")).
Definition second_not_flag_values (type_name : string) : exn :=
  Exception ValueError
    (Text ("If supplying a second positional argument, this must "
           ++ "be a flags.FlagValues instance. Got a " ++ type_name
           ++ ". If you meant "
           ++ "to define a flag, note these must be supplied as "
           ++ "keyword arguments. ")).

Definition type_name_of (a : argument) : string :=
  match a with
  | StrArg _ => "str"
  | FlagValuesArg => "FlagValues"
  | OtherArg type_name => type_name
  end.

(** [DEFINE_dict] (lines 82-128).  The registry of the world is the
    [FlagValues] instance the call resolves to: [args[1]] when given,
    [flags.FLAGS] otherwise. *)
Definition DEFINE_dict (args : list argument) (kwargs : list (string * node))
  : M World FlagHolder :=
  match args with
  | [] => raise no_positional
  | arg0 :: args' =>
      match kwargs with
      | [] => raise no_keyword
      | _ :: _ =>
          if Nat.ltb 2 (length args) then raise too_many_positional
          else
            match arg0 with
            | StrArg flag_name =>
                (match args' with
                 | [FlagValuesArg] | [] => ret tt
                 | arg1 :: _ => raise (second_not_flag_values (type_name_of arg1))
                 end) ;;;
                shared_dict <- define_flags flag_name kwargs ;;
                d <- lift_outcome (_DictFlag__init__ shared_dict flag_name shared_dict
                                     "Unused help string.") ;;
                DEFINE_flag (Aggregate d)
            | _ => raise (first_not_string (type_name_of arg0))
            end
      end
  end.

(** The object a [pyobj] stands for, as a value: the dict at the address,
    or the value itself. *)
Definition contents (w : World) (o : pyobj) : option pyval :=
  match o with
  | Object r => heap w !! r
  | Value v => Some v
  end.

Definition no_such_flag (name : string) : exn :=
  Exception AttributeError (Text name).
Definition unexpected_None (name : string) : exn :=
  Exception IllegalFlagValueError (Text ("Unexpected None value for flag " ++ name)).
Definition unparsed_access (name : string) : exn :=
  Exception UnparsedFlagAccessError
    (Text ("Trying to access flag --" ++ name ++ " before flags were parsed.")).

(** [holder.value], absl's [FlagHolder.value]: [getattr(flag_values,
    name)], which gives the flag's value once the flags have been parsed
    or the flag has been present, and the holder's refusal of [None]. *)
Definition holder_value (h : FlagHolder) (w : World) : outcome pyobj :=
  match registry w !! holder_name h with
  | None => Raise (no_such_flag (holder_name h))
  | Some fl =>
      if flags_parsed w || negb (Nat.eqb (flag_present fl) 0)
      then if ensure_non_none_value h && is_None (flag_value fl)
           then Raise (unexpected_None (holder_name h))
           else Return (flag_value fl)
      else Raise (unparsed_access (holder_name h))
  end.

(* ===================================================================== *)
(** ** Value changes after definition *)
(* ===================================================================== *)

(** Runs a method on the leaf flag registered under [flag_name]; what the
    method did to the object, to the heap and to the lists stays, also
    when it raises. *)
Definition on_leaf {A : Type} (flag_name : string) (f : leaf_flag)
    (m : list_method A) : M World A :=
  fun w =>
    match m ((f, heap w), lists w) with
    | (o, ((f', heap'), lists')) =>
        (o, set_registry (<[flag_name := Leaf f']> (registry w))
              (set_lists lists' (set_heap heap' w)))
    end.

Definition unrecognized (flag_name : string) : exn :=
  Exception UnrecognizedFlagError (Text flag_name).

Definition set_dict_using_default_value (b : bool) (d : dict_flag) : dict_flag :=
  {| dict_name := dict_name d; dict_shared_dict := dict_shared_dict d;
     dict_help := dict_help d;
     dict_default := dict_default d; dict_value := dict_value d;
     dict_present := dict_present d; dict_using_default_value := b |}.

Definition set_dict_value (v : pyobj) (d : dict_flag) : dict_flag :=
  {| dict_name := dict_name d; dict_shared_dict := dict_shared_dict d;
     dict_help := dict_help d;
     dict_default := dict_default d; dict_value := v;
     dict_present := dict_present d;
     dict_using_default_value := dict_using_default_value d |}.

(** A command-line occurrence [--flag_name=value]: the registry looks the
    flag up, calls its [parse] on the text and marks it as set. *)
Definition override (flag_name : string) (value : string) : M World unit :=
  fun w =>
    match registry w !! flag_name with
    | None => (Raise (unrecognized flag_name), w)
    | Some (Leaf f) =>
        on_leaf flag_name f
          (parse (VStr value) ;;;
           keeping_lists (update_self (set_using_default_value false))) w
    | Some (Aggregate d) =>
        match _DictFlag_parse d (Value (VStr value)) with
        | Return d' =>
            (Return tt,
             set_registry
               (<[flag_name := Aggregate (set_dict_using_default_value false d')]>
                  (registry w)) w)
        | Raise e => (Raise e, w)
        end
    end.

(** A programmatic assignment [FLAGS[flag_name].value = value]: a name
    that is not registered is a [KeyError]; a leaf flag runs its setter;
    the dict flag has the setter of [flags.Flag], which stores the
    value. *)
Definition assign (flag_name : string) (value : pyval) : M World unit :=
  fun w =>
    match registry w !! flag_name with
    | None => (Raise (Exception KeyError (Text flag_name)), w)
    | Some (Leaf f) => on_leaf flag_name f (keeping_lists (value_setter value)) w
    | Some (Aggregate d) =>
        (Return tt,
         set_registry
           (<[flag_name := Aggregate (set_dict_value (Value value) d)]> (registry w)) w)
    end.

(** [[...]] evaluated by the program and kept in a variable: a new list
    object, which the program can then give to several flags. *)
Definition new_list (items : list pyval) : M World ref :=
  fun w => (Return (length (lists w)), set_lists (lists w ++ [items]) w).

(** [flag_values.mark_as_parsed()], which the parsing of a command line
    ends with. *)
Definition mark_as_parsed : M World unit :=
  fun w => (Return tt, set_flags_parsed true w).

(** What a program does to the flags after their definition.  The value
    of an assignment is written out, or is a list object made by an
    earlier [NewList]. *)
Inductive event : Type :=
| Override (flag_name : string) (value : string)
| Assign (flag_name : string) (value : pyval)
| NewList (items : list pyval)
| MarkAsParsed.

Definition step (e : event) : M World unit :=
  match e with
  | Override flag_name value => override flag_name value
  | Assign flag_name value => assign flag_name value
  | NewList items => new_list items ;;; ret tt
  | MarkAsParsed => mark_as_parsed
  end.

(** The state after a sequence of events, raised exceptions being caught
    by the caller. *)
Fixpoint run (events : list event) (w : World) : World :=
  match events with
  | [] => w
  | e :: events' => run events' (snd (step e w))
  end.

(* ===================================================================== *)
(** ** Observations on definition trees *)
(* ===================================================================== *)

(** The node of a definition reached along a path of keys. *)
Fixpoint node_at (n : node) (path : list string) : option node :=
  match path with
  | [] => Some n
  | k :: path' =>
      match n with
      | DictNode entries =>
          match dict_get entries k with
          | Some n' => node_at n' path'
          | None => None
          end
      | _ => None
      end
  end.

(** The leaf descriptor at a path, with the class of the flag it defines. *)
Definition leaf_at (n : node) (path : list string)
  : option (flag_class * descriptor) :=
  match node_at n path with
  | Some (ItemNode it) => Some (_ItemFlag, it)
  | Some (MultiItemNode it) => Some (_MultiFlag, it)
  | _ => None
  end.

Fixpoint distinct (l : list string) : bool :=
  match l with
  | [] => true
  | k :: l' => negb (existsb (String.eqb k) l') && distinct l'
  end.

(** Python dicts have no repeated key; a definition kept as a list of
    entries must say so. *)
Fixpoint unique_keys (n : node) : bool :=
  match n with
  | DictNode entries =>
      distinct (keys entries)
      && forallb (fun e => unique_keys (snd e)) entries
  | _ => true
  end.

(** Every node is a dict, an [Item] or a [MultiItem]. *)
Fixpoint only_items (n : node) : bool :=
  match n with
  | DictNode entries => forallb (fun e => only_items (snd e)) entries
  | OtherNode _ => false
  | _ => true
  end.

Definition well_formed (n : node) : bool := unique_keys n && only_items n.

(** The leaves in the order [recursively_define_flags] meets them. *)
Fixpoint leaves (n : node) : list (list string * (flag_class * descriptor)) :=
  match n with
  | ItemNode it => [([], (_ItemFlag, it))]
  | MultiItemNode it => [([], (_MultiFlag, it))]
  | DictNode entries =>
      flat_map (fun e => map (fun l => (fst e :: fst l, snd l)) (leaves (snd e)))
        entries
  | OtherNode _ => []
  end.

(** The name a leaf is registered under. *)
Definition dotted (namespace : list string) : string :=
  String.concat SEPARATOR namespace.

(** What a flag of class [cls] with parser [p] makes of an argument, when
    the parser accepts it: the parsed argument for a single-valued flag,
    the list of the parsed items for a repeatable one. *)
Definition parsed_by (lists : list_store) (cls : flag_class) (p : parser)
    (argument : pyval) : option pyval :=
  match cls with
  | _ItemFlag =>
      match p argument with Return v => Some v | Raise _ => None end
  | _MultiFlag =>
      match parse_each p (multi_arguments lists argument) with
      | Return vs => Some (VList vs)
      | Raise _ => None
      end
  end.

(** The value absl's constructor gives a flag built from a descriptor:
    the descriptor's default parsed once more ([None] is kept). *)
Definition initial_value (lists : list_store) (cls : flag_class) (it : descriptor)
  : option pyval :=
  match default it with
  | VNone => Some VNone
  | d => parsed_by lists cls (_parser it) d
  end.

(** No flag of the registry refers to a dict that is not allocated. *)
Definition closed (w : World) : Prop :=
  forall n f r,
    registry w !! n = Some (Leaf f) ->
    In (Alias r) (map snd (_shared_dict f)) ->
    r < length (heap w).

(** A world without objects and flags, not yet parsed, that refuses the
    given names. *)
Definition new_world (banned : list string) : World :=
  {| heap := []; lists := []; registry := ∅;
     flags_parsed := false; banned_flag_names := banned |}.

Definition empty_world : World := new_world [].

(** The type names of the nodes that are neither a dict nor a descriptor,
    in the order [_extract_defaults] meets them. *)
Fixpoint other_types (n : node) : list string :=
  match n with
  | DictNode entries => flat_map (fun e => other_types (snd e)) entries
  | OtherNode type_name => [type_name]
  | _ => []
  end.

(* ===================================================================== *)
(** ** Sample parsers and definitions *)
(* ===================================================================== *)

Module Samples.

(** [flags.ArgumentParser.parse], the parser of [String] items: a string
    is returned as it is, anything else is a [TypeError]. *)
Definition string_parser : parser := fun v =>
  match v with
  | VStr _ => Return v
  | _ => Raise (Exception TypeError (Text "flag value must be a string"))
  end.

Definition digit_of (c : Ascii.ascii) : option Z :=
  let n := Ascii.nat_of_ascii c in
  if Nat.leb 48 n && Nat.leb n 57 then Some (Z.of_nat (n - 48)) else None.

Fixpoint decimal (acc : Z) (s : string) : option Z :=
  match s with
  | EmptyString => Some acc
  | String c s' =>
      match digit_of c with
      | Some d => decimal (10 * acc + d) s'
      | None => None
      end
  end.

(** A parser of non-negative decimal integers in the manner of
    [flags.IntegerParser]: an [int] is returned as it is. *)
Definition integer_parser : parser := fun v =>
  match v with
  | VInt _ => Return v
  | VStr (String c s) =>
      match decimal 0 (String c s) with
      | Some z => Return (VInt z)
      | None => Raise (Exception ValueError (Text "invalid literal for int()"))
      end
  | _ => Raise (Exception TypeError (Text "Expect argument to be a string or int"))
  end.

(** A user-written parser that resolves a name against a base directory. *)
Definition in_directory (base : string) : parser := fun v =>
  match v with
  | VStr s => Return (VStr (base ++ "/" ++ s))
  | _ => Raise (Exception TypeError (Text "flag value must be a string"))
  end.

(** A parser that accepts nothing. *)
Definition rejecting_parser : parser := fun _ =>
  Raise (Exception ValueError (Text "rejected")).

Definition item (default : pyval) (p : parser) : descriptor :=
  {| default := default; _help_string := "help"; _parser := p;
     _serializer := ArgumentSerializer |}.

(** The definition of the docstring of [DEFINE_dict] (without the float). *)
Definition image_settings : list (string * node) :=
  [("mode", ItemNode (item (VStr "pad") string_parser));
   ("sizes", DictNode [("width", ItemNode (item (VInt 5) integer_parser));
                       ("height", ItemNode (item (VInt 7) integer_parser))])].

(** A definition with a repeatable leaf. *)
Definition tagged : list (string * node) :=
  [("tags", MultiItemNode (item (VList [VStr "a"]) string_parser));
   ("limit", ItemNode (item (VInt 3) integer_parser))].

End Samples.

(* ===================================================================== *)
(** ** Predicates and auxiliary functions of the statements *)
(* ===================================================================== *)

(** The walk of [_update_shared_dict] can be made: the namespace is not
    empty and all its segments but the last lead to a dict. *)
Definition path_ready (w : wrapper) (namespace : list string) (heap : list pyval)
  : Prop :=
  namespace <> [] /\
  exists es, get_path (view w heap) (removelast namespace) = Some (VDict es).

(** The entry of the shared mapping at the flag's namespace is the flag's
    current value. *)
Definition written_through (f : leaf_flag) (heap : list pyval) : Prop :=
  get_path (view (_shared_dict f) heap) (_namespace f) = Some (_value f).

(** [related R n v]: [v] has a dict wherever [n] has one, with the same
    keys in the same order, and a value satisfying [R] at every leaf. *)
Fixpoint related (R : flag_class -> descriptor -> pyval -> Prop)
    (n : node) (v : pyval) : Prop :=
  match n with
  | ItemNode it => R _ItemFlag it v
  | MultiItemNode it => R _MultiFlag it v
  | DictNode entries =>
      match v with
      | VDict es =>
          (fix all (entries : list (string * node)) (es : list (string * pyval))
             : Prop :=
             match entries, es with
             | [], [] => True
             | (k, n') :: entries', (k', v') :: es' =>
                 k = k' /\ related R n' v' /\ all entries' es'
             | _, _ => False
             end) entries es
      | _ => False
      end
  | OtherNode _ => False
  end.

Definition related_entries (R : flag_class -> descriptor -> pyval -> Prop)
    (entries : list (string * node)) (es : list (string * pyval)) : Prop :=
  Forall2 (fun e x => fst e = fst x /\ related R (snd e) (snd x)) entries es.

(** Nothing is asked of the leaves: the shape alone. *)
Definition any_value : flag_class -> descriptor -> pyval -> Prop :=
  fun _ _ _ => True.

(** The leaf holds the descriptor's default. *)
Definition holds_default : flag_class -> descriptor -> pyval -> Prop :=
  fun _ it v => v = default it.

(** The flag's wrapper holds the dict at address [r]. *)
Definition aliases (r : ref) (f : leaf_flag) : bool :=
  existsb (fun e => match snd e with
                    | Alias r' => Nat.eqb r' r
                    | Held _ => false
                    end) (_shared_dict f).

(** The flag is the one [define_flags name] makes for the leaf at [p]. *)
Definition attached (name : string) (r : ref) (p : list string) (f : leaf_flag)
  : Prop :=
  _namespace f = name :: p /\ _shared_dict f = [(name, Alias r)].

(** [v'] still mirrors the definition and differs from [v] at the leaf
    [p] at most. *)
Definition evolves (tree : node) (p : list string) (v v' : pyval) : Prop :=
  related any_value tree v' /\
  forall q y, leaf_at tree q = Some y -> q <> p -> get_path v' q = get_path v q.

(** A computation keeps a property of the state, also when it raises. *)
Definition preserves {S A : Type} (P : S -> Prop) (m : M S A) : Prop :=
  forall s o s', P s -> m s = (o, s') -> P s'.

(** The flag does not hold the dict at [r], which is [x]. *)
Definition detached (r : ref) (x : option pyval) (s : leaf_flag * list pyval)
  : Prop :=
  snd s !! r = x /\ aliases r (fst s) = false.

(** [f] is the flag made for the leaf [c] at [p]. *)
Definition flag_of_leaf (name : string) (r : ref) (p : list string)
    (c : flag_class * descriptor) (f : leaf_flag) : Prop :=
  attached name r p f /\ class_of f = fst c /\ flag_parser f = _parser (snd c).

(** The state of a definition some leaves of which, [done], have their
    flag: the shared mapping mirrors the definition, every leaf done is
    registered under its dotted name with the value the mapping has at its
    path, and no other flag holds the shared mapping. *)
Record invariant (name : string) (m : list (string * node)) (r : ref)
    (done : list (list string * (flag_class * descriptor))) (w : World) : Prop := {
  inv_shared :
    exists v,
      heap w !! r = Some v
      /\ related any_value (DictNode m) v
      /\ forall p c, In (p, c) done ->
           exists f, registry w !! dotted (name :: p) = Some (Leaf f)
                     /\ flag_of_leaf name r p c f
                     /\ get_path v p = Some (_value f);
  inv_owner :
    forall n f, registry w !! n = Some (Leaf f) -> aliases r f = true ->
                exists p c, In (p, c) done /\ n = dotted (name :: p)
}.

Definition leaves_of (m : list (string * node))
    (done : list (list string * (flag_class * descriptor))) : Prop :=
  forall p c, In (p, c) done -> leaf_at (DictNode m) p = Some c.

(** The definitions [recursively_define_flags] makes, one after the other,
    for a list of leaves given with their paths below the root name. *)
Fixpoint define_list (name : string) (shared_dict : ref)
    (ls : list (list string * (flag_class * descriptor))) : M World unit :=
  match ls with
  | [] => ret tt
  | (p, (cls, it)) :: ls' =>
      define cls it (name :: p) [(name, Alias shared_dict)] ;;;
      define_list name shared_dict ls'
  end.

Definition under (prefix : list string)
    (ls : list (list string * (flag_class * descriptor)))
  : list (list string * (flag_class * descriptor)) :=
  map (fun l => (prefix ++ fst l, snd l)) ls.

(** [shared] has the keys and the nesting of the definition [m], and at
    every leaf the value [value_of] gives for its descriptor. *)
Definition mirrors (value_of : flag_class -> descriptor -> option pyval)
    (m : list (string * node)) (shared : pyval) : Prop :=
  (forall path entries,
      node_at (DictNode m) path = Some (DictNode entries) ->
      exists es, get_path shared path = Some (VDict es)
                 /\ keys es = keys entries) /\
  (forall path cls it,
      leaf_at (DictNode m) path = Some (cls, it) ->
      exists v, value_of cls it = Some v /\ get_path shared path = Some v).

(** A parser that returns its own results unchanged. *)
Definition stable (p : parser) : Prop :=
  forall x y, p x = Return y -> p y = Return y.

(** The registry after, compared to the registry before: every entry is
    kept, and a new entry is a leaf flag that holds no dict but [r]. *)
Definition extends_registry (r : ref) (w w' : World) : Prop :=
  (forall n fl, registry w !! n = Some fl -> registry w' !! n = Some fl) /\
  (forall r', r' <> r -> heap w' !! r' = heap w !! r') /\
  (forall n fl, registry w' !! n = Some fl ->
     registry w !! n = Some fl
     \/ exists f, fl = Leaf f /\ forall r', r' <> r -> aliases r' f = false).

(** What a definition made in [w] leaves in [w']: every flag of [w] is
    still registered, every dict object of [w] is as it was, and a new
    leaf flag holds none of the dict objects of [w]. *)
Definition grows (w w' : World) : Prop :=
  (forall n fl, registry w !! n = Some fl -> registry w' !! n = Some fl) /\
  (forall r, r < length (heap w) -> heap w' !! r = heap w !! r) /\
  (forall n f, registry w' !! n = Some (Leaf f) ->
     registry w !! n = Some (Leaf f)
     \/ forall r, r < length (heap w) -> aliases r f = false).



(** The dict object that the flag closes over holds the flag's value: for
    a flag whose wrapper has the dict at address [r] under the first
    segment of its namespace, as the flags of [define_flags] have, the
    wrapper is the one of [f], the heap is the one before with the object
    at [r] changed, and that object has the value of [f'] at the path that
    the rest of the namespace makes. *)
Definition updates_shared (f : leaf_flag) (heap : list pyval)
    (f' : leaf_flag) (heap' : list pyval) : Prop :=
  forall k below r,
    _namespace f = k :: below -> below <> [] ->
    dict_get (_shared_dict f) k = Some (Alias r) ->
    _shared_dict f' = _shared_dict f
    /\ exists d', heap' = <[r := d']> heap
                  /\ heap' !! r = Some d'
                  /\ get_path d' below = Some (_value f').

(** The value a flag has after its [parse] obtained [v] from [_parse],
    and the store of lists then: a single-valued flag takes [v]; a
    repeatable one takes it at its first occurrence and at later ones
    extends the list it has, which for a list object of the store changes
    the store and not the flag. *)
Definition value_after_parse (lists : list_store) (f : leaf_flag) (v : pyval)
  : option (pyval * list_store) :=
  match class_of f with
  | _ItemFlag => Some (v, lists)
  | _MultiFlag =>
      if Nat.eqb (present f) 0 then Some (v, lists)
      else match _value f, v with
           | VList items, VList new_values =>
               Some (VList (items ++ new_values), lists)
           | VRef l, VList new_values =>
               Some (VRef l, <[l := items_at lists l ++ new_values]> lists)
           | _, _ => None
           end
  end.

(** The count of occurrences after a [parse] that obtained [v]. *)
Definition present_after_parse (f : leaf_flag) (v : pyval) : nat :=
  match class_of f with
  | _ItemFlag => S (present f)
  | _MultiFlag =>
      present f + match v with
                  | VList new_values => length new_values
                  | _ => 0
                  end
  end.

(** The addition of [MultiFlag.__init__] to the help text. *)
Definition with_class_help (cls : flag_class) (f : leaf_flag) : leaf_flag :=
  match cls with
  | _ItemFlag => f
  | _MultiFlag => set_help (help f ++ repeat_this_option) f
  end.

(** The flag a constructor returns when the default parses to [v] and its
    text is [text], the wrapper apart. *)
Definition constructed (cls : flag_class) (w : wrapper) (ns : list string)
    (p : parser) (s : serializer) (n : string) (h : string)
    (d v : pyval) (text : option serialized) : leaf_flag :=
  with_class_help cls
    (set__value v
       (set_default_as_str text
          (set_flag_default v
             (set_default_unparsed d (new_object cls w ns p s n h))))).

(** Every flag that closes over the same dict object as [f] reads the
    value of [f'] there: through its own wrapper, at the path of [f]. *)
Definition seen_by_all (f : leaf_flag) (f' : leaf_flag) (heap' : list pyval)
  : Prop :=
  forall k below r,
    _namespace f = k :: below -> below <> [] ->
    dict_get (_shared_dict f) k = Some (Alias r) ->
    forall (g : leaf_flag) k',
      dict_get (_shared_dict g) k' = Some (Alias r) ->
      get_path (view (_shared_dict g) heap') (k' :: below) = Some (_value f').

(** The effect of a method on an attached flag and the heap. *)
Definition attached_step (name : string) (r : ref) (tree : node) (p : list string)
    (f : leaf_flag) (heap : list pyval) (v : pyval)
    (f' : leaf_flag) (heap' : list pyval) : Prop :=
  exists v',
    heap' = <[r := v']> heap
    /\ evolves tree p v v'
    /\ get_path v' p = Some (_value f')
    /\ attached name r p f'
    /\ class_of f' = class_of f
    /\ flag_parser f' = flag_parser f.

(** [detached] for a method that reaches the store of lists. *)
Definition list_detached (r : ref) (x : option pyval)
    (s : (leaf_flag * list pyval) * list_store) : Prop :=
  detached r x (fst s).

(** The exception with which [FlagValues.__setitem__] refuses a name, if
    it does. *)
Definition refusal (w : World) (n : string) : option exn :=
  if String.eqb n "" then Some name_is_empty
  else if has_space n then Some name_has_space
  else if existsb (String.eqb n) (banned_flag_names w)
  then Some (name_is_method n)
  else match registry w !! n with
       | Some _ => Some (defined_twice n)
       | None => None
       end.

(** The object [Flag.__init__] starts from for the leaf at [p] of the
    definition [name]. *)
Definition leaf_object (name : string) (r : ref) (p : list string)
    (cls : flag_class) (it : descriptor) : leaf_flag :=
  new_object cls [(name, Alias r)] (name :: p) (_parser it) (_serializer it)
    (String.concat SEPARATOR (name :: p)) (_help_string it).

(** The constructor of a leaf's flag raises [e]: the default is refused
    by [_parse], or its text cannot be made by the serializer. *)
Definition construction_fails (lists : list_store) (f0 : leaf_flag) (d : pyval)
    (e : exn) : Prop :=
  parsed_default lists f0 d = Raise e
  \/ exists v, parsed_default lists f0 d = Return v
               /\ _get_parsed_value_as_string lists f0 v = Raise e.

(** An exception of [define_flags] that comes from the definition of a
    leaf: from the constructor of its flag, or from the registry, which
    refuses its name. *)
Definition leaf_failure (lists : list_store) (name : string) (r : ref)
    (m : list (string * node)) (e : exn) : Prop :=
  exists p cls it,
    leaf_at (DictNode m) p = Some (cls, it)
    /\ (construction_fails lists (leaf_object name r p cls it) (default it) e
        \/ e = name_has_space
        \/ e = name_is_method (dotted (name :: p))
        \/ e = defined_twice (dotted (name :: p))).

(** A flag as its construction leaves it. *)
Definition as_constructed (lists : list_store) (c : flag_class * descriptor)
    (f : leaf_flag) : Prop :=
  initial_value lists (fst c) (snd c) = Some (_value f)
  /\ flag_default f = _value f
  /\ present f = 0.

(** What the definitions of the leaves [made], of a definition [name] with
    its shared dict at [r], have done to the world [w], giving [w']. *)
Record progress (name : string) (m : list (string * node)) (r : ref)
    (made : list (list string * (flag_class * descriptor)))
    (w w' : World) : Prop := {
  made_flags :
    forall p c, In (p, c) made ->
      registry w !! dotted (name :: p) = None
      /\ exists f, registry w' !! dotted (name :: p) = Some (Leaf f)
                   /\ as_constructed (lists w) c f;
  kept_flags :
    forall n fl, registry w !! n = Some fl -> registry w' !! n = Some fl;
  new_names :
    forall n, registry w !! n = None -> registry w' !! n <> None ->
      exists p c, In (p, c) made /\ n = dotted (name :: p);
  kept_lists : lists w' = lists w;
  kept_parsed : flags_parsed w' = flags_parsed w;
  kept_banned : banned_flag_names w' = banned_flag_names w
}.

(** The dict flag [DEFINE_dict] makes for the shared dict at [r]. *)
Definition root_flag (name : string) (r : ref) : dict_flag :=
  {| dict_name := name; dict_shared_dict := r;
     dict_help := "Unused help string.";
     dict_default := Object r; dict_value := Object r;
     dict_present := 0; dict_using_default_value := true |}.

(** The positional arguments [DEFINE_dict] accepts for the root name
    [name]: the name, optionally followed by a [FlagValues]. *)
Definition names_root (args : list argument) (name : string) : Prop :=
  args = [StrArg name] \/ args = [StrArg name; FlagValuesArg].

(** The flag after an accepted override that obtained [x] from [_parse]
    and left the flag the value [y]. *)
Definition overridden (f : leaf_flag) (x y : pyval) : leaf_flag :=
  set_using_default_value false
    (set_present (present_after_parse f x) (set__value y f)).

(** A repeatable flag that has been present holds a list of its own, not
    a list object that the program keeps as well. *)
Definition extends_own_list (n : string) (w : World) : Prop :=
  forall f l,
    registry w !! n = Some (Leaf f) ->
    class_of f = _MultiFlag -> present f <> 0 -> _value f <> VRef l.

(** A command line with the occurrences [--flag_name=t] for the texts
    [t] of a list, in order; the parsing stops at the first refusal. *)
Fixpoint occurrences (flag_name : string) (texts : list string) : M World unit :=
  match texts with
  | [] => ret tt
  | t :: texts' => override flag_name t ;;; occurrences flag_name texts'
  end.

(** The dict flag of a definition is registered under the root name and
    closes over the shared dict at [r]. *)
Definition aggregate_kept (name : string) (r : ref) (w : World) : Prop :=
  exists d, registry w !! name = Some (Aggregate d) /\ dict_shared_dict d = r.

(** It is, and its value is the shared dict. *)
Definition aggregate_ok (name : string) (r : ref) (w : World) : Prop :=
  exists d, registry w !! name = Some (Aggregate d)
            /\ dict_shared_dict d = r /\ dict_value d = Object r.

(** The descriptor is one that the constructor of its class returns, the
    list objects being those of [lists]. *)
Definition built (lists : list_store) (cls : flag_class) (it : descriptor) : Prop :=
  exists d h s,
    match cls with
    | _ItemFlag => Item__init__ d h (_parser it) s
    | _MultiFlag => MultiItem__init__ lists d h (_parser it) s
    end = Return it.

(** The help text absl gives a flag of class [cls] made with the help
    string [help_string]. *)
Definition help_text (cls : flag_class) (help_string : string) : string :=
  match cls with
  | _ItemFlag =>
      if String.eqb help_string "" then no_help_available else help_string
  | _MultiFlag =>
      (if String.eqb help_string "" then no_help_available else help_string)
      ++ repeat_this_option
  end.

(** The flag made from the descriptor accepts the descriptor's default:
    its parser parses it once more, and its serializer makes a text of
    the result. *)
Definition accepts_default (lists : list_store) (cls : flag_class)
    (it : descriptor) : Prop :=
  exists v, initial_value lists cls it = Some v
            /\ (v = VNone
                \/ exists text, serialize lists (_serializer it) v = Return text).
(* ===================================================================== *)
(** ** Basic facts: dicts, paths, induction on definitions *)
(* ===================================================================== *)

Lemma dict_get_set_eq {A : Type} (d : list (string * A)) k v :
  dict_get (dict_set d k v) k = Some v.
Proof.
  induction d as [|[k' v'] d IH]; simpl.
  - now rewrite String.eqb_refl.
  - destruct (String.eqb k' k) eqn:E; simpl.
    + now rewrite String.eqb_refl.
    + now rewrite E.
Qed.

Lemma dict_get_set_ne {A : Type} (d : list (string * A)) k k' v :
  k <> k' -> dict_get (dict_set d k v) k' = dict_get d k'.
Proof.
  intros Hne. induction d as [|[k0 v0] d IH]; simpl.
  - destruct (String.eqb k k') eqn:E; [|reflexivity].
    apply String.eqb_eq in E. contradiction.
  - destruct (String.eqb k0 k) eqn:E; simpl.
    + apply String.eqb_eq in E. subst k0.
      destruct (String.eqb k k') eqn:E'; [|reflexivity].
      apply String.eqb_eq in E'. contradiction.
    + now rewrite IH.
Qed.

Lemma keys_dict_set_present {A : Type} (d : list (string * A)) k v x :
  dict_get d k = Some x -> keys (dict_set d k v) = keys d.
Proof.
  induction d as [|[k0 v0] d IH]; simpl; [discriminate|].
  destruct (String.eqb k0 k) eqn:E; simpl; intros H.
  - apply String.eqb_eq in E. now subst.
  - f_equal. now apply IH.
Qed.

Lemma existsb_eqb_false (k : string) (l : list string) :
  existsb (String.eqb k) l = false <-> ~ In k l.
Proof.
  induction l as [|a l IH]; simpl.
  - tauto.
  - rewrite orb_false_iff, IH. split.
    + intros [E Hl] [->|Hin]; [|tauto]. now rewrite String.eqb_refl in E.
    + intros H. split; [|tauto].
      destruct (String.eqb k a) eqn:E; [|reflexivity].
      apply String.eqb_eq in E. subst. tauto.
Qed.

Lemma dict_get_None {A : Type} (d : list (string * A)) k :
  dict_get d k = None <-> ~ In k (keys d).
Proof.
  induction d as [|[k0 v0] d IH]; simpl; [tauto|].
  destruct (String.eqb k0 k) eqn:E.
  - apply String.eqb_eq in E. subst. split; [discriminate|tauto].
  - apply String.eqb_neq in E. rewrite IH. tauto.
Qed.

Lemma dict_set_fresh {A : Type} (d : list (string * A)) k v :
  ~ In k (keys d) -> dict_set d k v = d ++ [(k, v)].
Proof.
  induction d as [|[k0 v0] d IH]; simpl; [reflexivity|].
  intros H. destruct (String.eqb k0 k) eqn:E.
  - apply String.eqb_eq in E. subst. tauto.
  - f_equal. apply IH. tauto.
Qed.

Lemma dict_get_app {A : Type} (d1 d2 : list (string * A)) k :
  dict_get (d1 ++ d2) k =
  match dict_get d1 k with Some v => Some v | None => dict_get d2 k end.
Proof.
  induction d1 as [|[k0 v0] d1 IH]; simpl; [reflexivity|].
  now destruct (String.eqb k0 k).
Qed.

(** Induction on definitions that reaches into the entries of a dict. *)
Lemma node_induction (P : node -> Prop) :
  (forall it, P (ItemNode it)) ->
  (forall it, P (MultiItemNode it)) ->
  (forall entries, Forall (fun e => P (snd e)) entries -> P (DictNode entries)) ->
  (forall type_name, P (OtherNode type_name)) ->
  forall n, P n.
Proof.
  intros HI HM HD HO.
  fix IH 1. intros [it|it|entries|tn].
  - apply HI.
  - apply HM.
  - apply HD. induction entries as [|[k n] entries IHe]; constructor.
    + apply IH.
    + exact IHe.
  - apply HO.
Qed.

Lemma extract_value_dict (mapping : list (string * node)) :
  extract_value (DictNode mapping) =
  obind (_extract_defaults mapping) (fun result => Return (VDict result)).
Proof. reflexivity. Qed.

Lemma obind_Return {A B : Type} (o : outcome A) (k : A -> outcome B) b :
  obind o k = Return b -> exists a, o = Return a /\ k a = Return b.
Proof. destruct o; simpl; [eauto|discriminate]. Qed.

(* ===================================================================== *)
(** ** The descriptors' constructors *)
(* ===================================================================== *)

(** C8.  [Item.__init__] runs the descriptor's own parser on a default
    that is not [None] and stores what it returns; when the parser raises,
    the constructor raises the same exception, so the defect shows when
    the item is made.  A [None] default is stored as it is whatever the
    parser, which is not consulted. *)
Theorem Item_init_parses_default
    (d : pyval) (help_string : string) (p : parser) (s : option serializer) :
  (forall q : parser,
      exists it, Item__init__ VNone help_string q s = Return it
                 /\ default it = VNone /\ _parser it = q) /\
  (d <> VNone ->
   (forall v, p d = Return v ->
      exists it, Item__init__ d help_string p s = Return it
                 /\ default it = v /\ _parser it = p
                 /\ _help_string it = help_string) /\
   (forall e, p d = Raise e -> Item__init__ d help_string p s = Raise e)).
Proof.
  split.
  - intros q. eexists. split; [reflexivity|]. split; reflexivity.
  - intros Hd. split.
    + intros v Hv. unfold Item__init__.
      destruct d; try contradiction; rewrite Hv; simpl;
        (eexists; split; [reflexivity|repeat split]).
    + intros e He. unfold Item__init__.
      destruct d; try contradiction; now rewrite He.
Qed.


Lemma Item_init_parses_default_witness :
  exists it,
    Item__init__ (VStr "12") "Width." Samples.integer_parser None = Return it
    /\ default it = VInt 12.
Proof.
  destruct (Item_init_parses_default (VStr "12") "Width."
              Samples.integer_parser None) as [_ H].
  destruct (H ltac:(discriminate)) as [Hok _].
  destruct (Hok (VInt 12) eq_refl) as (it & Hit & Hd & _).
  exists it. split; [exact Hit|exact Hd].
Defined.


(* ===================================================================== *)
(** ** The builder of the shared mapping *)
(* ===================================================================== *)

Lemma extract_loop_raises (items : list (string * node)) :
  Forall (fun e =>
            forall tn rest, other_types (snd e) = tn :: rest ->
              extract_value (snd e) = Raise (Exception TypeError (found_type_message tn)))
         items ->
  Forall (fun e => other_types (snd e) = [] -> exists v, extract_value (snd e) = Return v)
         items ->
  forall result tn rest,
    flat_map (fun e => other_types (snd e)) items = tn :: rest ->
    extract_loop items result = Raise (Exception TypeError (found_type_message tn)).
Proof.
  induction items as [|[k n] items IH]; simpl; intros HR HO result tn rest H.
  - discriminate.
  - inversion HR as [|? ? HRn HRs]; subst. inversion HO as [|? ? HOn HOs]; subst.
    simpl in *. destruct (other_types n) as [|tn' rest'] eqn:En.
    + destruct (HOn eq_refl) as [v Hv]. rewrite Hv. simpl.
      eapply IH; eauto.
    + simpl in H. injection H as -> _.
      now rewrite (HRn _ _ eq_refl).
Qed.

Lemma extract_loop_returns (items : list (string * node)) :
  Forall (fun e => other_types (snd e) = [] -> exists v, extract_value (snd e) = Return v)
         items ->
  forall result,
    flat_map (fun e => other_types (snd e)) items = [] ->
    exists result', extract_loop items result = Return result'.
Proof.
  induction items as [|[k n] items IH]; simpl; intros HO result H.
  - eauto.
  - inversion HO as [|? ? HOn HOs]; subst. simpl in *.
    apply app_eq_nil in H as [Hn Hs].
    destruct (HOn Hn) as [v Hv]. rewrite Hv. simpl. now apply IH.
Qed.

Lemma extract_value_other (n : node) :
  (forall tn rest, other_types n = tn :: rest ->
     extract_value n = Raise (Exception TypeError (found_type_message tn))) /\
  (other_types n = [] -> exists v, extract_value n = Return v).
Proof.
  induction n as [it|it|entries IH|type_name] using node_induction.
  - split; [discriminate|]. simpl. eauto.
  - split; [discriminate|]. simpl. eauto.
  - rewrite extract_value_dict. unfold _extract_defaults. simpl other_types. split.
    + intros tn rest H.
      erewrite extract_loop_raises; eauto.
      * eapply List.Forall_impl; [|exact IH]. intros e He. apply He.
      * eapply List.Forall_impl; [|exact IH]. intros e He. apply He.
    + intros H.
      destruct (extract_loop_returns entries) with (result := @nil (string * pyval))
        as [r Hr]; auto.
      * eapply List.Forall_impl; [|exact IH]. intros e He. apply He.
      * rewrite Hr. simpl. eauto.
  - split.
    + intros tn rest H. simpl in H. injection H as <- _. reflexivity.
    + discriminate.
Qed.

Lemma extract_defaults_reports_type_aux
    (mapping : list (string * node)) (type_name : string) (rest : list string) :
  other_types (DictNode mapping) = type_name :: rest ->
  _extract_defaults mapping =
  Raise (Exception TypeError (found_type_message type_name)).
Proof.
  intros H.
  destruct (extract_value_other (DictNode mapping)) as [HR _].
  specialize (HR _ _ H). rewrite extract_value_dict in HR.
  destruct (_extract_defaults mapping); simpl in HR; [discriminate|].
  injection HR as ->. reflexivity.
Qed.



(* ===================================================================== *)
(** ** The aggregate flag *)
(* ===================================================================== *)

(** C2.  [_DictFlag._parse] raises [IllegalFlagValueError], with the
    message that points to the items, for every value that is neither the
    shared dict itself nor equal to the empty string; for those two it
    returns the shared dict.  An override of a registered dict flag with
    the empty string therefore leaves the heap as it is and the flag's
    value at the shared dict, and any other text is refused with the
    state unchanged. *)
Theorem DictFlag_parse_rejects_overrides (d : dict_flag) (value : pyobj) :
  (value <> Object (dict_shared_dict d) -> value <> Value (VStr _EMPTY) ->
   _DictFlag__parse d value = Raise cannot_override
   /\ exn_type cannot_override = IllegalFlagValueError
   /\ exn_message cannot_override =
      Text "Can't override a dict flag directly. Did you mean to override one of its `Item`s instead?") /\
  _DictFlag__parse d (Object (dict_shared_dict d)) = Return (dict_shared_dict d) /\
  _DictFlag__parse d (Value (VStr _EMPTY)) = Return (dict_shared_dict d) /\
  (forall flag_name w,
      registry w !! flag_name = Some (Aggregate d) ->
      (exists w',
          override flag_name _EMPTY w = (Return tt, w')
          /\ heap w' = heap w
          /\ lists w' = lists w
          /\ (exists d', registry w' !! flag_name = Some (Aggregate d')
                         /\ dict_shared_dict d' = dict_shared_dict d
                         /\ dict_value d' = Object (dict_shared_dict d))
          /\ (forall other, other <> flag_name ->
                registry w' !! other = registry w !! other)) /\
      (forall text, text <> _EMPTY ->
          override flag_name text w = (Raise cannot_override, w))).
Proof.
  split; [|split; [|split]].
  - intros Hobj Hval. split; [|split; reflexivity].
    unfold _DictFlag__parse, is_shared_dict, equals_EMPTY.
    destruct value as [r|v].
    + destruct (Nat.eqb r (dict_shared_dict d)) eqn:E; [|reflexivity].
      apply Nat.eqb_eq in E. subst. contradiction.
    + destruct v; try reflexivity.
      destruct (String.eqb s _EMPTY) eqn:E; [|reflexivity].
      apply String.eqb_eq in E. subst. contradiction.
  - unfold _DictFlag__parse. simpl. now rewrite Nat.eqb_refl.
  - reflexivity.
  - intros flag_name w Hreg. split.
    + unfold override. rewrite Hreg. simpl.
      eexists. split; [reflexivity|]. simpl. split; [reflexivity|].
      split; [reflexivity|]. split.
      * eexists. rewrite lookup_insert_eq. split; [reflexivity|]. split; reflexivity.
      * intros other Hne. now rewrite lookup_insert_ne.
    + intros text Hne. unfold override. rewrite Hreg.
      unfold _DictFlag_parse, _DictFlag__parse. simpl.
      destruct (String.eqb text _EMPTY) eqn:E; [|reflexivity].
      apply String.eqb_eq in E. contradiction.
Qed.

Lemma DictFlag_parse_rejects_overrides_witness :
  _DictFlag__parse
    {| dict_name := "cfg"; dict_shared_dict := 0;
       dict_help := "Unused help string."; dict_default := Object 0;
       dict_value := Object 0; dict_present := 0;
       dict_using_default_value := true |}
    (Value (VStr "{'mode': 'crop'}"))
  = Raise cannot_override.
Proof.
  apply (DictFlag_parse_rejects_overrides
           {| dict_name := "cfg"; dict_shared_dict := 0;
              dict_help := "Unused help string."; dict_default := Object 0;
              dict_value := Object 0; dict_present := 0;
              dict_using_default_value := true |}
           (Value (VStr "{'mode': 'crop'}"))); discriminate.
Defined.
(* ===================================================================== *)
(** ** The write-through of one flag *)
(* ===================================================================== *)

Lemma dict_get_map {A B : Type} (g : A -> B) (d : list (string * A)) k :
  dict_get (map (fun e => (fst e, g (snd e))) d) k =
  match dict_get d k with Some a => Some (g a) | None => None end.
Proof.
  induction d as [|[k0 a] d IH]; simpl; [reflexivity|].
  now destruct (String.eqb k0 k).
Qed.

Lemma dict_set_map {A B : Type} (g : A -> B) (d : list (string * A)) k a :
  map (fun e => (fst e, g (snd e))) (dict_set d k a) =
  dict_set (map (fun e => (fst e, g (snd e))) d) k (g a).
Proof.
  induction d as [|[k0 a0] d IH]; simpl; [reflexivity|].
  destruct (String.eqb k0 k); simpl; [reflexivity|]. now rewrite IH.
Qed.

Lemma descend_get_path (d : pyval) (names : list string) (v : pyval) :
  fst (descend d names) = Return v <-> get_path d names = Some v.
Proof.
  revert d. induction names as [|k names IH]; intros d; simpl.
  - split; intros H; now inversion H.
  - unfold getitem. destruct d; simpl; try (split; discriminate).
    destruct (dict_get entries k) as [d'|]; simpl; [|split; discriminate].
    specialize (IH d'). destruct (descend d' names) as [o n]. exact IH.
Qed.

Lemma descend_count (d : pyval) (names : list string) (v : pyval) :
  fst (descend d names) = Return v -> snd (descend d names) = length names.
Proof.
  revert d. induction names as [|k names IH]; intros d; simpl; [reflexivity|].
  destruct (getitem d k) as [d'|e]; simpl; [|discriminate].
  specialize (IH d'). destruct (descend d' names) as [o n]. simpl in *.
  intros H. now rewrite IH.
Qed.

(** The store succeeds where the walk can be made, puts the value at the
    path and keeps the walk possible. *)
Lemma store_path_ready (rest : list string) :
  forall d k v es,
    get_path d (removelast (k :: rest)) = Some (VDict es) ->
    exists d',
      store_path d k rest v = Return d'
      /\ get_path d' (k :: rest) = Some v
      /\ exists es', get_path d' (removelast (k :: rest)) = Some (VDict es').
Proof.
  induction rest as [|k' rest IH]; intros d k v es H.
  - simpl in H. injection H as ->. simpl.
    eexists. split; [reflexivity|]. simpl. rewrite dict_get_set_eq. eauto.
  - change (removelast (k :: k' :: rest)) with (k :: removelast (k' :: rest)) in *.
    simpl in H. destruct d; try discriminate.
    destruct (dict_get entries k) as [d1|] eqn:E1; [|discriminate].
    destruct (IH d1 k' v es H) as (d1' & Hs & Hg & es' & Hr).
    exists (VDict (dict_set entries k d1')).
    simpl store_path. unfold getitem. rewrite E1. simpl obind.
    rewrite Hs. simpl. rewrite dict_get_set_eq. eauto.
Qed.

Lemma update_shared_dict_ready (f : leaf_flag) (heap : list pyval) :
  path_ready (_shared_dict f) (_namespace f) heap ->
  exists w' heap',
    _update_shared_dict (f, heap) = (Return tt, (set__shared_dict w' f, heap'))
    /\ get_path (view w' heap') (_namespace f) = Some (_value f)
    /\ path_ready w' (_namespace f) heap'
    /\ length heap' = length heap
    /\ updates_shared f heap (set__shared_dict w' f) heap'.
Proof.
  intros [Hne [es Hes]]. unfold _update_shared_dict.
  destruct (_namespace f) as [|k [|k' rest]] eqn:Ens; [contradiction| |].
  - exists (dict_set (_shared_dict f) k (Held (_value f))), heap.
    split; [reflexivity|].
    split; [|split; [split; [discriminate|]|split; [reflexivity|]]].
    + simpl. unfold view. simpl.
      rewrite (dict_set_map (deref heap)), dict_get_set_eq. reflexivity.
    + simpl. eauto.
    + intros k0 below r Hns Hb. rewrite Ens in Hns. injection Hns as <- <-.
      contradiction.
  - change (removelast (k :: k' :: rest)) with (k :: removelast (k' :: rest)) in Hes.
    unfold view in Hes. simpl in Hes.
    rewrite (dict_get_map (deref heap)) in Hes.
    destruct (dict_get (_shared_dict f) k) as [[r|d]|] eqn:Ek; [| |discriminate].
    + simpl in Hes. destruct (heap !! r) as [d|] eqn:Er.
      * destruct (store_path_ready rest d k' (_value f) es Hes)
          as (d' & Hs & Hg & es' & Hr).
        rewrite Hs. exists (_shared_dict f), (<[r := d']> heap).
        assert (Hlt : r < length heap) by (eapply lookup_lt_Some; eauto).
        assert (Hd : deref (<[r := d']> heap) (Alias r) = d').
        { simpl. now rewrite list_lookup_insert_eq. }
        split; [destruct f; reflexivity|].
        split; [|split; [split; [discriminate|]|split; [apply length_insert|]]].
        -- unfold view. simpl get_path.
           rewrite (dict_get_map (deref (<[r := d']> heap))), Ek, Hd. exact Hg.
        -- change (removelast (k :: k' :: rest)) with (k :: removelast (k' :: rest)).
           unfold view. simpl get_path.
           rewrite (dict_get_map (deref (<[r := d']> heap))), Ek, Hd. eauto.
        -- intros k0 below r0 Hns Hb Hk0. rewrite Ens in Hns.
           injection Hns as <- <-. rewrite Ek in Hk0. injection Hk0 as <-.
           split; [reflexivity|]. exists d'. split; [reflexivity|].
           split; [now rewrite list_lookup_insert_eq|exact Hg].
      * destruct rest; simpl in Hes; discriminate.
    + simpl in Hes.
      destruct (store_path_ready rest d k' (_value f) es Hes)
        as (d' & Hs & Hg & es' & Hr).
      rewrite Hs. exists (dict_set (_shared_dict f) k (Held d')), heap.
      split; [reflexivity|].
      split; [|split; [split; [discriminate|]|split; [reflexivity|]]].
      * unfold view. simpl get_path.
        rewrite (dict_set_map (deref heap)), dict_get_set_eq. exact Hg.
      * change (removelast (k :: k' :: rest)) with (k :: removelast (k' :: rest)).
        unfold view. simpl get_path.
        rewrite (dict_set_map (deref heap)), dict_get_set_eq. eauto.
      * intros k0 below r0 Hns Hb Hk0. rewrite Ens in Hns.
        injection Hns as <- <-. rewrite Ek in Hk0. discriminate.
Qed.

Lemma value_setter_eq (v : pyval) (f : leaf_flag) (heap : list pyval) :
  value_setter v (f, heap) = _update_shared_dict (set__value v f, heap).
Proof. reflexivity. Qed.

Lemma parse_each_Flag__parse (f : leaf_flag) (items : list pyval) (vs : list pyval) :
  parse_each (Flag__parse f) items = Return vs <->
  parse_each (flag_parser f) items = Return vs.
Proof.
  revert vs. induction items as [|item items IH]; intros vs; simpl; [tauto|].
  unfold Flag__parse at 1.
  destruct (flag_parser f item) as [v|e]; simpl.
  - destruct (parse_each (Flag__parse f) items) as [vs1|e1];
      destruct (parse_each (flag_parser f) items) as [vs2|e2]; simpl.
    + assert (vs1 = vs2) as -> by (destruct (IH vs1) as [H _];
                                     specialize (H eq_refl); congruence).
      tauto.
    + destruct (IH vs1) as [H _]. specialize (H eq_refl). discriminate.
    + destruct (IH vs2) as [_ H]. specialize (H eq_refl). discriminate.
    + split; discriminate.
  - destruct (exn_type e); simpl; split; discriminate.
Qed.

Lemma Flag_parse_eq (lists : list_store) (argument : pyval) (f : leaf_flag)
    (heap : list pyval) :
  Flag_parse lists argument (f, heap) =
  match _parse lists f argument with
  | Return v =>
      match value_setter v (f, heap) with
      | (Return _, (f', heap')) =>
          (Return tt, (set_present (S (present f')) f', heap'))
      | (Raise e, s') => (Raise e, s')
      end
  | Raise e => (Raise e, (f, heap))
  end.
Proof.
  unfold Flag_parse, bind, self, lift_outcome. cbn [fst snd].
  destruct (_parse lists f argument); [|reflexivity].
  destruct (value_setter a (f, heap)) as [[u|e] [f' heap']]; reflexivity.
Qed.

Lemma MultiFlag_parse_eq (arguments : pyval) (f : leaf_flag) (heap : list pyval)
    (lists : list_store) :
  MultiFlag_parse arguments ((f, heap), lists) =
  match parse_each (Flag__parse f) (multi_arguments lists arguments) with
  | Return new_values =>
      if Nat.eqb (present f) 0
      then match value_setter (VList new_values) (f, heap) with
           | (Return _, (f', heap')) =>
               (Return tt,
                ((set_present (present f' + length new_values) f', heap'), lists))
           | (Raise e, s') => (Raise e, (s', lists))
           end
      else match _value f with
           | VList items =>
               (Return tt,
                ((set_present (present f + length new_values)
                    (set__value (VList (items ++ new_values)) f), heap), lists))
           | VRef l =>
               (Return tt,
                ((set_present (present f + length new_values) f, heap),
                 <[l := items_at lists l ++ new_values]> lists))
           | _ => (Raise no_extend, ((f, heap), lists))
           end
  | Raise e => (Raise e, ((f, heap), lists))
  end.
Proof.
  unfold MultiFlag_parse, bind, lift_outcome, keeping_lists, extend_value.
  cbn [fst snd].
  destruct (parse_each (Flag__parse f) (multi_arguments lists arguments));
    [|reflexivity].
  destruct (Nat.eqb (present f) 0).
  - change ((f, heap, lists).1) with (f, heap).
    destruct (value_setter (VList a) (f, heap)) as [[u|e] [f' heap']]; reflexivity.
  - change ((f, heap, lists).1.1) with f.
    destruct (_value f); reflexivity.
Qed.

Lemma parse_eq (argument : pyval) (f : leaf_flag) (heap : list pyval)
    (lists : list_store) :
  parse argument ((f, heap), lists) =
  match (match class_of f with
         | _ItemFlag => keeping_lists (Flag_parse lists argument)
         | _MultiFlag => MultiFlag_parse argument
         end) ((f, heap), lists) with
  | (Return _, (s', lists')) =>
      match _update_shared_dict s' with
      | (o, s'') => (o, (s'', lists'))
      end
  | (Raise e, s') => (Raise e, s')
  end.
Proof.
  unfold parse, bind. cbn [fst snd].
  destruct (class_of f).
  - change ((f, heap, lists).2) with lists.
    destruct (keeping_lists (Flag_parse lists argument) (f, heap, lists))
      as [[u|e] [s' lists']]; [|reflexivity].
    unfold keeping_lists. cbn [fst snd].
    destruct (_update_shared_dict s') as [o s'']; reflexivity.
  - destruct (MultiFlag_parse argument (f, heap, lists))
      as [[u|e] [s' lists']]; [|reflexivity].
    unfold keeping_lists. cbn [fst snd].
    destruct (_update_shared_dict s') as [o s'']; reflexivity.
Qed.

Lemma Flag_init_eq (lists : list_store) (cls : flag_class) (w : wrapper)
    (ns : list string) (p : parser) (s : serializer) (n : string) (d : pyval)
    (h : string) (heap : list pyval) :
  Flag__init__ lists cls w ns p s n d h heap =
  match parsed_default lists (new_object cls w ns p s n h) d with
  | Raise e => (Raise e, heap)
  | Return v =>
      match _get_parsed_value_as_string lists (new_object cls w ns p s n h) v with
      | Raise e => (Raise e, heap)
      | Return text =>
          match _update_shared_dict
                  (set__value v
                     (set_default_as_str text
                        (set_flag_default v
                           (set_default_unparsed d (new_object cls w ns p s n h)))),
                   heap) with
          | (Return _, (f, heap')) => (Return f, heap')
          | (Raise e, (_, heap')) => (Raise e, heap')
          end
      end
  end.
Proof.
  unfold Flag__init__, _set_default, bind, self, lift_outcome, update_self, modify.
  cbn [fst snd].
  change (parsed_default lists (set_default_unparsed d (new_object cls w ns p s n h)) d)
    with (parsed_default lists (new_object cls w ns p s n h) d).
  destruct (parsed_default lists (new_object cls w ns p s n h) d) as [v|e];
    [|reflexivity].
  cbn [fst snd flag_default set_flag_default].
  change (_get_parsed_value_as_string lists
            (set_flag_default v (set_default_unparsed d (new_object cls w ns p s n h))) v)
    with (_get_parsed_value_as_string lists (new_object cls w ns p s n h) v).
  destruct (_get_parsed_value_as_string lists (new_object cls w ns p s n h) v)
    as [text|e]; [|reflexivity].
  cbn [fst snd using_default_value set_default_as_str set_flag_default
       set_default_unparsed new_object flag_default].
  rewrite value_setter_eq. reflexivity.
Qed.

Lemma leaf_flag_init_eq (lists : list_store) (cls : flag_class) (w : wrapper)
    (ns : list string) (p : parser) (s : serializer) (n : string) (d : pyval)
    (h : string) (heap : list pyval) :
  leaf_flag__init__ lists cls w ns p s n d h heap =
  match Flag__init__ lists cls w ns p s n d h heap with
  | (Return f, heap') => (Return (with_class_help cls f), heap')
  | (Raise e, heap') => (Raise e, heap')
  end.
Proof.
  unfold leaf_flag__init__, MultiFlag__init__, bind, ret. destruct cls.
  - destruct (Flag__init__ lists _ItemFlag w ns p s n d h heap) as [[f|e] heap'];
      reflexivity.
  - destruct (Flag__init__ lists _MultiFlag w ns p s n d h heap) as [[f|e] heap'];
      reflexivity.
Qed.

Lemma updates_shared_trans (f f1 f1' f2 : leaf_flag) (heap heap1 heap2 : list pyval) :
  updates_shared f heap f1 heap1 ->
  _namespace f1' = _namespace f ->
  _shared_dict f1' = _shared_dict f1 ->
  updates_shared f1' heap1 f2 heap2 ->
  updates_shared f heap f2 heap2.
Proof.
  intros H1 Hns Hw H2 k below r Hk Hb Hr.
  destruct (H1 k below r Hk Hb Hr) as (Hw1 & d1 & -> & _ & _).
  destruct (H2 k below r) as (Hw2 & d2 & -> & Hd2 & Hg2); [congruence|exact Hb|congruence|].
  split; [congruence|]. exists d2. rewrite list_insert_insert_eq in *. auto.
Qed.

Lemma set__value_id (f : leaf_flag) v : _value f = v -> set__value v f = f.
Proof. intros <-. now destruct f. Qed.

(** The effect of [parse] when the walk can be made and the base class
    accepts the argument. *)
Lemma parse_ready (f : leaf_flag) (heap : list pyval) (lists lists' : list_store)
    (argument v v' : pyval) :
  path_ready (_shared_dict f) (_namespace f) heap ->
  _parse lists f argument = Return v ->
  value_after_parse lists f v = Some (v', lists') ->
  exists w' heap',
    parse argument ((f, heap), lists)
    = (Return tt,
       ((set__shared_dict w'
           (set_present (present_after_parse f v) (set__value v' f)), heap'),
        lists'))
    /\ get_path (view w' heap') (_namespace f) = Some v'
    /\ path_ready w' (_namespace f) heap'
    /\ length heap' = length heap
    /\ updates_shared f heap
         (set__shared_dict w'
            (set_present (present_after_parse f v) (set__value v' f))) heap'.
Proof.
  intros Hready Hparse Hval.
  rewrite parse_eq. unfold value_after_parse in Hval. unfold present_after_parse.
  destruct (class_of f) eqn:Ecls.
  - injection Hval as <- <-. unfold keeping_lists. cbn [fst snd].
    rewrite Flag_parse_eq, Hparse, value_setter_eq.
    destruct (update_shared_dict_ready (set__value v f) heap Hready)
      as (w1 & heap1 & H1 & _ & Hr1 & Hl1 & Hu1).
    rewrite H1.
    destruct (update_shared_dict_ready
                (set_present (S (present f)) (set__shared_dict w1 (set__value v f)))
                heap1 Hr1) as (w2 & heap2 & H2 & Hg2 & Hr2 & Hl2 & Hu2).
    cbn [present set__shared_dict set__value] in *. rewrite H2. exists w2, heap2.
    split; [reflexivity|]. split; [exact Hg2|]. split; [exact Hr2|].
    split; [congruence|].
    eapply updates_shared_trans; [exact Hu1| | |exact Hu2]; reflexivity.
  - unfold _parse in Hparse. rewrite Ecls in Hparse.
    unfold MultiFlag__parse in Hparse.
    destruct (parse_each (Flag__parse f) (multi_arguments lists argument))
      as [vs|e] eqn:Eeach; simpl in Hparse; [|discriminate].
    injection Hparse as <-.
    rewrite MultiFlag_parse_eq, Eeach.
    destruct (Nat.eqb (present f) 0) eqn:Ep.
    + injection Hval as <- <-. rewrite value_setter_eq.
      destruct (update_shared_dict_ready (set__value (VList vs) f) heap Hready)
        as (w1 & heap1 & H1 & _ & Hr1 & Hl1 & Hu1).
      rewrite H1.
      destruct (update_shared_dict_ready
                  (set_present (present f + length vs)
                     (set__shared_dict w1 (set__value (VList vs) f)))
                  heap1 Hr1) as (w2 & heap2 & H2 & Hg2 & Hr2 & Hl2 & Hu2).
      cbn [present set__shared_dict set__value] in *. rewrite H2. exists w2, heap2.
      split; [reflexivity|]. split; [exact Hg2|]. split; [exact Hr2|].
      split; [congruence|].
      eapply updates_shared_trans; [exact Hu1| | |exact Hu2]; reflexivity.
    + destruct (_value f) as [| | | | | |items| |l] eqn:Ev; try discriminate.
      * injection Hval as <- <-.
        destruct (update_shared_dict_ready
                    (set_present (present f + length vs)
                       (set__value (VList (items ++ vs)) f))
                    heap Hready) as (w2 & heap2 & H2 & Hg2 & Hr2 & Hl2 & Hu2).
        rewrite H2. exists w2, heap2.
        split; [reflexivity|]. split; [exact Hg2|]. split; [exact Hr2|].
        split; [congruence|]. exact Hu2.
      * injection Hval as <- <-.
        rewrite (set__value_id f (VRef l) Ev).
        destruct (update_shared_dict_ready
                    (set_present (present f + length vs) f)
                    heap Hready) as (w2 & heap2 & H2 & Hg2 & Hr2 & Hl2 & Hu2).
        rewrite H2. exists w2, heap2.
        cbn [_value _namespace set_present] in Hg2. rewrite Ev in Hg2.
        split; [reflexivity|]. split; [exact Hg2|]. split; [exact Hr2|].
        split; [congruence|]. exact Hu2.
Qed.

Lemma init_ready (lists : list_store) (cls : flag_class) (w : wrapper)
    (ns : list string) (p : parser) (s : serializer) (n : string) (d : pyval)
    (h : string) (heap : list pyval) (v : pyval) (text : option serialized) :
  path_ready w ns heap ->
  parsed_default lists (new_object cls w ns p s n h) d = Return v ->
  _get_parsed_value_as_string lists (new_object cls w ns p s n h) v = Return text ->
  exists w' heap',
    leaf_flag__init__ lists cls w ns p s n d h heap
    = (Return (set__shared_dict w' (constructed cls w ns p s n h d v text)), heap')
    /\ get_path (view w' heap') ns = Some v
    /\ path_ready w' ns heap'
    /\ length heap' = length heap
    /\ updates_shared (new_object cls w ns p s n h) heap
         (set__shared_dict w' (constructed cls w ns p s n h d v text)) heap'.
Proof.
  intros Hready Hd Ht.
  rewrite leaf_flag_init_eq, Flag_init_eq, Hd, Ht.
  destruct (update_shared_dict_ready
              (set__value v
                 (set_default_as_str text
                    (set_flag_default v
                       (set_default_unparsed d (new_object cls w ns p s n h)))))
              heap Hready) as (w1 & heap1 & H1 & Hg1 & Hr1 & Hl1 & Hu1).
  rewrite H1. exists w1, heap1.
  split; [destruct cls; reflexivity|].
  split; [exact Hg1|]. split; [exact Hr1|]. split; [exact Hl1|].
  intros k below r Hns Hb Hk.
  destruct (Hu1 k below r Hns Hb Hk) as (Hw1 & d' & Hh & Hd' & Hg').
  split; [destruct cls; exact Hw1|]. exists d'.
  split; [exact Hh|]. split; [exact Hd'|]. destruct cls; exact Hg'.
Qed.

Lemma init_raises (lists : list_store) (cls : flag_class) (w : wrapper)
    (ns : list string) (p : parser) (s : serializer) (n : string) (d : pyval)
    (h : string) (heap : list pyval) (e : exn) :
  parsed_default lists (new_object cls w ns p s n h) d = Raise e
  \/ (exists v, parsed_default lists (new_object cls w ns p s n h) d = Return v
                /\ _get_parsed_value_as_string lists (new_object cls w ns p s n h) v
                   = Raise e) ->
  leaf_flag__init__ lists cls w ns p s n d h heap = (Raise e, heap).
Proof.
  intros [Hd|(v & Hd & Ht)]; rewrite leaf_flag_init_eq, Flag_init_eq, Hd;
    [reflexivity|]. now rewrite Ht.
Qed.

Lemma updates_shared_seen (f f' : leaf_flag) (heap heap' : list pyval) :
  updates_shared f heap f' heap' -> seen_by_all f f' heap'.
Proof.
  intros H k below r Hns Hb Hk g k' Hg.
  destruct (H k below r Hns Hb Hk) as (_ & d' & _ & Hd' & Hp).
  unfold view. simpl get_path. rewrite (dict_get_map (deref heap')), Hg.
  simpl. now rewrite Hd'.
Qed.

(** C1.  Each of the three ways a leaf flag's value changes ends with the
    shared mapping holding that value at the flag's namespace, provided
    the segments before the last lead to a dict: the construction, which
    sets the value to the parsed default ([None] when there is none); a
    [parse] whose argument the base class accepts, after which the value
    is the one [flags.Flag.parse] or [flags.MultiFlag.parse] gives; and an
    assignment to [value].  In each case the call returns normally, the
    flag reads its value at its namespace, and when the flag closes over a
    dict object of the heap, as the flags of [define_flags] do, it is that
    object which has changed and holds the value, so that every flag
    closing over the same object reads it there. *)
Theorem value_changes_write_through :
  (forall lists cls w ns p s n d h heap v text,
      path_ready w ns heap ->
      parsed_default lists (new_object cls w ns p s n h) d = Return v ->
      _get_parsed_value_as_string lists (new_object cls w ns p s n h) v
      = Return text ->
      exists f heap',
        leaf_flag__init__ lists cls w ns p s n d h heap = (Return f, heap')
        /\ _value f = v /\ _namespace f = ns
        /\ written_through f heap'
        /\ updates_shared (new_object cls w ns p s n h) heap f heap'
        /\ seen_by_all (new_object cls w ns p s n h) f heap') /\
  (forall f heap lists argument v v' lists',
      path_ready (_shared_dict f) (_namespace f) heap ->
      _parse lists f argument = Return v ->
      value_after_parse lists f v = Some (v', lists') ->
      exists f' heap',
        parse argument ((f, heap), lists) = (Return tt, ((f', heap'), lists'))
        /\ _value f' = v' /\ _namespace f' = _namespace f
        /\ written_through f' heap'
        /\ updates_shared f heap f' heap'
        /\ seen_by_all f f' heap') /\
  (forall f heap value,
      path_ready (_shared_dict f) (_namespace f) heap ->
      exists f' heap',
        value_setter value (f, heap) = (Return tt, (f', heap'))
        /\ _value f' = value /\ _namespace f' = _namespace f
        /\ written_through f' heap'
        /\ updates_shared f heap f' heap'
        /\ seen_by_all f f' heap').
Proof.
  split; [|split].
  - intros lists cls w ns p s n d h heap v text Hready Hd Ht.
    destruct (init_ready lists cls w ns p s n d h heap v text Hready Hd Ht)
      as (w' & heap' & H & Hg & _ & _ & Hu).
    eexists _, heap'. split; [exact H|].
    split; [destruct cls; reflexivity|]. split; [destruct cls; reflexivity|].
    split; [unfold written_through; destruct cls; exact Hg|].
    split; [exact Hu|]. now apply (updates_shared_seen _ _ heap).
  - intros f heap lists argument v v' lists' Hready Hparse Hval.
    destruct (parse_ready f heap lists lists' argument v v' Hready Hparse Hval)
      as (w' & heap' & H & Hg & _ & _ & Hu).
    eexists _, heap'. split; [exact H|]. split; [reflexivity|].
    split; [reflexivity|]. split; [exact Hg|].
    split; [exact Hu|]. now apply (updates_shared_seen _ _ heap).
  - intros f heap value Hready. rewrite value_setter_eq.
    destruct (update_shared_dict_ready (set__value value f) heap Hready)
      as (w' & heap' & H & Hg & _ & _ & Hu).
    eexists _, heap'. split; [exact H|]. split; [reflexivity|].
    split; [reflexivity|]. split; [exact Hg|].
    assert (Hu' : updates_shared f heap (set__shared_dict w' (set__value value f)) heap').
    { intros k below r Hns Hb Hk. exact (Hu k below r Hns Hb Hk). }
    split; [exact Hu'|]. now apply (updates_shared_seen _ _ heap).
Qed.

Lemma value_changes_write_through_witness :
  exists f' heap',
    parse (VStr "10")
      ((set__value (VInt 7)
          (new_object _ItemFlag [("image_settings", Alias 0)]
             ["image_settings"; "sizes"; "height"] Samples.integer_parser
             ArgumentSerializer "image_settings.sizes.height" "Height."),
        [VDict [("mode", VStr "pad");
                ("sizes", VDict [("width", VInt 5); ("height", VInt 7)])]]),
       [])
    = (Return tt, ((f', heap'), []))
    /\ _value f' = VInt 10
    /\ heap' = [VDict [("mode", VStr "pad");
                       ("sizes", VDict [("width", VInt 5); ("height", VInt 10)])]]
    /\ get_path (view [("other_name", Alias 0)] heap')
         ["other_name"; "sizes"; "height"] = Some (VInt 10).
Proof.
  destruct value_changes_write_through as (_ & Hparse & _).
  destruct (Hparse
              (set__value (VInt 7)
                 (new_object _ItemFlag [("image_settings", Alias 0)]
                    ["image_settings"; "sizes"; "height"] Samples.integer_parser
                    ArgumentSerializer "image_settings.sizes.height" "Height."))
              [VDict [("mode", VStr "pad");
                      ("sizes", VDict [("width", VInt 5); ("height", VInt 7)])]]
              [] (VStr "10") (VInt 10) (VInt 10) [])
    as (f' & heap' & H & Hv & _ & _ & _ & Hseen).
  - split; [discriminate|]. eexists. reflexivity.
  - reflexivity.
  - reflexivity.
  - exists f', heap'. split; [exact H|]. split; [exact Hv|].
    split; [vm_compute in H; now injection H as _ <-|].
    rewrite <- Hv.
    apply (Hseen "image_settings" ["sizes"; "height"] 0 eq_refl
             ltac:(discriminate) eq_refl
             (new_object _ItemFlag [("other_name", Alias 0)] []
                Samples.string_parser ArgumentSerializer "x" "h")
             "other_name" eq_refl).
Defined.

(* ===================================================================== *)
(** ** A mapping that mirrors a definition *)
(* ===================================================================== *)

Lemma related_dict (R : flag_class -> descriptor -> pyval -> Prop)
    (entries : list (string * node)) (v : pyval) :
  related R (DictNode entries) v <->
  exists es, v = VDict es /\ related_entries R entries es.
Proof.
  simpl. destruct v; try (split; [tauto|intros (es & H & _); discriminate]).
  rename entries0 into es. split.
  - intros H. exists es. split; [reflexivity|].
    revert es H. induction entries as [|[k n'] entries IH]; intros [|[k' v'] es] H;
      try contradiction; constructor.
    + simpl. tauto.
    + apply IH. tauto.
  - intros (es' & Heq & H). injection Heq as <-.
    induction H as [|[k n'] [k' v'] entries es [Hk Hn] _ IH]; [exact I|].
    simpl in *. tauto.
Qed.

Lemma related_entries_get (R : flag_class -> descriptor -> pyval -> Prop)
    (entries : list (string * node)) (es : list (string * pyval)) (k : string) :
  related_entries R entries es ->
  match dict_get entries k with
  | Some n' => exists v', dict_get es k = Some v' /\ related R n' v'
  | None => dict_get es k = None
  end.
Proof.
  induction 1 as [|[k0 n0] [k1 v1] entries es [Hk Hn] _ IH]; simpl; [reflexivity|].
  simpl in Hk. subst k1. destruct (String.eqb k0 k); [eauto|exact IH].
Qed.

Lemma related_entries_keys (R : flag_class -> descriptor -> pyval -> Prop)
    (entries : list (string * node)) (es : list (string * pyval)) :
  related_entries R entries es -> keys es = keys entries.
Proof.
  unfold keys.
  induction 1 as [|[k0 n0] [k1 v1] entries es [Hk Hn] _ IH]; simpl; [reflexivity|].
  simpl in Hk. subst. f_equal. exact IH.
Qed.

Lemma related_entries_set (R : flag_class -> descriptor -> pyval -> Prop)
    (entries : list (string * node)) (es : list (string * pyval))
    (k : string) (n' : node) (v' : pyval) :
  related_entries R entries es ->
  dict_get entries k = Some n' ->
  related R n' v' ->
  related_entries R entries (dict_set es k v').
Proof.
  induction 1 as [|[k0 n0] [k1 v1] entries es [Hk Hn] Hrest IH]; simpl;
    [discriminate|].
  simpl in Hk. subst k1. intros Hget Hv.
  destruct (String.eqb k0 k) eqn:E.
  - injection Hget as ->. apply String.eqb_eq in E. subst.
    constructor; [split; [reflexivity|exact Hv]|exact Hrest].
  - constructor; [split; [reflexivity|exact Hn]|]. now apply IH.
Qed.

(** Reading the mapping along a path of the definition. *)
Lemma related_node_at (R : flag_class -> descriptor -> pyval -> Prop)
    (path : list string) :
  forall n v n',
    related R n v ->
    node_at n path = Some n' ->
    exists v', get_path v path = Some v' /\ related R n' v'.
Proof.
  induction path as [|k path IH]; intros n v n' Hrel Hat; simpl in *.
  - injection Hat as <-. eauto.
  - destruct n as [it|it|entries|tn]; try discriminate.
    apply related_dict in Hrel as (es & -> & Hes).
    pose proof (related_entries_get R _ _ k Hes) as Hk.
    destruct (dict_get entries k) as [n1|]; [|discriminate].
    destruct Hk as (v1 & -> & Hrel1). eauto.
Qed.

(** A leaf has nothing below it. *)
Lemma leaf_at_nil_below (n : node) (path : list string) x :
  (exists y, leaf_at n [] = Some y) -> leaf_at n path = Some x -> path = [].
Proof.
  intros [y Hy] H. destruct path as [|k path]; [reflexivity|].
  unfold leaf_at in *. simpl in *.
  destruct n; try discriminate.
Qed.

(** Storing at a leaf of the definition: the store succeeds, the mapping
    still mirrors the definition, the leaf holds the value stored and
    every other leaf holds what it held. *)
Lemma store_path_related (R : flag_class -> descriptor -> pyval -> Prop)
    (rest : list string) :
  forall n v k cls it value,
    related R n v ->
    leaf_at n (k :: rest) = Some (cls, it) ->
    R cls it value ->
    exists v',
      store_path v k rest value = Return v'
      /\ related R n v'
      /\ get_path v' (k :: rest) = Some value
      /\ forall q y, leaf_at n q = Some y -> q <> k :: rest ->
                     get_path v' q = get_path v q.
Proof.
  induction rest as [|k' rest IH]; intros n v k cls it value Hrel Hleaf HR.
  - unfold leaf_at in Hleaf. simpl in Hleaf.
    destruct n as [| |entries|]; try discriminate.
    apply related_dict in Hrel as (es & -> & Hes).
    destruct (dict_get entries k) as [n1|] eqn:Ek; [|discriminate].
    exists (VDict (dict_set es k value)).
    split; [reflexivity|]. split; [|split].
    + apply related_dict. eexists. split; [reflexivity|].
      eapply related_entries_set; eauto.
      destruct n1; try discriminate; injection Hleaf as <- <-; exact HR.
    + simpl. now rewrite dict_get_set_eq.
    + intros q y Hq Hne. destruct q as [|k2 q]; [discriminate|].
      simpl. destruct (String.eqb k k2) eqn:E.
      * apply String.eqb_eq in E. subst k2.
        assert (q = []) as ->.
        { apply (leaf_at_nil_below n1 q y).
          - unfold leaf_at. simpl. destruct n1; try discriminate; eauto.
          - unfold leaf_at in *. simpl in Hq. now rewrite Ek in Hq. }
        contradiction.
      * apply String.eqb_neq in E. now rewrite dict_get_set_ne.
  - unfold leaf_at in Hleaf. simpl in Hleaf.
    destruct n as [| |entries|]; try discriminate.
    apply related_dict in Hrel as (es & -> & Hes).
    pose proof (related_entries_get R _ _ k Hes) as Hk.
    destruct (dict_get entries k) as [n1|] eqn:Ek; [|discriminate].
    destruct Hk as (v1 & Hv1 & Hrel1).
    destruct (IH n1 v1 k' cls it value Hrel1) as (v1' & Hs & Hrel1' & Hg & Hframe);
      [exact Hleaf|exact HR|].
    exists (VDict (dict_set es k v1')).
    simpl store_path. unfold getitem. rewrite Hv1. simpl obind. rewrite Hs. simpl obind.
    split; [reflexivity|]. split; [|split].
    + apply related_dict. eexists. split; [reflexivity|].
      eapply related_entries_set; eauto.
    + simpl. rewrite dict_get_set_eq. exact Hg.
    + intros q y Hq Hne. destruct q as [|k2 q]; [discriminate|].
      simpl. destruct (String.eqb k k2) eqn:E.
      * apply String.eqb_eq in E. subst k2.
        rewrite dict_get_set_eq, Hv1. apply (Hframe q y).
        -- unfold leaf_at in *. simpl in Hq. now rewrite Ek in Hq.
        -- congruence.
      * apply String.eqb_neq in E. now rewrite dict_get_set_ne.
Qed.

Lemma distinct_cons (k : string) (l : list string) :
  distinct (k :: l) = true <-> ~ In k l /\ distinct l = true.
Proof.
  simpl. rewrite andb_true_iff, negb_true_iff, existsb_eqb_false. tauto.
Qed.

Lemma extract_loop_related (items : list (string * node)) :
  Forall (fun e => forall v, extract_value (snd e) = Return v ->
                             related holds_default (snd e) v) items ->
  distinct (keys items) = true ->
  forall result res,
    (forall k, In k (keys items) -> ~ In k (keys result)) ->
    extract_loop items result = Return res ->
    exists es, res = result ++ es /\ related_entries holds_default items es.
Proof.
  induction items as [|[k n] items IH]; intros HF Hd result res Hfresh H.
  - simpl in H. injection H as <-. exists []. split; [now rewrite app_nil_r|constructor].
  - simpl in H. apply obind_Return in H as (x & Hx & H).
    inversion HF as [|? ? Hn HFs]; subst.
    change (keys ((k, n) :: items)) with (k :: keys items) in *.
    apply distinct_cons in Hd as [Hk Hd].
    rewrite dict_set_fresh in H by (apply Hfresh; now left).
    destruct (IH HFs Hd (result ++ [(k, x)]) res) as (es & -> & Hes).
    + intros k' Hin. unfold keys. rewrite map_app, in_app_iff. simpl.
      intros [Hr|[->|[]]]; [|contradiction].
      apply (Hfresh k'); [now right|exact Hr].
    + exact H.
    + exists ((k, x) :: es). split; [now rewrite <- app_assoc|].
      constructor; [|exact Hes]. split; [reflexivity|]. simpl. now apply Hn.
Qed.

(** What [_extract_defaults] returns mirrors the definition, with every
    descriptor's default at its leaf. *)
Lemma extract_value_related (n : node) :
  unique_keys n = true ->
  forall v, extract_value n = Return v -> related holds_default n v.
Proof.
  induction n as [it|it|entries IH|type_name] using node_induction;
    intros Hu v H.
  - simpl in *. now injection H as <-.
  - simpl in *. now injection H as <-.
  - rewrite extract_value_dict in H. apply obind_Return in H as (res & Hres & H).
    injection H as <-. simpl in Hu. apply andb_true_iff in Hu as [Hd Hall].
    apply related_dict. exists res. split; [reflexivity|].
    destruct (extract_loop_related entries) with (result := @nil (string * pyval)) (res := res)
      as (es & -> & Hes); auto.
    rewrite forallb_forall in Hall. rewrite List.Forall_forall in *.
    intros e He v Hv. apply IH; auto.
  - discriminate.
Qed.

Lemma related_weaken (R R' : flag_class -> descriptor -> pyval -> Prop) :
  (forall cls it v, R cls it v -> R' cls it v) ->
  forall n v, related R n v -> related R' n v.
Proof.
  intros HRR'. induction n as [it|it|entries IH|type_name] using node_induction;
    intros v H; simpl in *; auto.
  apply related_dict. apply (related_dict R) in H as (es & -> & Hes).
  exists es. split; [reflexivity|].
  revert IH. induction Hes as [|e x entries es [Hk He] Hes IHes]; intros IH; constructor.
  - inversion IH; subst. split; auto.
  - inversion IH; subst. apply IHes. assumption.
Qed.


(* ===================================================================== *)
(** ** Flags attached to a shared mapping *)
(* ===================================================================== *)

Lemma evolves_refl tree p v : related any_value tree v -> evolves tree p v v.
Proof. intros H. split; auto. Qed.

Lemma evolves_trans tree p v1 v2 v3 :
  evolves tree p v1 v2 -> evolves tree p v2 v3 -> evolves tree p v1 v3.
Proof.
  intros [_ H12] [H3 H23]. split; [exact H3|].
  intros q y Hq Hne. rewrite (H23 q y Hq Hne). now apply (H12 q y).
Qed.

Lemma update_attached (name : string) (r : ref) (m : list (string * node))
    (p : list string) c (f : leaf_flag) (heap : list pyval) (v : pyval) :
  leaf_at (DictNode m) p = Some c ->
  attached name r p f ->
  heap !! r = Some v ->
  related any_value (DictNode m) v ->
  exists v',
    _update_shared_dict (f, heap) = (Return tt, (f, <[r := v']> heap))
    /\ evolves (DictNode m) p v v'
    /\ get_path v' p = Some (_value f).
Proof.
  intros Hleaf [Hns Hw] Hr Hrel.
  destruct p as [|k rest]; [discriminate|].
  destruct c as [cls it].
  destruct (store_path_related any_value rest (DictNode m) v k cls it (_value f)
              Hrel Hleaf I) as (v' & Hs & Hrel' & Hg & Hframe).
  exists v'. unfold _update_shared_dict. rewrite Hns, Hw. simpl dict_get.
  rewrite String.eqb_refl, Hr, Hs. split; [reflexivity|].
  split; [split; assumption|exact Hg].
Qed.

Lemma setter_attached (name : string) (r : ref) (m : list (string * node))
    (p : list string) c (f : leaf_flag) (heap : list pyval) (v value : pyval) :
  leaf_at (DictNode m) p = Some c ->
  attached name r p f ->
  heap !! r = Some v ->
  related any_value (DictNode m) v ->
  exists v',
    value_setter value (f, heap)
    = (Return tt, (set__value value f, <[r := v']> heap))
    /\ evolves (DictNode m) p v v'
    /\ get_path v' p = Some value.
Proof.
  intros Hleaf Hatt Hr Hrel. rewrite value_setter_eq.
  destruct (update_attached name r m p c (set__value value f) heap v)
    as (v' & H & He & Hg); auto.
  exists v'. split; [exact H|]. split; [exact He|exact Hg].
Qed.

(** What [parse] does to a flag attached to a leaf of the definition:
    nothing when the argument is refused, and otherwise the new value is
    stored at the leaf, the rest of the mapping being as before. *)
Lemma parse_attached (name : string) (r : ref) (m : list (string * node))
    (p : list string) c (f : leaf_flag) (heap : list pyval) (lists : list_store)
    (v argument : pyval) :
  leaf_at (DictNode m) p = Some c ->
  attached name r p f ->
  heap !! r = Some v ->
  related any_value (DictNode m) v ->
  match _parse lists f argument with
  | Raise e => parse argument ((f, heap), lists) = (Raise e, ((f, heap), lists))
  | Return x =>
      match value_after_parse lists f x with
      | None =>
          parse argument ((f, heap), lists) = (Raise no_extend, ((f, heap), lists))
      | Some (y, lists') =>
          exists v',
            parse argument ((f, heap), lists)
            = (Return tt,
               ((set_present (present_after_parse f x) (set__value y f),
                 <[r := v']> heap), lists'))
            /\ evolves (DictNode m) p v v'
            /\ get_path v' p = Some y
      end
  end.
Proof.
  intros Hleaf Hatt Hr Hrel.
  assert (Hlt : r < length heap) by (eapply lookup_lt_Some; eauto).
  rewrite parse_eq. unfold _parse, value_after_parse, present_after_parse.
  destruct (class_of f) eqn:Ecls.
  - unfold keeping_lists. cbn [fst snd].
    rewrite Flag_parse_eq. unfold _parse. rewrite Ecls.
    destruct (Flag__parse f argument) as [a|e]; [|reflexivity].
    destruct (setter_attached name r m p c f heap v a) as (v1 & H1 & He1 & Hg1); auto.
    rewrite H1.
    destruct (update_attached name r m p c
                (set_present (S (present (set__value a f))) (set__value a f))
                (<[r := v1]> heap) v1) as (v2 & H2 & He2 & Hg2); auto.
    { now rewrite list_lookup_insert_eq. }
    { apply He1. }
    rewrite H2, list_insert_insert_eq. exists v2.
    split; [reflexivity|]. split; [eapply evolves_trans; eauto|exact Hg2].
  - rewrite MultiFlag_parse_eq. unfold MultiFlag__parse.
    destruct (parse_each (Flag__parse f) (multi_arguments lists argument)) as [vs|e];
      simpl obind; [|reflexivity].
    destruct (Nat.eqb (present f) 0) eqn:Ep.
    + destruct (setter_attached name r m p c f heap v (VList vs))
        as (v1 & H1 & He1 & Hg1); auto.
      rewrite H1.
      destruct (update_attached name r m p c
                  (set_present (present (set__value (VList vs) f) + length vs)
                     (set__value (VList vs) f))
                  (<[r := v1]> heap) v1) as (v2 & H2 & He2 & Hg2); auto.
      { now rewrite list_lookup_insert_eq. }
      { apply He1. }
      rewrite H2, list_insert_insert_eq. exists v2.
      split; [reflexivity|]. split; [eapply evolves_trans; eauto|exact Hg2].
    + destruct (_value f) as [| | | | | |items| |l] eqn:Ev; try reflexivity.
      * destruct (update_attached name r m p c
                    (set_present (present f + length vs)
                       (set__value (VList (items ++ vs)) f))
                    heap v) as (v2 & H2 & He2 & Hg2); auto.
        rewrite H2. exists v2. split; [reflexivity|]. split; assumption.
      * rewrite (set__value_id f (VRef l) Ev).
        destruct (update_attached name r m p c
                    (set_present (present f + length vs) f)
                    heap v) as (v2 & H2 & He2 & Hg2); auto.
        rewrite H2. exists v2. split; [reflexivity|]. split; [assumption|].
        cbn [_value set_present] in Hg2. now rewrite Ev in Hg2.
Qed.

(* ===================================================================== *)
(** ** Flags of other definitions *)
(* ===================================================================== *)

Lemma preserves_ret {S A : Type} (P : S -> Prop) (a : A) : preserves P (ret a).
Proof. intros s o s' HP H. injection H as _ <-. exact HP. Qed.

Lemma preserves_raise {S A : Type} (P : S -> Prop) (e : exn) :
  preserves P (@raise S A e).
Proof. intros s o s' HP H. injection H as _ <-. exact HP. Qed.

Lemma preserves_lift_outcome {S A : Type} (P : S -> Prop) (x : outcome A) :
  preserves P (@lift_outcome S A x).
Proof. intros s o s' HP H. injection H as _ <-. exact HP. Qed.

Lemma preserves_bind {S A B : Type} (P : S -> Prop) (m : M S A) (k : A -> M S B) :
  preserves P m -> (forall a, preserves P (k a)) -> preserves P (bind m k).
Proof.
  intros Hm Hk s o s' HP H. unfold bind in H.
  destruct (m s) as [[a|e] s1] eqn:E.
  - eapply Hk; [|exact H]. eapply Hm; eauto.
  - injection H as _ <-. eapply Hm; eauto.
Qed.

Lemma preserves_self (P : leaf_flag * list pyval -> Prop) : preserves P self.
Proof. intros s o s' HP H. injection H as _ <-. exact HP. Qed.

Lemma preserves_update_self (P : leaf_flag * list pyval -> Prop)
    (g : leaf_flag -> leaf_flag) :
  (forall f heap, P (f, heap) -> P (g f, heap)) -> preserves P (update_self g).
Proof.
  intros Hg [f heap] o s' HP H. injection H as _ <-. now apply Hg.
Qed.

Lemma aliases_set_held (r : ref) (w : wrapper) (k : string) (d : pyval) :
  existsb (fun e => match snd e with
                    | Alias r' => Nat.eqb r' r
                    | Held _ => false
                    end) w = false ->
  existsb (fun e => match snd e with
                    | Alias r' => Nat.eqb r' r
                    | Held _ => false
                    end) (dict_set w k (Held d)) = false.
Proof.
  induction w as [|[k0 s0] w IH]; simpl; [reflexivity|].
  intros H. apply orb_false_iff in H as [H0 Hw].
  destruct (String.eqb k0 k); simpl; [exact Hw|].
  rewrite H0. simpl. now apply IH.
Qed.

Lemma aliases_get (r r' : ref) (w : wrapper) (k : string) :
  existsb (fun e => match snd e with
                    | Alias r' => Nat.eqb r' r
                    | Held _ => false
                    end) w = false ->
  dict_get w k = Some (Alias r') -> r' <> r.
Proof.
  induction w as [|[k0 s0] w IH]; simpl; [discriminate|].
  intros H. apply orb_false_iff in H as [H0 Hw].
  destruct (String.eqb k0 k).
  - intros Hs. injection Hs as ->. now apply Nat.eqb_neq.
  - now apply IH.
Qed.

Lemma update_detached (r : ref) (x : option pyval) :
  preserves (detached r x) _update_shared_dict.
Proof.
  intros [f heap] o [f' heap'] [Hx Hal] H. unfold detached in *. simpl in *.
  unfold aliases in *. unfold _update_shared_dict in H.
  destruct (_namespace f) as [|k [|k' rest]].
  - injection H as _ <- <-. auto.
  - injection H as _ <- <-. split; [exact Hx|]. simpl. now apply aliases_set_held.
  - destruct (dict_get (_shared_dict f) k) as [[r'|d]|] eqn:Ek.
    + pose proof (aliases_get r r' _ k Hal Ek) as Hne.
      destruct (heap !! r') as [d|].
      * destruct (store_path d k' rest (_value f)).
        -- injection H as _ <- <-. split; [|exact Hal].
           now rewrite list_lookup_insert_ne.
        -- injection H as _ <- <-. auto.
      * injection H as _ <- <-. auto.
    + destruct (store_path d k' rest (_value f)).
      * injection H as _ <- <-. split; [exact Hx|]. simpl. now apply aliases_set_held.
      * injection H as _ <- <-. auto.
    + injection H as _ <- <-. auto.
Qed.

Lemma setter_detached (r : ref) (x : option pyval) (value : pyval) :
  preserves (detached r x) (value_setter value).
Proof.
  unfold value_setter. apply preserves_bind.
  - apply preserves_update_self. intros f heap H. exact H.
  - intros _. apply update_detached.
Qed.

Lemma preserves_keeping_lists {A : Type} (P : leaf_flag * list pyval -> Prop)
    (m : method A) :
  preserves P m -> preserves (fun s => P (fst s)) (keeping_lists m).
Proof.
  intros Hm [s lists] o [s' lists'] HP H. unfold keeping_lists in H.
  cbn [fst snd] in *. destruct (m s) as [o1 s1] eqn:E.
  injection H as _ <- _. eapply Hm; eauto.
Qed.

Lemma Flag_parse_detached (r : ref) (x : option pyval) (lists : list_store)
    (argument : pyval) :
  preserves (detached r x) (Flag_parse lists argument).
Proof.
  unfold Flag_parse.
  apply preserves_bind; [apply preserves_self|]. intros f1.
  apply preserves_bind; [apply preserves_lift_outcome|]. intros v.
  apply preserves_bind; [apply setter_detached|]. intros _.
  apply preserves_update_self. intros f2 heap H. exact H.
Qed.

Lemma MultiFlag_parse_detached (r : ref) (x : option pyval) (arguments : pyval) :
  preserves (list_detached r x) (MultiFlag_parse arguments).
Proof.
  intros [[f heap] lists] o [[f' heap'] lists'] HP H.
  unfold list_detached in *. cbn [fst snd] in *.
  rewrite MultiFlag_parse_eq in H.
  destruct (parse_each (Flag__parse f) (multi_arguments lists arguments)) as [vs|e];
    [|injection H; intros; subst; exact HP].
  destruct (Nat.eqb (present f) 0).
  - destruct (value_setter (VList vs) (f, heap)) as [[u|e] [f1 heap1]] eqn:Es.
    + apply (setter_detached r x (VList vs) _ _ _ HP) in Es.
      injection H; intros; subst. exact Es.
    + apply (setter_detached r x (VList vs) _ _ _ HP) in Es.
      injection H; intros; subst. exact Es.
  - destruct (_value f); injection H; intros; subst; exact HP.
Qed.

Lemma parse_detached (r : ref) (x : option pyval) (argument : pyval) :
  preserves (list_detached r x) (parse argument).
Proof.
  intros [[f heap] lists] o [[f' heap'] lists'] HP H.
  rewrite parse_eq in H.
  assert (Hfirst : forall o1 s1 l1,
             (match class_of f with
              | _ItemFlag => keeping_lists (Flag_parse lists argument)
              | _MultiFlag => MultiFlag_parse argument
              end) (f, heap, lists) = (o1, (s1, l1)) ->
             detached r x s1).
  { intros o1 s1 l1 E. destruct (class_of f).
    - apply (preserves_keeping_lists _ _ (Flag_parse_detached r x lists argument)
               _ _ _ HP) in E. exact E.
    - apply (MultiFlag_parse_detached r x argument _ _ _ HP) in E. exact E. }
  destruct ((match class_of f with
             | _ItemFlag => keeping_lists (Flag_parse lists argument)
             | _MultiFlag => MultiFlag_parse argument
             end) (f, heap, lists)) as [[u|e] [s1 l1]] eqn:E.
  - specialize (Hfirst _ _ _ eq_refl).
    destruct (_update_shared_dict s1) as [o2 s2] eqn:Eu.
    apply (update_detached r x _ _ _ Hfirst) in Eu.
    injection H; intros; subst. exact Eu.
  - specialize (Hfirst _ _ _ eq_refl). injection H; intros; subst. exact Hfirst.
Qed.

(* ===================================================================== *)
(** ** The invariant of a definition *)
(* ===================================================================== *)

Lemma attached_aliases name r p f : attached name r p f -> aliases r f = true.
Proof.
  intros [_ Hw]. unfold aliases. rewrite Hw. simpl. now rewrite Nat.eqb_refl.
Qed.

Lemma on_leaf_invariant {A : Type} (name : string) (m : list (string * node))
    (r : ref) done (w : World) (n : string) (f : leaf_flag) (mth : list_method A) :
  leaves_of m done ->
  invariant name m r done w ->
  registry w !! n = Some (Leaf f) ->
  (forall p c v f' heap' lists' o,
      leaf_at (DictNode m) p = Some c -> attached name r p f ->
      heap w !! r = Some v -> related any_value (DictNode m) v ->
      get_path v p = Some (_value f) ->
      mth ((f, heap w), lists w) = (o, ((f', heap'), lists')) ->
      attached_step name r (DictNode m) p f (heap w) v f' heap') ->
  (forall x, preserves (list_detached r x) mth) ->
  invariant name m r done (snd (on_leaf n f mth w)).
Proof.
  intros Hdone [(v & Hv & Hrel & Hflags) Hown] Hn HA HB.
  unfold on_leaf.
  destruct (mth ((f, heap w), lists w)) as [o [[f' heap'] lists']] eqn:Em. simpl.
  destruct (aliases r f) eqn:Eal.
  - destruct (Hown n f Hn Eal) as (p & c & Hin & ->).
    destruct (Hflags p c Hin) as (f0 & Hf0 & (Hatt & Hcls & Hpar) & Hg).
    rewrite Hn in Hf0. injection Hf0 as <-.
    destruct (HA p c v f' heap' lists' o (Hdone p c Hin) Hatt Hv Hrel Hg eq_refl)
      as (v' & -> & [Hrel' Hframe] & Hg' & Hatt' & Hcls' & Hpar').
    assert (Hlt : r < length (heap w)) by (eapply lookup_lt_Some; eauto).
    split; simpl.
    + exists v'. split; [now rewrite list_lookup_insert_eq|]. split; [exact Hrel'|].
      intros p0 c0 Hin0.
      destruct (Hflags p0 c0 Hin0) as (f0 & Hf0 & (Hatt0 & Hcls0 & Hpar0) & Hg0).
      destruct (String.eqb (dotted (name :: p)) (dotted (name :: p0))) eqn:E.
      * apply String.eqb_eq in E. rewrite <- E in Hf0 |- *.
        rewrite Hn in Hf0. injection Hf0 as <-.
        assert (p0 = p) as -> by (destruct Hatt as [H1 _], Hatt0 as [H2 _]; congruence).
        exists f'. rewrite lookup_insert_eq. split; [reflexivity|].
        split; [|exact Hg'].
        split; [exact Hatt'|]. split; congruence.
      * apply String.eqb_neq in E. exists f0.
        rewrite lookup_insert_ne by exact E. split; [exact Hf0|].
        split; [split; [exact Hatt0|split; assumption]|].
        rewrite (Hframe p0 c0); [exact Hg0|now apply Hdone|congruence].
    + intros n' f'' Hn' Hal'.
      destruct (String.eqb (dotted (name :: p)) n') eqn:E.
      * apply String.eqb_eq in E. subst n'. eauto.
      * apply String.eqb_neq in E. rewrite lookup_insert_ne in Hn' by exact E.
        eapply Hown; eauto.
  - destruct (HB (Some v) ((f, heap w), lists w) o ((f', heap'), lists'))
      as [Hv' Hal']; [split; auto|exact Em|].
    simpl in Hv', Hal'.
    split; simpl.
    + exists v. split; [exact Hv'|]. split; [exact Hrel|].
      intros p0 c0 Hin0.
      destruct (Hflags p0 c0 Hin0) as (f0 & Hf0 & Hleaf0 & Hg0).
      exists f0. split; [|split; assumption].
      rewrite lookup_insert_ne; [exact Hf0|].
      intros Heq. rewrite <- Heq, Hn in Hf0. injection Hf0 as <-.
      destruct Hleaf0 as [Hatt0 _]. apply attached_aliases in Hatt0. congruence.
    + intros n' f'' Hn' Hal''.
      destruct (String.eqb n n') eqn:E.
      * apply String.eqb_eq in E. subst n'. rewrite lookup_insert_eq in Hn'.
        injection Hn' as <-. congruence.
      * apply String.eqb_neq in E. rewrite lookup_insert_ne in Hn' by exact E.
        eapply Hown; eauto.
Qed.

Lemma insert_same_heap (heap : list pyval) (r : ref) (v : pyval) :
  heap !! r = Some v -> heap = <[r := v]> heap.
Proof. intros H. symmetry. now apply list_insert_id. Qed.

Lemma parse_attached_step (name : string) (r : ref) (m : list (string * node))
    (p : list string) c (f : leaf_flag) (heap : list pyval) (lists : list_store)
    (v argument : pyval) o f' heap' lists' :
  leaf_at (DictNode m) p = Some c ->
  attached name r p f ->
  heap !! r = Some v ->
  related any_value (DictNode m) v ->
  get_path v p = Some (_value f) ->
  parse argument ((f, heap), lists) = (o, ((f', heap'), lists')) ->
  attached_step name r (DictNode m) p f heap v f' heap'.
Proof.
  intros Hleaf Hatt Hr Hrel Hg H.
  pose proof (parse_attached name r m p c f heap lists v argument
                Hleaf Hatt Hr Hrel) as Hp.
  assert (Hsame : attached_step name r (DictNode m) p f heap v f heap).
  { exists v. split; [now apply insert_same_heap|].
    split; [now apply evolves_refl|]. repeat split; auto; apply Hatt. }
  destruct (_parse lists f argument) as [x|e].
  - destruct (value_after_parse lists f x) as [[y lists1]|].
    + destruct Hp as (v' & Hp & Hev & Hg'). rewrite Hp in H.
      injection H as _ <- <- _. exists v'. split; [reflexivity|].
      split; [exact Hev|]. split; [exact Hg'|]. repeat split; apply Hatt.
    + rewrite Hp in H. injection H as _ <- <- _. exact Hsame.
  - rewrite Hp in H. injection H as _ <- <- _. exact Hsame.
Qed.

(** Replacing or adding a flag that is not a leaf flag, under a name no
    leaf of the definition has, keeps the invariant. *)
Lemma aggregate_insert_invariant (name : string) (m : list (string * node))
    (r : ref) done (w : World) (n : string) (d d' : dict_flag) :
  invariant name m r done w ->
  registry w !! n = Some (Aggregate d) ->
  invariant name m r done
    (set_registry (<[n := Aggregate d']> (registry w)) w).
Proof.
  intros [(v & Hv & Hrel & Hflags) Hown] En. split; simpl.
  - exists v. split; [exact Hv|]. split; [exact Hrel|].
    intros p c Hin. destruct (Hflags p c Hin) as (f0 & Hf0 & H0).
    exists f0. split; [|exact H0].
    rewrite lookup_insert_ne; [exact Hf0|]. intros Heq.
    rewrite <- Heq, En in Hf0. discriminate.
  - intros n' f' Hn' Hal. destruct (String.eqb n n') eqn:E.
    + apply String.eqb_eq in E. subst n'. rewrite lookup_insert_eq in Hn'.
      discriminate.
    + apply String.eqb_neq in E. rewrite lookup_insert_ne in Hn' by exact E.
      eapply Hown; eauto.
Qed.

Lemma step_invariant (name : string) (m : list (string * node)) (r : ref)
    done (e : event) (w : World) :
  leaves_of m done ->
  invariant name m r done w ->
  invariant name m r done (snd (step e w)).
Proof.
  intros Hdone Hinv. destruct e as [n value|n value|items|]; simpl.
  - unfold override. destruct (registry w !! n) as [[f|d]|] eqn:En; [| |exact Hinv].
    + apply on_leaf_invariant; auto.
      * intros p c v f' heap' lists' o Hleaf Hatt Hr Hrel Hg H. unfold bind in H.
        destruct (parse (VStr value) ((f, heap w), lists w))
          as [[u|e] [[f1 heap1] lists1]] eqn:Ep.
        -- unfold keeping_lists, update_self, modify in H. cbn [fst snd] in H.
           injection H as _ <- <- _.
           destruct (parse_attached_step name r m p c f (heap w) (lists w) v
                       (VStr value) _ _ _ _ Hleaf Hatt Hr Hrel Hg Ep)
             as (v' & -> & Hev & Hg' & Hatt' & Hcls' & Hpar').
           exists v'. repeat split; auto; apply Hatt' || apply Hev.
        -- injection H as _ <- <- _.
           eapply parse_attached_step; eauto.
      * intros x. apply preserves_bind; [apply parse_detached|].
        intros _. apply (preserves_keeping_lists (detached r x)).
        apply preserves_update_self. intros f2 heap H. exact H.
    + destruct (_DictFlag_parse d (Value (VStr value))) as [d'|e]; [|exact Hinv].
      simpl. eapply aggregate_insert_invariant; eauto.
  - unfold assign. destruct (registry w !! n) as [[f|d]|] eqn:En;
      [| |exact Hinv].
    + apply on_leaf_invariant; auto.
      * intros p c v f' heap' lists' o Hleaf Hatt Hr Hrel Hg H.
        destruct (setter_attached name r m p c f (heap w) v value Hleaf Hatt Hr Hrel)
          as (v' & Hs & Hev & Hg').
        unfold keeping_lists in H. cbn [fst snd] in H.
        rewrite Hs in H. injection H as _ <- <- _.
        exists v'. repeat split; auto; apply Hatt || apply Hev.
      * intros x. apply (preserves_keeping_lists (detached r x)).
        apply setter_detached.
    + simpl. eapply aggregate_insert_invariant; eauto.
  - destruct Hinv as [Hs Ho]. split; simpl; assumption.
  - destruct Hinv as [Hs Ho]. split; simpl; assumption.
Qed.

Lemma run_invariant (name : string) (m : list (string * node)) (r : ref)
    done (events : list event) :
  leaves_of m done ->
  forall w, invariant name m r done w -> invariant name m r done (run events w).
Proof.
  intros Hdone. induction events as [|e events IH]; intros w Hinv; simpl.
  - exact Hinv.
  - apply IH. now apply step_invariant.
Qed.

(* ===================================================================== *)
(** ** The traversal as a list of leaf definitions *)
(* ===================================================================== *)

Lemma bind_ret_tt {S : Type} (m : M S unit) (s : S) :
  bind m (fun _ => ret tt) s = m s.
Proof. unfold bind, ret. destruct (m s) as [[[]|e] s']; reflexivity. Qed.

Lemma bind_assoc {S A B C : Type} (m : M S A) (k : A -> M S B) (h : B -> M S C) s :
  bind (bind m k) h s = bind m (fun a => bind (k a) h) s.
Proof. unfold bind. destruct (m s) as [[a|e] s']; reflexivity. Qed.

Lemma bind_ext {S A B : Type} (m m' : M S A) (k k' : A -> M S B) s :
  m s = m' s -> (forall a s', k a s' = k' a s') -> bind m k s = bind m' k' s.
Proof.
  intros Hm Hk. unfold bind. rewrite Hm. destruct (m' s) as [[a|e] s']; auto.
Qed.

Lemma define_list_app name r ls1 ls2 w :
  define_list name r (ls1 ++ ls2) w =
  bind (define_list name r ls1) (fun _ => define_list name r ls2) w.
Proof.
  revert w. induction ls1 as [|[p [cls it]] ls1 IH]; intros w; simpl.
  - reflexivity.
  - rewrite bind_assoc. apply bind_ext; [reflexivity|]. intros _ s'. apply IH.
Qed.

Lemma under_app prefix ls1 ls2 :
  under prefix (ls1 ++ ls2) = under prefix ls1 ++ under prefix ls2.
Proof. apply map_app. Qed.

Lemma under_under prefix k ls :
  under prefix (map (fun l => (k :: fst l, snd l)) ls) = under (prefix ++ [k]) ls.
Proof.
  unfold under. rewrite map_map. apply map_ext. intros [q c]. simpl.
  now rewrite <- app_assoc.
Qed.

(** On a definition without foreign values the recursion makes exactly the
    definitions of its leaves, in order, each under the path that leads to
    it. *)
Lemma recursively_define_flags_flattens (name : string) (r : ref) (n : node) :
  other_types n = [] ->
  forall prefix w,
    recursively_define_flags name r (name :: prefix) n w =
    define_list name r (under prefix (leaves n)) w.
Proof.
  induction n as [it|it|entries IH|type_name] using node_induction;
    intros Hother prefix w.
  - simpl. rewrite app_nil_r. now rewrite bind_ret_tt.
  - simpl. rewrite app_nil_r. now rewrite bind_ret_tt.
  - simpl in Hother. simpl recursively_define_flags. simpl leaves.
    revert w. induction entries as [|[k n'] entries IHe]; intros w.
    + reflexivity.
    + simpl in Hother. apply app_eq_nil in Hother as [Hn' Hrest].
      inversion IH as [|? ? IHn' IHrest]; subst.
      simpl flat_map. rewrite under_app, define_list_app, under_under.
      apply bind_ext.
      * change (name :: prefix ++ [k]) with (name :: (prefix ++ [k])).
        apply IHn'. exact Hn'.
      * intros _ s'. apply IHe; assumption.
  - discriminate.
Qed.

Lemma define_each_flattens (name : string) (r : ref) (items : list (string * node)) :
  other_types (DictNode items) = [] ->
  forall w,
    define_each name r items w = define_list name r (leaves (DictNode items)) w.
Proof.
  intros Hother. simpl in Hother. simpl leaves.
  induction items as [|[k n'] items IH]; intros w.
  - reflexivity.
  - simpl in Hother. apply app_eq_nil in Hother as [Hn' Hrest].
    simpl define_each. simpl flat_map. rewrite define_list_app.
    apply bind_ext.
    + rewrite (recursively_define_flags_flattens name r n' Hn' [k] w).
      reflexivity.
    + intros _ s'. now apply IH.
Qed.

Lemma dict_get_In {A : Type} (d : list (string * A)) k v :
  dict_get d k = Some v -> In (k, v) d.
Proof.
  induction d as [|[k0 v0] d IH]; simpl; [discriminate|].
  destruct (String.eqb k0 k) eqn:E.
  - apply String.eqb_eq in E. intros H. injection H as ->. subst. now left.
  - intros H. right. now apply IH.
Qed.

Lemma In_dict_get {A : Type} (d : list (string * A)) k v :
  distinct (keys d) = true -> In (k, v) d -> dict_get d k = Some v.
Proof.
  induction d as [|[k0 v0] d IH]; simpl; [contradiction|].
  change (keys ((k0, v0) :: d)) with (k0 :: keys d).
  intros Hd. apply andb_true_iff in Hd as [Hk Hd].
  apply negb_true_iff, existsb_eqb_false in Hk.
  intros [Heq|Hin].
  - injection Heq as -> ->. now rewrite String.eqb_refl.
  - destruct (String.eqb k0 k) eqn:E.
    + apply String.eqb_eq in E. subst. exfalso. apply Hk.
      unfold keys. apply in_map_iff. exists (k, v). auto.
    + now apply IH.
Qed.

(** Every leaf reached by a path is among the leaves enumerated. *)
Lemma leaf_at_leaves (n : node) :
  forall p c, leaf_at n p = Some c -> In (p, c) (leaves n).
Proof.
  induction n as [it|it|entries IH|type_name] using node_induction;
    intros p c H; unfold leaf_at in H.
  - destruct p; simpl in H; [|discriminate]. injection H as <-. now left.
  - destruct p; simpl in H; [|discriminate]. injection H as <-. now left.
  - destruct p as [|k p]; simpl in H; [discriminate|].
    destruct (dict_get entries k) as [n'|] eqn:Ek; [|discriminate].
    apply dict_get_In in Ek. simpl. apply in_flat_map. exists (k, n').
    split; [exact Ek|]. apply in_map_iff. exists (p, c). split; [reflexivity|].
    rewrite List.Forall_forall in IH. apply (IH (k, n') Ek). exact H.
  - destruct p; simpl in H; discriminate.
Qed.

(** With unique keys every leaf enumerated is the one its path reaches. *)
Lemma leaves_leaf_at (n : node) :
  unique_keys n = true ->
  forall p c, In (p, c) (leaves n) -> leaf_at n p = Some c.
Proof.
  induction n as [it|it|entries IH|type_name] using node_induction;
    intros Hu p c H.
  - destruct H as [H|[]]. now injection H as <- <-.
  - destruct H as [H|[]]. now injection H as <- <-.
  - simpl in Hu. apply andb_true_iff in Hu as [Hd Hall].
    simpl in H. apply in_flat_map in H as ([k n'] & Hin & H).
    apply in_map_iff in H as ([q c'] & Heq & Hq). simpl in Heq.
    injection Heq as <- <-.
    unfold leaf_at. simpl. rewrite (In_dict_get entries k n' Hd Hin).
    rewrite List.Forall_forall in IH. rewrite forallb_forall in Hall.
    apply (IH (k, n') Hin (Hall _ Hin) q c' Hq).
  - destruct H.
Qed.

Lemma _parse_parsed_by (lists : list_store) (f : leaf_flag) (argument x : pyval) :
  _parse lists f argument = Return x <->
  parsed_by lists (class_of f) (flag_parser f) argument = Some x.
Proof.
  unfold _parse, parsed_by. destruct (class_of f).
  - unfold Flag__parse. destruct (flag_parser f argument) as [v|e].
    + split; intros H; injection H as <-; reflexivity.
    + split; [destruct (exn_type e)|]; discriminate.
  - unfold MultiFlag__parse.
    destruct (parse_each (Flag__parse f) (multi_arguments lists argument))
      as [vs|e] eqn:E1;
      destruct (parse_each (flag_parser f) (multi_arguments lists argument))
        as [vs'|e'] eqn:E2; simpl.
    + apply parse_each_Flag__parse in E1. rewrite E1 in E2. injection E2 as <-.
      split; intros H; injection H as <-; reflexivity.
    + apply parse_each_Flag__parse in E1. congruence.
    + apply parse_each_Flag__parse in E2. congruence.
    + split; discriminate.
Qed.

Lemma parsed_default_initial_value lists cls w ns it n h v :
  parsed_default lists (new_object cls w ns (_parser it) (_serializer it) n h)
    (default it) = Return v ->
  initial_value lists cls it = Some v.
Proof.
  unfold parsed_default, initial_value.
  destruct (default it) eqn:Ed; try (intros H; injection H as <-; reflexivity);
    intros H; apply _parse_parsed_by in H; exact H.
Qed.

Lemma init_attached (lists : list_store) (name : string) (r : ref)
    (m : list (string * node))
    (p : list string) (cls : flag_class) (it : descriptor) (P : parser)
    (S : serializer) (n : string) (d : pyval) (h : string)
    (heap : list pyval) (v v0 : pyval) (text : option serialized) :
  leaf_at (DictNode m) p = Some (cls, it) ->
  heap !! r = Some v ->
  related any_value (DictNode m) v ->
  parsed_default lists (new_object cls [(name, Alias r)] (name :: p) P S n h) d
  = Return v0 ->
  _get_parsed_value_as_string lists
    (new_object cls [(name, Alias r)] (name :: p) P S n h) v0 = Return text ->
  exists v',
    leaf_flag__init__ lists cls [(name, Alias r)] (name :: p) P S n d h heap
    = (Return (constructed cls [(name, Alias r)] (name :: p) P S n h d v0 text),
       <[r := v']> heap)
    /\ evolves (DictNode m) p v v'
    /\ get_path v' p = Some v0.
Proof.
  intros Hleaf Hr Hrel Hd Ht.
  rewrite leaf_flag_init_eq, Flag_init_eq, Hd, Ht.
  destruct (update_attached name r m p (cls, it)
              (set__value v0
                 (set_default_as_str text
                    (set_flag_default v0
                       (set_default_unparsed d
                          (new_object cls [(name, Alias r)] (name :: p) P S n h)))))
              heap v) as (v' & H & Hev & Hg); auto.
  { split; reflexivity. }
  rewrite H. exists v'. split; [reflexivity|]. split; assumption.
Qed.

Lemma setitem_refusal (n : string) (fl : flag) (w : World) :
  FlagValues__setitem__ n fl w =
  match refusal w n with
  | Some e => (Raise e, w)
  | None => (Return tt, set_registry (<[n := fl]> (registry w)) w)
  end.
Proof.
  unfold FlagValues__setitem__, refusal.
  destruct (String.eqb n ""); [reflexivity|].
  destruct (has_space n); [reflexivity|].
  destruct (existsb (String.eqb n) (banned_flag_names w)); [reflexivity|].
  destruct (registry w !! n); reflexivity.
Qed.

Lemma DEFINE_flag_eq (fl : flag) (w : World) :
  DEFINE_flag fl w =
  match refusal w (flag_name fl) with
  | Some e => (Raise e, w)
  | None =>
      (Return {| holder_name := flag_name fl;
                 ensure_non_none_value := negb (is_None (flag_default_of fl)) |},
       set_registry (<[flag_name fl := fl]> (registry w)) w)
  end.
Proof.
  unfold DEFINE_flag, bind, ret. rewrite setitem_refusal.
  destruct (refusal w (flag_name fl)); reflexivity.
Qed.

Lemma refusal_registered (w : World) (n : string) :
  refusal w n = None -> registry w !! n = None.
Proof.
  unfold refusal. destruct (String.eqb n ""); [discriminate|].
  destruct (has_space n); [discriminate|].
  destruct (existsb (String.eqb n) (banned_flag_names w)); [discriminate|].
  destruct (registry w !! n); [discriminate|reflexivity].
Qed.

Lemma name_constructed cls w ns P S n h d v0 text :
  name (constructed cls w ns P S n h d v0 text) = n.
Proof. destruct cls; reflexivity. Qed.

Lemma dotted_not_empty (k : string) (p : list string) :
  p <> [] -> dotted (k :: p) <> "".
Proof.
  intros Hp H. destruct p as [|k' p']; [contradiction|].
  unfold dotted in H. simpl in H.
  destruct k; simpl in H; discriminate.
Qed.

Lemma define_eq (cls : flag_class) (it : descriptor) (ns : list string)
    (wr : wrapper) (w : World) :
  define cls it ns wr w =
  match leaf_flag__init__ (lists w) cls wr ns (_parser it) (_serializer it)
          (dotted ns) (default it) (_help_string it) (heap w) with
  | (Return f, heap1) =>
      match refusal w (name f) with
      | Some e => (Raise e, set_heap heap1 w)
      | None =>
          (Return tt,
           set_registry (<[name f := Leaf f]> (registry w)) (set_heap heap1 w))
      end
  | (Raise e, heap1) => (Raise e, set_heap heap1 w)
  end.
Proof.
  unfold define, bind, get, on_heap. cbn [fst snd].
  change (String.concat SEPARATOR ns) with (dotted ns).
  destruct (leaf_flag__init__ (lists w) cls wr ns (_parser it) (_serializer it)
              (dotted ns) (default it) (_help_string it) (heap w))
    as [[f|e] heap1]; [|reflexivity].
  rewrite DEFINE_flag_eq. cbn [flag_name].
  change (refusal (set_heap heap1 w) (name f)) with (refusal w (name f)).
  destruct (refusal w (name f)); reflexivity.
Qed.

(** A definition leaves the lists, the mark of parsing and the refused
    names as they are. *)
Lemma define_keeps (cls : flag_class) (it : descriptor) (ns : list string)
    (wr : wrapper) (w w' : World) (o : outcome unit) :
  define cls it ns wr w = (o, w') ->
  lists w' = lists w /\ flags_parsed w' = flags_parsed w
  /\ banned_flag_names w' = banned_flag_names w.
Proof.
  rewrite define_eq.
  destruct (leaf_flag__init__ _ _ _ _ _ _ _ _ _ _) as [[f|e] heap1].
  - destruct (refusal w (name f)); intros H; injection H as _ <-; auto.
  - intros H; injection H as _ <-; auto.
Qed.

Lemma define_leaf (name : string) (r : ref) (m : list (string * node))
    done (p : list string) (cls : flag_class) (it : descriptor)
    (w w' : World) (o : outcome unit) :
  leaves_of m done ->
  invariant name m r done w ->
  leaf_at (DictNode m) p = Some (cls, it) ->
  ~ In p (map fst done) ->
  define cls it (name :: p) [(name, Alias r)] w = (o, w') ->
  (o = Return tt ->
   invariant name m r (done ++ [(p, (cls, it))]) w'
   /\ registry w !! dotted (name :: p) = None
   /\ exists f, registry w' !! dotted (name :: p) = Some (Leaf f)
                /\ as_constructed (lists w) (cls, it) f) /\
  (forall n fl, registry w !! n = Some fl -> registry w' !! n = Some fl) /\
  (forall e, o = Raise e ->
     registry w' = registry w
     /\ invariant name m r done w'
     /\ (construction_fails (lists w) (leaf_object name r p cls it) (default it) e
         \/ refusal w (dotted (name :: p)) = Some e)).
Proof.
  intros Hdone Hinv Hleaf Hnew H.
  pose proof Hinv as [(v & Hv & Hrel & Hflags) Hown].
  rewrite define_eq in H.
  destruct (parsed_default (lists w) (leaf_object name r p cls it) (default it))
    as [v0|e0] eqn:Ed.
  - destruct (_get_parsed_value_as_string (lists w) (leaf_object name r p cls it) v0)
      as [text|e1] eqn:Et.
    + destruct (init_attached (lists w) name r m p cls it (_parser it) (_serializer it)
                  (dotted (name :: p)) (default it) (_help_string it) (heap w) v v0
                  text Hleaf Hv Hrel Ed Et) as (v' & Hinit & [Hrel' Hframe] & Hg).
      rewrite Hinit in H. rewrite !name_constructed in H.
      assert (Hlt : r < length (heap w)) by (eapply lookup_lt_Some; eauto).
      destruct (refusal w (dotted (name :: p))) as [e2|] eqn:En.
      * injection H as <- <-. split; [discriminate|]. split; [auto|].
        intros e He. injection He as <-. split; [reflexivity|].
        split; [|now right]. split.
        -- exists v'. cbn [heap registry set_heap].
           split; [now rewrite list_lookup_insert_eq|]. split; [exact Hrel'|].
           intros p0 c0 Hin. destruct (Hflags p0 c0 Hin) as (f0 & Hf0 & Hleaf0 & Hg0).
           exists f0. split; [exact Hf0|]. split; [exact Hleaf0|].
           rewrite (Hframe p0 c0); [exact Hg0|now apply Hdone|].
           intros ->. apply Hnew. apply in_map_iff. exists (p, c0). auto.
        -- cbn [heap registry set_heap]. exact Hown.
      * pose proof (refusal_registered _ _ En) as Hfree.
        injection H as <- <-. split; [|split; [|discriminate]].
        -- intros _. split; [split|split; [exact Hfree|]].
           ++ exists v'. cbn [heap registry set_registry set_heap].
              split; [now rewrite list_lookup_insert_eq|]. split; [exact Hrel'|].
              intros p0 c0 Hin. apply in_app_iff in Hin as [Hin|[Heq|[]]].
              ** destruct (Hflags p0 c0 Hin) as (f0 & Hf0 & Hleaf0 & Hg0).
                 assert (Hne : dotted (name :: p) <> dotted (name :: p0))
                   by (intros Heq; rewrite <- Heq, Hfree in Hf0; discriminate).
                 exists f0. rewrite lookup_insert_ne by exact Hne.
                 split; [exact Hf0|]. split; [exact Hleaf0|].
                 rewrite (Hframe p0 c0); [exact Hg0|now apply Hdone|congruence].
              ** injection Heq as <- <-. eexists. rewrite lookup_insert_eq.
                 split; [reflexivity|]. split; [|destruct cls; exact Hg].
                 split; [split; destruct cls; reflexivity
                        |split; destruct cls; reflexivity].
           ++ cbn [heap registry set_registry set_heap]. intros n' f' Hn' Hal.
              destruct (String.eqb (dotted (name :: p)) n') eqn:E.
              ** apply String.eqb_eq in E. subst n'. exists p, (cls, it).
                 split; [|reflexivity]. apply in_app_iff. right. now left.
              ** apply String.eqb_neq in E. rewrite lookup_insert_ne in Hn' by exact E.
                 destruct (Hown n' f' Hn' Hal) as (p0 & c0 & Hin & Heq).
                 exists p0, c0. split; [|exact Heq]. apply in_app_iff. now left.
           ++ eexists. cbn [registry set_registry]. rewrite lookup_insert_eq.
              split; [reflexivity|].
              split; [|split; destruct cls; reflexivity]. cbn [fst snd].
              replace (_value (constructed cls [(name, Alias r)] (name :: p)
                                 (_parser it) (_serializer it) (dotted (name :: p))
                                 (_help_string it) (default it) v0 text))
                with v0 by (destruct cls; reflexivity).
              eapply parsed_default_initial_value. exact Ed.
        -- cbn [registry set_registry]. intros n fl Hn.
           rewrite lookup_insert_ne; [exact Hn|].
           intros Heq. rewrite Heq, Hn in Hfree. discriminate.
    + rewrite (init_raises (lists w) cls _ _ _ _ _ _ _ (heap w) e1) in H
        by (right; exists v0; split; [exact Ed|exact Et]).
      injection H as <- <-. split; [discriminate|]. split; [auto|].
      intros e He. injection He as <-. split; [reflexivity|].
      split; [destruct w; exact Hinv|].
      left. right. exists v0. split; assumption.
  - rewrite (init_raises (lists w) cls _ _ _ _ _ _ _ (heap w) e0) in H
      by (left; exact Ed).
    injection H as <- <-. split; [discriminate|]. split; [auto|].
    intros e He. injection He as <-. split; [reflexivity|].
    split; [destruct w; exact Hinv|]. left. now left.
Qed.

Lemma leaves_of_app_l m done ls : leaves_of m (done ++ ls) -> leaves_of m done.
Proof. intros H p c Hin. apply H. apply in_app_iff. now left. Qed.

Lemma refusal_same (w w' : World) (n : string) :
  registry w' = registry w -> banned_flag_names w' = banned_flag_names w ->
  refusal w' n = refusal w n.
Proof. intros Hr Hb. unfold refusal. now rewrite Hr, Hb. Qed.

Lemma progress_nil name m r w : progress name m r [] w w.
Proof.
  split; auto.
  - intros p c [].
  - intros n H1 H2. contradiction.
Qed.

Lemma update_shared_dict_name (f f' : leaf_flag) (heap heap' : list pyval)
    (o : outcome unit) :
  _update_shared_dict (f, heap) = (o, (f', heap')) -> name f' = name f.
Proof.
  unfold _update_shared_dict.
  destruct (_namespace f) as [|k [|k' rest]].
  - intros H. now injection H as _ <- _.
  - intros H. now injection H as _ <- _.
  - destruct (dict_get (_shared_dict f) k) as [[r|d]|].
    + destruct (heap !! r).
      * destruct (store_path _ _ _ _); intros H; now injection H as _ <- _.
      * intros H. now injection H as _ <- _.
    + destruct (store_path _ _ _ _); intros H; now injection H as _ <- _.
    + intros H. now injection H as _ <- _.
Qed.

(** The constructors give a flag the name they are given. *)
Lemma init_name lists cls wr ns P S n d h heap f heap' :
  leaf_flag__init__ lists cls wr ns P S n d h heap = (Return f, heap') ->
  name f = n.
Proof.
  rewrite leaf_flag_init_eq, Flag_init_eq.
  destruct (parsed_default _ _ _); [|discriminate].
  destruct (_get_parsed_value_as_string _ _ _); [|discriminate].
  destruct (_update_shared_dict _) as [[u|e] [f1 heap1]] eqn:Eu; [|discriminate].
  intros H. injection H as <- _.
  apply update_shared_dict_name in Eu.
  destruct cls; exact Eu.
Qed.

(** A definition adds no name but its own. *)
Lemma define_new_name (cls : flag_class) (it : descriptor) (ns : list string)
    (wr : wrapper) (w w' : World) (o : outcome unit) (n : string) :
  define cls it ns wr w = (o, w') ->
  registry w !! n = None -> registry w' !! n <> None -> n = dotted ns.
Proof.
  rewrite define_eq.
  destruct (leaf_flag__init__ _ _ _ _ _ _ _ _ _ _) as [[f|e] heap1] eqn:Ei.
  - apply init_name in Ei.
    destruct (refusal w (name f)); intros H; injection H as _ <-; intros Hn Hn'.
    + now cbn in Hn'.
    + cbn [registry set_registry set_heap] in Hn'.
      destruct (String.eqb (name f) n) eqn:E.
      * apply String.eqb_eq in E. congruence.
      * apply String.eqb_neq in E. now rewrite lookup_insert_ne in Hn' by exact E.
  - intros H; injection H as _ <-; intros Hn Hn'. now cbn in Hn'.
Qed.

(** The definitions of a list of leaves, whatever their outcome: the
    leaves made are a first part of the list, they are the flags added
    to the registry, the link of the flags with the shared dict holds
    for them, and a raise is that of the first leaf not made. *)
Lemma define_list_invariant (name : string) (r : ref) (m : list (string * node))
    (ls : list (list string * (flag_class * descriptor))) :
  forall done w o w',
    leaves_of m (done ++ ls) ->
    List.NoDup (map fst (done ++ ls)) ->
    invariant name m r done w ->
    define_list name r ls w = (o, w') ->
    exists made rest,
      ls = made ++ rest
      /\ invariant name m r (done ++ made) w'
      /\ progress name m r made w w'
      /\ (o = Return tt -> rest = [])
      /\ (forall e, o = Raise e ->
            exists p cls it rest',
              rest = (p, (cls, it)) :: rest'
              /\ (construction_fails (lists w) (leaf_object name r p cls it)
                    (default it) e
                  \/ refusal w' (dotted (name :: p)) = Some e)).
Proof.
  induction ls as [|[p [cls it]] ls IH]; intros done w o w' Hdone Hnd Hinv H.
  - simpl in H. injection H as <- <-. exists [], [].
    split; [reflexivity|]. rewrite (app_nil_r done). split; [exact Hinv|].
    split; [apply progress_nil|]. split; [auto|discriminate].
  - simpl in H. unfold bind in H.
    assert (Hp : ~ In p (map fst done)).
    { rewrite map_app in Hnd. cbn [map fst] in Hnd.
      apply List.NoDup_remove_2 in Hnd.
      intros Hin. apply Hnd. apply in_app_iff. now left. }
    assert (Hleaf : leaf_at (DictNode m) p = Some (cls, it)).
    { apply Hdone. apply in_app_iff. right. now left. }
    destruct (define cls it (name :: p) [(name, Alias r)] w) as [[u|e] w1] eqn:Ed.
    + destruct u.
      destruct (define_keeps _ _ _ _ _ _ _ Ed) as (Hl1 & Hp1 & Hb1).
      destruct (define_leaf name r m done p cls it w w1 (Return tt)
                  (leaves_of_app_l _ _ _ Hdone) Hinv Hleaf Hp Ed)
        as (Hok & Hmono & _).
      destruct (Hok eq_refl) as (Hinv1 & Hfree & f & Hf & Hcons).
      assert (Hdone' : leaves_of m ((done ++ [(p, (cls, it))]) ++ ls))
        by (now rewrite <- app_assoc).
      assert (Hnd' : List.NoDup (map fst ((done ++ [(p, (cls, it))]) ++ ls)))
        by (now rewrite <- app_assoc).
      destruct (IH (done ++ [(p, (cls, it))]) w1 o w' Hdone' Hnd' Hinv1 H)
        as (made & rest & -> & Hinv' & Hprog & Hret & Hfail).
      exists ((p, (cls, it)) :: made), rest.
      split; [reflexivity|].
      split; [now rewrite <- app_assoc in Hinv'|].
      destruct Hprog as [Hmade Hkept Hnew Hl Hpa Hb]. split; [split|split].
      * intros p0 c0 [Heq|Hin].
        -- injection Heq as <- <-. split; [exact Hfree|].
           exists f. split; [now apply Hkept|exact Hcons].
        -- destruct (Hmade p0 c0 Hin) as (Hfree0 & f0 & Hf0 & Hc0).
           split.
           ++ destruct (registry w !! dotted (name :: p0)) eqn:E; [|reflexivity].
              apply Hmono in E. congruence.
           ++ exists f0. split; [exact Hf0|]. now rewrite <- Hl1.
      * intros n fl Hn. apply Hkept. now apply Hmono.
      * intros n Hn Hn'.
        destruct (registry w1 !! n) as [fl|] eqn:E1.
        -- exists p, (cls, it). split; [now left|].
           apply (define_new_name _ _ _ _ _ _ _ n Ed Hn). congruence.
        -- destruct (Hnew n E1 Hn') as (p0 & c0 & Hin & ->).
           exists p0, c0. split; [now right|reflexivity].
      * congruence.
      * congruence.
      * congruence.
      * exact Hret.
      * intros e He. destruct (Hfail e He) as (p0 & cls0 & it0 & rest' & -> & Hc).
        exists p0, cls0, it0, rest'. split; [reflexivity|].
        now rewrite <- Hl1.
    + injection H as <- <-.
      destruct (define_keeps _ _ _ _ _ _ _ Ed) as (Hl1 & Hp1 & Hb1).
      destruct (define_leaf name r m done p cls it w w1 (Raise e)
                  (leaves_of_app_l _ _ _ Hdone) Hinv Hleaf Hp Ed)
        as (_ & Hmono & Hfail).
      destruct (Hfail e eq_refl) as (Hreg & Hinv1 & Hcause).
      exists [], ((p, (cls, it)) :: ls).
      split; [reflexivity|]. rewrite (app_nil_r done). split; [exact Hinv1|]. split.
      * split; [| exact Hmono | | assumption ..].
        -- intros p0 c0 [].
        -- intros n Hn Hn'. rewrite Hreg in Hn'. contradiction.
      * split; [discriminate|].
        intros e' He'. injection He' as <-.
        exists p, cls, it, ls. split; [reflexivity|].
        destruct Hcause as [Hc|Hc]; [now left|right].
        now rewrite (refusal_same w w1) by assumption.
Qed.

Lemma NoDup_map_cons (k : string) (l : list (list string)) :
  List.NoDup l -> List.NoDup (map (cons k) l).
Proof.
  induction 1 as [|x l Hx Hl IH]; simpl; constructor; auto.
  intros Hin. apply in_map_iff in Hin as (y & Heq & Hy).
  injection Heq as ->. contradiction.
Qed.

Lemma leaves_paths_head (entries : list (string * node)) (p : list string) :
  In p (map fst (leaves (DictNode entries))) ->
  exists k q, p = k :: q /\ In k (keys entries).
Proof.
  intros H. apply in_map_iff in H as ([p' c] & <- & H). simpl in H.
  apply in_flat_map in H as ([k n'] & Hin & H).
  apply in_map_iff in H as ([q c'] & Heq & _). injection Heq as <- <-.
  exists k, q. split; [reflexivity|].
  unfold keys. apply in_map_iff. exists (k, n'). auto.
Qed.

(** With unique keys no two leaves have the same path. *)
Lemma leaves_paths_NoDup (n : node) :
  unique_keys n = true -> List.NoDup (map fst (leaves n)).
Proof.
  induction n as [it|it|entries IH|type_name] using node_induction; intros Hu.
  - simpl. constructor; [intros []|constructor].
  - simpl. constructor; [intros []|constructor].
  - induction entries as [|[k n'] entries IHe].
    + constructor.
    + inversion IH as [|? ? IHn' IHrest]; subst.
      simpl in Hu. apply andb_true_iff in Hu as [Hd Hall].
      apply andb_true_iff in Hd as [Hk Hd].
      apply andb_true_iff in Hall as [Hn' Hall].
      apply negb_true_iff in Hk.
      change (leaves (DictNode ((k, n') :: entries)))
        with (map (fun l => (k :: fst l, snd l)) (leaves n')
              ++ leaves (DictNode entries)).
      rewrite map_app. apply List.NoDup_app.
      * rewrite map_map. cbn [fst].
        rewrite <- (map_map fst (cons k)). apply NoDup_map_cons.
        now apply IHn'.
      * apply IHe; [exact IHrest|]. simpl. now rewrite Hd, Hall.
      * intros p Hp Hp'. apply leaves_paths_head in Hp' as (k' & q & -> & Hk').
        rewrite map_map in Hp. apply in_map_iff in Hp as (l & Heq & _).
        cbn [fst] in Heq. injection Heq as -> _.
        assert (Hex : existsb (String.eqb k') (keys entries) = true).
        { apply existsb_exists. exists k'. split; [exact Hk'|apply String.eqb_refl]. }
        unfold keys in Hex, Hk. simpl in Hk. congruence.
  - constructor.
Qed.

Lemma aliases_In (r : ref) (f : leaf_flag) :
  aliases r f = true -> In (Alias r) (map snd (_shared_dict f)).
Proof.
  unfold aliases. intros H. apply existsb_exists in H as ([k s] & Hin & Hs).
  simpl in Hs. destruct s as [r'|]; [|discriminate].
  apply Nat.eqb_eq in Hs. subst. apply in_map_iff. exists (k, Alias r). auto.
Qed.

Lemma other_types_of_extract (n : node) (v : pyval) :
  extract_value n = Return v -> other_types n = [].
Proof.
  intros H. destruct (other_types n) as [|tn rest] eqn:E; [reflexivity|].
  destruct (extract_value_other n) as [HR _].
  rewrite (HR tn rest E) in H. discriminate.
Qed.

(** [define_flags] unfolded: the defaults, the new dict object, then the
    definitions of the leaves in order. *)
Lemma define_flags_eq (name : string) (m : list (string * node)) (w0 : World) :
  define_flags name m w0 =
  match _extract_defaults m with
  | Raise e => (Raise e, w0)
  | Return defaults =>
      match define_list name (length (heap w0)) (leaves (DictNode m))
              (set_heap (heap w0 ++ [VDict defaults]) w0) with
      | (Return _, w1) => (Return (length (heap w0)), w1)
      | (Raise e, w1) => (Raise e, w1)
      end
  end.
Proof.
  unfold define_flags, bind, lift_outcome, alloc, ret.
  destruct (_extract_defaults m) as [defaults|e0] eqn:Ex; [|reflexivity].
  assert (Hxv : extract_value (DictNode m) = Return (VDict defaults))
    by (rewrite extract_value_dict, Ex; reflexivity).
  pose proof (other_types_of_extract _ _ Hxv) as Hother.
  rewrite (define_each_flattens name (length (heap w0)) m Hother).
  destruct (define_list _ _ _ _) as [[u|e] w1]; reflexivity.
Qed.

(** What [define_flags] establishes, whether it returns or raises: the
    leaves defined are a first part of the leaves in order; they are the
    flags added to the registry, each as its constructor leaves it; the
    shared dict is the new object and holds their values; a raise comes
    from the first leaf not defined. *)
Lemma define_flags_invariant (name : string) (m : list (string * node))
    (w0 w1 : World) (o : outcome ref) (defaults : list (string * pyval)) :
  unique_keys (DictNode m) = true ->
  closed w0 ->
  _extract_defaults m = Return defaults ->
  define_flags name m w0 = (o, w1) ->
  exists made rest,
    leaves (DictNode m) = made ++ rest
    /\ invariant name m (length (heap w0)) made w1
    /\ progress name m (length (heap w0)) made w0 w1
    /\ (forall r, o = Return r -> r = length (heap w0) /\ rest = [])
    /\ (forall e, o = Raise e ->
          exists p cls it rest',
            rest = (p, (cls, it)) :: rest'
            /\ (construction_fails (lists w0)
                  (leaf_object name (length (heap w0)) p cls it) (default it) e
                \/ refusal w1 (dotted (name :: p)) = Some e)).
Proof.
  intros Hu Hclosed Ex H. rewrite define_flags_eq, Ex in H.
  assert (Hxv : extract_value (DictNode m) = Return (VDict defaults))
    by (rewrite extract_value_dict, Ex; reflexivity).
  set (r := length (heap w0)) in *.
  set (w := set_heap (heap w0 ++ [VDict defaults]) w0) in *.
  assert (Hinv : invariant name m r [] w).
  { split.
    - exists (VDict defaults). split; [|split].
      + unfold w, r. simpl. apply list_lookup_middle. reflexivity.
      + eapply related_weaken; [|apply extract_value_related; eauto].
        intros; exact I.
      + intros p c [].
    - intros n f Hn Hal. apply aliases_In in Hal.
      specialize (Hclosed n f r Hn Hal). unfold r in Hclosed. lia. }
  assert (Hleaves : leaves_of m ([] ++ leaves (DictNode m))).
  { intros p c Hin. now apply leaves_leaf_at. }
  assert (Hnd : List.NoDup (map fst ([] ++ leaves (DictNode m))))
    by (now apply leaves_paths_NoDup).
  destruct (define_list name r (leaves (DictNode m)) w) as [o' w2] eqn:El.
  destruct (define_list_invariant name r m _ [] w o' w2 Hleaves Hnd Hinv El)
    as (made & rest & Hsplit & Hinv2 & Hprog & Hret & Hfail).
  assert (Hw : w2 = w1) by (destruct o'; now injection H).
  subst w2. exists made, rest.
  split; [exact Hsplit|]. split; [exact Hinv2|].
  split; [destruct Hprog; split; assumption|].
  split.
  - intros r' Hr'. destruct o' as [u|e]; [|subst; discriminate].
    injection H as <-. injection Hr' as <-. split; [reflexivity|].
    apply Hret. now destruct u.
  - intros e He. destruct o' as [u|e']; [subst; discriminate|].
    injection H as <-. injection He as <-. now apply Hfail.
Qed.

(* ===================================================================== *)
(** ** The public entry point *)
(* ===================================================================== *)

(** [DEFINE_dict] past its guards: [define_flags], then the registration
    of the dict flag under the root name. *)
Lemma DEFINE_dict_eq (args : list argument) (name : string)
    (m : list (string * node)) (w0 : World) :
  names_root args name -> m <> [] ->
  DEFINE_dict args m w0 =
  match define_flags name m w0 with
  | (Return r, w1) => DEFINE_flag (Aggregate (root_flag name r)) w1
  | (Raise e, w1) => (Raise e, w1)
  end.
Proof.
  intros Hargs Hm. destruct m as [|e m']; [contradiction|].
  destruct Hargs as [-> | ->]; unfold DEFINE_dict; cbn [length Nat.ltb Nat.leb];
    unfold bind, ret;
    destruct (define_flags name (e :: m') w0) as [[r|e1] w1]; try reflexivity;
    unfold lift_outcome, _DictFlag__init__, _DictFlag__parse, obind;
    cbn [is_shared_dict dict_shared_dict orb]; rewrite Nat.eqb_refl;
    reflexivity.
Qed.

(** A call of [DEFINE_dict] that gets past its guards names a root. *)
Lemma DEFINE_dict_guards (args : list argument) (m : list (string * node))
    (w0 w : World) (o : outcome FlagHolder) :
  DEFINE_dict args m w0 = (o, w) ->
  (exists name, names_root args name /\ m <> [])
  \/ (w = w0 /\ exists text, o = Raise (Exception ValueError (Text text))).
Proof.
  unfold DEFINE_dict. intros H.
  destruct args as [|arg0 args'].
  { right. injection H as <- <-. split; [reflexivity|]. eexists; reflexivity. }
  destruct m as [|e m'].
  { right. injection H as <- <-. split; [reflexivity|]. eexists; reflexivity. }
  destruct (Nat.ltb 2 (length (arg0 :: args'))) eqn:El.
  { right. injection H as <- <-. split; [reflexivity|]. eexists; reflexivity. }
  destruct arg0 as [name| |tn];
    try (right; injection H as <- <-; split; [reflexivity|]; eexists; reflexivity).
  destruct args' as [|arg1 args''].
  { left. exists name. split; [now left|discriminate]. }
  destruct args'' as [|arg2 args'''];
    [|apply Nat.ltb_ge in El; simpl in El; lia].
  destruct arg1 as [s| |tn];
    try (right; unfold bind, raise in H; injection H as <- <-;
         split; [reflexivity|]; eexists; reflexivity).
  left. exists name. split; [now right|discriminate].
Qed.

(** C6, as the code has it.  [DEFINE_dict] called without keyword
    arguments raises a [ValueError], whatever the positional arguments,
    and leaves the registry and the heap as they were.  A mapping that is
    not empty and has no leaf at any depth, only nested dicts, passes the
    guards: the shared dict is made, no leaf flag is defined, and the
    call ends as the registration of the dict flag under the root name
    does, with the holder when the registry accepts the name and with the
    registry's exception when it refuses it. *)
Theorem DEFINE_dict_requires_keyword (args : list argument) (w : World) :
  (exists e, DEFINE_dict args [] w = (Raise e, w) /\ exn_type e = ValueError) /\
  (forall name m,
     names_root args name -> m <> [] ->
     leaves (DictNode m) = [] -> other_types (DictNode m) = [] ->
     exists defaults,
       _extract_defaults m = Return defaults /\
       DEFINE_dict args m w =
       match refusal w name with
       | Some e => (Raise e, set_heap (heap w ++ [VDict defaults]) w)
       | None =>
           (Return {| holder_name := name; ensure_non_none_value := true |},
            set_registry
              (<[name := Aggregate (root_flag name (length (heap w)))]> (registry w))
              (set_heap (heap w ++ [VDict defaults]) w))
       end).
Proof.
  split.
  - destruct args as [|arg0 args'].
    + exists no_positional. split; reflexivity.
    + exists no_keyword. split; reflexivity.
  - intros name m Hargs Hm Hleaves Hother.
    destruct (extract_value_other (DictNode m)) as [_ Hx].
    destruct (Hx Hother) as [v Hv]. rewrite extract_value_dict in Hv.
    destruct (_extract_defaults m) as [defaults|e] eqn:Ex; [|discriminate].
    exists defaults. split; [reflexivity|].
    rewrite (DEFINE_dict_eq args name m w Hargs Hm), define_flags_eq, Ex, Hleaves.
    cbn [define_list]. unfold ret. rewrite DEFINE_flag_eq.
    cbn [flag_name root_flag dict_name].
    change (refusal (set_heap (heap w ++ [VDict defaults]) w) name)
      with (refusal w name).
    destruct (refusal w name); reflexivity.
Qed.

Lemma DEFINE_dict_requires_keyword_witness :
  exists defaults,
    _extract_defaults [("sizes", DictNode [])] = Return defaults /\
    DEFINE_dict [StrArg "cfg"] [("sizes", DictNode [])] empty_world =
    match refusal empty_world "cfg" with
    | Some e => (Raise e, set_heap (heap empty_world ++ [VDict defaults]) empty_world)
    | None =>
        (Return {| holder_name := "cfg"; ensure_non_none_value := true |},
         set_registry
           (<["cfg" := Aggregate (root_flag "cfg" (length (heap empty_world)))]>
              (registry empty_world))
           (set_heap (heap empty_world ++ [VDict defaults]) empty_world))
    end.
Proof.
  destruct (DEFINE_dict_requires_keyword [StrArg "cfg"] empty_world) as [_ H].
  apply (H "cfg" [("sizes", DictNode [])]).
  - left. reflexivity.
  - discriminate.
  - reflexivity.
  - reflexivity.
Defined.

(** C6 as stated fails: a definition whose only entry is an empty nested
    dict has no leaf, yet [DEFINE_dict] returns a holder; the registry
    then holds the dict flag alone. *)
Lemma DEFINE_dict_accepts_leafless_definition :
  leaves (DictNode [("sizes", DictNode [])]) = []
  /\ fst (DEFINE_dict [StrArg "cfg"] [("sizes", DictNode [])] empty_world)
     = Return {| holder_name := "cfg"; ensure_non_none_value := true |}
  /\ map fst (map_to_list
                (registry (snd (DEFINE_dict [StrArg "cfg"] [("sizes", DictNode [])]
                                  empty_world))))
     = ["cfg"].
Proof. repeat split; vm_compute; reflexivity. Qed.

(* ===================================================================== *)
(** ** The shared mapping after definition *)
(* ===================================================================== *)

Lemma related_containers (R : flag_class -> descriptor -> pyval -> Prop)
    (n : node) (v : pyval) (path : list string) (entries : list (string * node)) :
  related R n v ->
  node_at n path = Some (DictNode entries) ->
  exists es, get_path v path = Some (VDict es) /\ keys es = keys entries.
Proof.
  intros Hrel Hat.
  destruct (related_node_at R path n v _ Hrel Hat) as (v' & Hg & Hrel').
  apply related_dict in Hrel' as (es & -> & Hes).
  exists es. split; [exact Hg|]. eapply related_entries_keys; eauto.
Qed.

Lemma related_leaf (R : flag_class -> descriptor -> pyval -> Prop)
    (n : node) (v : pyval) (path : list string) cls it :
  related R n v ->
  leaf_at n path = Some (cls, it) ->
  exists x, get_path v path = Some x /\ R cls it x.
Proof.
  intros Hrel Hleaf. unfold leaf_at in Hleaf.
  destruct (node_at n path) as [n'|] eqn:Hat; [|discriminate].
  destruct (related_node_at R path n v _ Hrel Hat) as (x & Hg & Hrel').
  exists x. split; [exact Hg|].
  destruct n'; try discriminate; injection Hleaf as <- <-; exact Hrel'.
Qed.

(** What [_extract_defaults] returns has the shape of the definition and
    every descriptor's default at its leaf. *)
Lemma extract_defaults_mirrors (m : list (string * node))
    (defaults : list (string * pyval)) :
  unique_keys (DictNode m) = true ->
  _extract_defaults m = Return defaults ->
  mirrors (fun _ it => Some (default it)) m (VDict defaults).
Proof.
  intros Hu Hx.
  assert (Hrel : related holds_default (DictNode m) (VDict defaults)).
  { apply extract_value_related; [exact Hu|].
    rewrite extract_value_dict, Hx. reflexivity. }
  split.
  - intros path entries Hat. eapply related_containers; eauto.
  - intros path cls it Hleaf.
    destruct (related_leaf _ _ _ _ _ _ Hrel Hleaf) as (x & Hg & Hx').
    exists x. unfold holds_default in Hx'. subst. auto.
Qed.

Lemma invariant_mirrors (lists : list_store) (name : string)
    (m : list (string * node)) (r : ref) (w : World) :
  invariant name m r (leaves (DictNode m)) w ->
  (forall p c, leaf_at (DictNode m) p = Some c ->
     exists f, registry w !! dotted (name :: p) = Some (Leaf f)
               /\ initial_value lists (fst c) (snd c) = Some (_value f)) ->
  exists shared, heap w !! r = Some shared
                 /\ mirrors (initial_value lists) m shared.
Proof.
  intros [(v & Hv & Hrel & Hflags) _] Hinit.
  exists v. split; [exact Hv|]. split.
  - intros path entries Hat. eapply related_containers; eauto.
  - intros path cls it Hleaf.
    destruct (Hflags path (cls, it) (leaf_at_leaves _ _ _ Hleaf))
      as (f & Hf & _ & Hg).
    destruct (Hinit path (cls, it) Hleaf) as (f' & Hf' & Hi).
    rewrite Hf in Hf'. injection Hf' as <-.
    exists (_value f). split; [exact Hi|exact Hg].
Qed.

(** What [define_flags] leaves when it returns. *)
Lemma define_flags_returned (name : string) (m : list (string * node))
    (w0 w1 : World) (r : ref) :
  unique_keys (DictNode m) = true ->
  closed w0 ->
  define_flags name m w0 = (Return r, w1) ->
  r = length (heap w0)
  /\ invariant name m r (leaves (DictNode m)) w1
  /\ progress name m r (leaves (DictNode m)) w0 w1.
Proof.
  intros Hu Hclosed H.
  destruct (_extract_defaults m) as [defaults|e] eqn:Ex.
  - destruct (define_flags_invariant name m w0 w1 (Return r) defaults
                Hu Hclosed Ex H)
      as (made & rest & Hsplit & Hinv & Hprog & Hret & _).
    destruct (Hret r eq_refl) as [-> ->]. rewrite app_nil_r in Hsplit.
    subst made. auto.
  - rewrite define_flags_eq, Ex in H. discriminate.
Qed.

(** The mapping [define_flags] returns has a dict with the same keys
    wherever the definition has one, and at every leaf the value the
    leaf's flag was constructed with: [None] for a [None] default, and
    otherwise the descriptor's default parsed once more by the
    descriptor's parser. *)
Lemma define_flags_initial_values
    (name : string) (m : list (string * node)) (w0 w1 : World) (r : ref) :
  unique_keys (DictNode m) = true ->
  closed w0 ->
  define_flags name m w0 = (Return r, w1) ->
  exists shared, heap w1 !! r = Some shared
                 /\ mirrors (initial_value (lists w0)) m shared.
Proof.
  intros Hu Hclosed H.
  destruct (define_flags_returned name m w0 w1 r Hu Hclosed H)
    as (_ & Hinv & Hprog).
  apply (invariant_mirrors (lists w0) name m r w1 Hinv).
  intros p c Hleaf.
  destruct (made_flags _ _ _ _ _ _ Hprog p c (leaf_at_leaves _ _ _ Hleaf))
    as (_ & f & Hf & Hi & _).
  eauto.
Qed.

Lemma closed_new_world (banned : list string) : closed (new_world banned).
Proof. intros n f r H. simpl in H. rewrite lookup_empty in H. discriminate. Qed.

(** C3: the code at the failing input.  The item made from ["data"] by a
    parser that puts a base directory in front has the default
    ["base/data"]; [_extract_defaults] gives that default; the flag
    [define_flags] makes from the item parses the default again, and the
    mapping [define_flags] returns holds ["base/base/data"] at the leaf,
    not the default. *)
Lemma define_flags_leaf_differs_from_default :
  Item__init__ (VStr "data") "help" (Samples.in_directory "base") None
  = Return (Samples.item (VStr "base/data") (Samples.in_directory "base"))
  /\ well_formed
       (DictNode [("dir", ItemNode (Samples.item (VStr "base/data")
                                      (Samples.in_directory "base")))]) = true
  /\ _extract_defaults
       [("dir", ItemNode (Samples.item (VStr "base/data")
                            (Samples.in_directory "base")))]
     = Return [("dir", VStr "base/data")]
  /\ fst (define_flags "cfg"
            [("dir", ItemNode (Samples.item (VStr "base/data")
                                 (Samples.in_directory "base")))] empty_world)
     = Return 0
  /\ heap (snd (define_flags "cfg"
                  [("dir", ItemNode (Samples.item (VStr "base/data")
                                       (Samples.in_directory "base")))] empty_world))
     = [VDict [("dir", VStr "base/base/data")]]
  /\ default (Samples.item (VStr "base/data") (Samples.in_directory "base"))
     = VStr "base/data"
  /\ VStr "base/base/data" <> VStr "base/data".
Proof.
  split; [reflexivity|]. split; [reflexivity|]. split; [reflexivity|].
  split; [vm_compute; reflexivity|].
  split; [vm_compute; reflexivity|]. split; [reflexivity|discriminate].
Qed.

(* ===================================================================== *)
(** ** The descent of the write-through *)
(* ===================================================================== *)

(** In a mapping that mirrors the definition, the path of a leaf without
    its last segment leads to a dict. *)
Lemma leaf_parent_is_dict (R : flag_class -> descriptor -> pyval -> Prop)
    (p : list string) :
  forall n v c,
    related R n v ->
    leaf_at n p = Some c ->
    p <> [] ->
    exists es, get_path v (removelast p) = Some (VDict es).
Proof.
  induction p as [|k p IH]; intros n v c Hrel Hleaf Hne; [contradiction|].
  unfold leaf_at in Hleaf. simpl in Hleaf.
  destruct n as [| |entries|]; try discriminate.
  apply related_dict in Hrel as (es & -> & Hes).
  destruct p as [|k' p'].
  - simpl. eauto.
  - change (removelast (k :: k' :: p')) with (k :: removelast (k' :: p')).
    pose proof (related_entries_get R _ _ k Hes) as Hk.
    destruct (dict_get entries k) as [n1|] eqn:Ek; [|discriminate].
    destruct Hk as (v1 & Hv1 & Hrel1).
    simpl get_path. rewrite Hv1.
    apply (IH n1 v1 c Hrel1); [exact Hleaf|discriminate].
Qed.

Lemma descend_of_get_path (d : pyval) (names : list string) (v : pyval) :
  get_path d names = Some v -> descend d names = (Return v, length names).
Proof.
  intros H. apply descend_get_path in H.
  pose proof (descend_count d names v H) as Hc.
  destruct (descend d names) as [o n]. simpl in *. congruence.
Qed.

Lemma length_removelast_cons (k : string) (p : list string) :
  p <> [] -> length (removelast (k :: p)) = length p.
Proof.
  intros Hne. destruct (exists_last Hne) as (q & a & ->).
  change (k :: q ++ [a]) with ((k :: q) ++ [a]).
  rewrite removelast_last, length_app. simpl. lia.
Qed.

(** The leaves enumerated before a point of the enumeration are leaves. *)
Lemma leaves_of_made (m : list (string * node)) made rest :
  unique_keys (DictNode m) = true ->
  leaves (DictNode m) = made ++ rest -> leaves_of m made.
Proof.
  intros Hu Hsplit p c Hin. apply leaves_leaf_at; [exact Hu|].
  rewrite Hsplit. apply in_app_iff. now left.
Qed.

(** The flag of a leaf done, in a state where the invariant holds: the
    walk of its write-through ends at a dict after one lookup per
    segment, and the write-through returns. *)
Lemma invariant_descent (name : string) (m : list (string * node)) (r : ref)
    done (w : World) (p : list string) c :
  leaves_of m done ->
  invariant name m r done w ->
  In (p, c) done ->
  exists f es heap',
    registry w !! dotted (name :: p) = Some (Leaf f)
    /\ _namespace f = name :: p
    /\ _shared_dict f = [(name, Alias r)]
    /\ descend (view (_shared_dict f) (heap w)) (removelast (_namespace f))
       = (Return (VDict es), length (_namespace f) - 1)
    /\ _update_shared_dict (f, heap w) = (Return tt, (f, heap')).
Proof.
  intros Hdone [(v & Hv & Hrel & Hflags) _] Hin.
  pose proof (Hdone p c Hin) as Hleaf.
  destruct (Hflags p c Hin) as (f & Hf & ([Hns Hw] & _ & _) & Hg).
  assert (Hne : p <> []) by (intros ->; discriminate).
  destruct (leaf_parent_is_dict _ p _ _ _ Hrel Hleaf Hne) as (es & Hes).
  destruct (update_attached name r m p c f (heap w) v)
    as (v' & Hup & _ & _); auto.
  { split; assumption. }
  exists f, es, (<[r := v']> (heap w)).
  split; [exact Hf|]. split; [exact Hns|]. split; [exact Hw|].
  split; [|exact Hup].
  rewrite Hns, Hw.
  replace (length (name :: p) - 1) with (length (removelast (name :: p)))
    by (rewrite length_removelast_cons by exact Hne; simpl; lia).
  apply descend_of_get_path.
  destruct p as [|k p']; [contradiction|].
  change (removelast (name :: k :: p')) with (name :: removelast (k :: p')).
  unfold view. simpl. rewrite String.eqb_refl, Hv. exact Hes.
Qed.

(** C9.  Take a definition with unique keys and any call of [define_flags]
    on it, whether it returns or raises.  Every flag the call has added to
    the registry is the flag of a leaf, registered under the leaf's
    dotted name, and in every state reached by later overrides and
    assignments the walk of its write-through from the wrapper through
    all segments of the namespace but the last, the root name first,
    ends at a dict after one lookup per segment, and
    [_update_shared_dict] returns normally.  When the call returns, every
    leaf of the definition has such a flag. *)
Theorem write_through_descent_cannot_fail
    (name : string) (m : list (string * node)) (w0 w1 : World) (o : outcome ref) :
  unique_keys (DictNode m) = true ->
  closed w0 ->
  define_flags name m w0 = (o, w1) ->
  (forall events n,
     registry w0 !! n = None -> registry w1 !! n <> None ->
     exists p c f es heap',
       leaf_at (DictNode m) p = Some c
       /\ n = dotted (name :: p)
       /\ registry (run events w1) !! n = Some (Leaf f)
       /\ _namespace f = name :: p
       /\ _shared_dict f = [(name, Alias (length (heap w0)))]
       /\ descend (view (_shared_dict f) (heap (run events w1)))
            (removelast (_namespace f))
          = (Return (VDict es), length (_namespace f) - 1)
       /\ _update_shared_dict (f, heap (run events w1)) = (Return tt, (f, heap'))) /\
  (forall r, o = Return r ->
     forall p c, leaf_at (DictNode m) p = Some c ->
       registry w0 !! dotted (name :: p) = None
       /\ registry w1 !! dotted (name :: p) <> None).
Proof.
  intros Hu Hclosed H.
  destruct (_extract_defaults m) as [defaults|e0] eqn:Ex.
  - destruct (define_flags_invariant name m w0 w1 o defaults Hu Hclosed Ex H)
      as (made & rest & Hsplit & Hinv & Hprog & Hret & _).
    pose proof (leaves_of_made m made rest Hu Hsplit) as Hls.
    split.
    + intros events n Hn0 Hn1.
      destruct (new_names _ _ _ _ _ _ Hprog n Hn0 Hn1) as (p & c & Hin & ->).
      pose proof (run_invariant name m _ _ events Hls w1 Hinv) as Hinv'.
      destruct (invariant_descent name m _ made (run events w1) p c Hls Hinv' Hin)
        as (f & es & heap' & Hf & Hns & Hw & Hd & Hup).
      exists p, c, f, es, heap'. split; [now apply Hls|]. auto 10.
    + intros r Hr p c Hleaf. destruct (Hret r Hr) as [_ ->].
      rewrite app_nil_r in Hsplit.
      assert (Hin : In (p, c) made)
        by (rewrite <- Hsplit; now apply leaf_at_leaves).
      destruct (made_flags _ _ _ _ _ _ Hprog p c Hin) as (Hfree & f & Hf & _).
      split; [exact Hfree|]. rewrite Hf. discriminate.
  - rewrite define_flags_eq, Ex in H. injection H as <- <-. split.
    + intros events n Hn0 Hn1. contradiction.
    + discriminate.
Qed.

Lemma write_through_descent_cannot_fail_witness :
  exists p c f es heap',
    leaf_at (DictNode [("mode", ItemNode (Samples.item (VStr "pad")
                                            Samples.string_parser));
                       ("my key", ItemNode (Samples.item (VInt 5)
                                              Samples.integer_parser))]) p
    = Some c
    /\ "cfg.mode" = dotted ("cfg" :: p)
    /\ registry
         (run [Override "cfg.mode" "crop"; Assign "cfg.mode" (VInt 1)]
            (snd (define_flags "cfg"
                    [("mode", ItemNode (Samples.item (VStr "pad")
                                          Samples.string_parser));
                     ("my key", ItemNode (Samples.item (VInt 5)
                                            Samples.integer_parser))]
                    empty_world)))
       !! "cfg.mode" = Some (Leaf f)
    /\ _namespace f = "cfg" :: p
    /\ _shared_dict f = [("cfg", Alias (length (heap empty_world)))]
    /\ descend
         (view (_shared_dict f)
            (heap (run [Override "cfg.mode" "crop"; Assign "cfg.mode" (VInt 1)]
                     (snd (define_flags "cfg"
                             [("mode", ItemNode (Samples.item (VStr "pad")
                                                   Samples.string_parser));
                              ("my key", ItemNode (Samples.item (VInt 5)
                                                     Samples.integer_parser))]
                             empty_world)))))
         (removelast (_namespace f))
       = (Return (VDict es), length (_namespace f) - 1)
    /\ _update_shared_dict
         (f, heap (run [Override "cfg.mode" "crop"; Assign "cfg.mode" (VInt 1)]
                     (snd (define_flags "cfg"
                             [("mode", ItemNode (Samples.item (VStr "pad")
                                                   Samples.string_parser));
                              ("my key", ItemNode (Samples.item (VInt 5)
                                                     Samples.integer_parser))]
                             empty_world))))
       = (Return tt, (f, heap')).
Proof.
  destruct (write_through_descent_cannot_fail "cfg"
              [("mode", ItemNode (Samples.item (VStr "pad") Samples.string_parser));
               ("my key", ItemNode (Samples.item (VInt 5) Samples.integer_parser))]
              empty_world
              (snd (define_flags "cfg"
                      [("mode", ItemNode (Samples.item (VStr "pad")
                                            Samples.string_parser));
                       ("my key", ItemNode (Samples.item (VInt 5)
                                              Samples.integer_parser))]
                      empty_world))
              (Raise name_has_space) eq_refl (closed_new_world []))
    as [H _].
  - vm_compute. reflexivity.
  - apply (H [Override "cfg.mode" "crop"; Assign "cfg.mode" (VInt 1)] "cfg.mode").
    + reflexivity.
    + vm_compute. discriminate.
Defined.

(* ===================================================================== *)
(** ** Overrides of the leaves of a definition *)
(* ===================================================================== *)

Lemma override_leaf (name : string) (m : list (string * node)) (r : ref)
    (w : World) (p : list string) c (text : string) (f : leaf_flag)
    (shared x y : pyval) (lists' : list_store) :
  leaf_at (DictNode m) p = Some c ->
  registry w !! dotted (name :: p) = Some (Leaf f) ->
  attached name r p f ->
  heap w !! r = Some shared ->
  related any_value (DictNode m) shared ->
  _parse (lists w) f (VStr text) = Return x ->
  value_after_parse (lists w) f x = Some (y, lists') ->
  exists shared',
    override (dotted (name :: p)) text w
    = (Return tt,
       set_registry (<[dotted (name :: p) := Leaf (overridden f x y)]> (registry w))
         (set_lists lists' (set_heap (<[r := shared']> (heap w)) w)))
    /\ evolves (DictNode m) p shared shared'
    /\ get_path shared' p = Some y.
Proof.
  intros Hleaf Hf Hatt Hv Hrel Hparse Hval.
  pose proof (parse_attached name r m p c f (heap w) (lists w) shared (VStr text)
                Hleaf Hatt Hv Hrel) as Hp.
  rewrite Hparse, Hval in Hp. destruct Hp as (shared' & Hp & Hev & Hg).
  exists shared'. split; [|split; assumption].
  unfold override. rewrite Hf. unfold on_leaf, bind. rewrite Hp. reflexivity.
Qed.

(** An override that is not accepted leaves the flag as it is. *)
Lemma override_leaf_refused (name : string) (m : list (string * node)) (r : ref)
    (w : World) (p : list string) c (text : string) (f : leaf_flag)
    (shared : pyval) :
  leaf_at (DictNode m) p = Some c ->
  registry w !! dotted (name :: p) = Some (Leaf f) ->
  attached name r p f ->
  heap w !! r = Some shared ->
  related any_value (DictNode m) shared ->
  match _parse (lists w) f (VStr text) with
  | Return x => value_after_parse (lists w) f x = None
  | Raise _ => True
  end ->
  exists e,
    override (dotted (name :: p)) text w
    = (Raise e,
       set_registry (<[dotted (name :: p) := Leaf f]> (registry w))
         (set_lists (lists w) (set_heap (heap w) w))).
Proof.
  intros Hleaf Hf Hatt Hv Hrel Hno.
  pose proof (parse_attached name r m p c f (heap w) (lists w) shared (VStr text)
                Hleaf Hatt Hv Hrel) as Hp.
  unfold override. rewrite Hf. unfold on_leaf, bind.
  destruct (_parse (lists w) f (VStr text)) as [x|e].
  - rewrite Hno in Hp. rewrite Hp. eauto.
  - rewrite Hp. eauto.
Qed.

Lemma leaves_of_leaves (m : list (string * node)) :
  unique_keys (DictNode m) = true -> leaves_of m (leaves (DictNode m)).
Proof. intros Hu p c Hin. now apply leaves_leaf_at. Qed.

(** [_parse] of a repeatable flag gives a list. *)
Lemma _parse_multi_list (lists : list_store) (f : leaf_flag) (argument x : pyval) :
  class_of f = _MultiFlag -> _parse lists f argument = Return x ->
  exists vs, x = VList vs.
Proof.
  unfold _parse. intros ->. unfold MultiFlag__parse.
  destruct (parse_each _ _) as [vs|e]; intros H; [|discriminate].
  injection H as <-. eauto.
Qed.

(** The registry at one name after an event on another name. *)
Lemma step_other_name (e : event) (w : World) (n : string) :
  match e with
  | Override n' _ | Assign n' _ => n' <> n
  | _ => True
  end ->
  registry (snd (step e w)) !! n = registry w !! n.
Proof.
  destruct e as [n' value|n' value|items|]; simpl; intros Hn; try reflexivity.
  - unfold override. destruct (registry w !! n') as [[f|d]|]; [| |reflexivity].
    + unfold on_leaf.
      match goal with
      | |- context [match ?t with pair _ _ => _ end] =>
          destruct t as [o [[f' heap'] lists']]
      end.
      simpl. now rewrite lookup_insert_ne.
    + destruct (_DictFlag_parse d (Value (VStr value))); [|reflexivity].
      simpl. now rewrite lookup_insert_ne.
  - unfold assign. destruct (registry w !! n') as [[f|d]|]; [| |reflexivity].
    + unfold on_leaf.
      match goal with
      | |- context [match ?t with pair _ _ => _ end] =>
          destruct t as [o [[f' heap'] lists']]
      end.
      simpl. now rewrite lookup_insert_ne.
    + simpl. now rewrite lookup_insert_ne.
Qed.

(** A repeatable flag of the definition comes to hold a list object of
    the store only when the program assigns it one. *)
Lemma step_extends_own_list (name : string) (m : list (string * node)) (r : ref)
    done (e : event) (w : World) (p : list string) c :
  leaves_of m done ->
  invariant name m r done w ->
  In (p, c) done ->
  (forall l, e <> Assign (dotted (name :: p)) (VRef l)) ->
  extends_own_list (dotted (name :: p)) w ->
  extends_own_list (dotted (name :: p)) (snd (step e w)).
Proof.
  intros Hdone [(shared & Hv & Hrel & Hflags) _] Hin He Hown.
  pose proof (Hdone p c Hin) as Hleaf.
  destruct (Hflags p c Hin) as (f & Hf & (Hatt & _ & _) & _).
  assert (Hother : registry (snd (step e w)) !! dotted (name :: p)
                   = registry w !! dotted (name :: p) ->
                   extends_own_list (dotted (name :: p)) (snd (step e w))).
  { intros Heq f' l Hf'. rewrite Heq in Hf'. now apply Hown. }
  destruct e as [n' value|n' value|items|];
    try (apply Hother; reflexivity).
  - destruct (String.eqb n' (dotted (name :: p))) eqn:E;
      [|apply Hother, step_other_name; now apply String.eqb_neq in E].
    apply String.eqb_eq in E. subst n'. cbn [step].
    destruct (_parse (lists w) f (VStr value)) as [x|e] eqn:Ep.
    + destruct (value_after_parse (lists w) f x) as [[y lists']|] eqn:Ey.
      * destruct (override_leaf name m r w p c value f shared x y lists'
                    Hleaf Hf Hatt Hv Hrel Ep Ey) as (shared' & -> & _).
        intros f' l Hf' Hcls Hpres. cbn [snd registry set_registry] in Hf'.
        rewrite lookup_insert_eq in Hf'. injection Hf' as <-.
        cbn [overridden _value set_using_default_value set_present set__value
             class_of] in *.
        unfold value_after_parse in Ey. rewrite Hcls in Ey.
        destruct (_parse_multi_list _ _ _ _ Hcls Ep) as [vs ->].
        destruct (Nat.eqb (present f) 0) eqn:E0.
        -- injection Ey as <- _. discriminate.
        -- apply Nat.eqb_neq in E0.
           destruct (_value f) eqn:Ef; try discriminate.
           ++ injection Ey as <- _. discriminate.
           ++ exfalso. apply (Hown f l0 Hf Hcls E0 Ef).
      * destruct (override_leaf_refused name m r w p c value f shared
                    Hleaf Hf Hatt Hv Hrel) as (e & ->).
        { now rewrite Ep. }
        intros f' l Hf'. cbn [snd registry set_registry] in Hf'.
        rewrite lookup_insert_eq in Hf'. injection Hf' as <-. now apply Hown.
    + destruct (override_leaf_refused name m r w p c value f shared
                  Hleaf Hf Hatt Hv Hrel) as (e' & ->).
      { now rewrite Ep. }
      intros f' l Hf'. cbn [snd registry set_registry] in Hf'.
      rewrite lookup_insert_eq in Hf'. injection Hf' as <-. now apply Hown.
  - destruct (String.eqb n' (dotted (name :: p))) eqn:E;
      [|apply Hother, step_other_name; now apply String.eqb_neq in E].
    apply String.eqb_eq in E. subst n'. cbn [step]. unfold assign.
    rewrite Hf. unfold on_leaf, keeping_lists. cbn [fst snd].
    destruct (setter_attached name r m p c f (heap w) shared value
                Hleaf Hatt Hv Hrel) as (v' & -> & _).
    intros f' l Hf' Hcls Hpres. cbn [snd registry set_registry] in Hf'.
    rewrite lookup_insert_eq in Hf'. injection Hf' as <-.
    cbn [_value set__value]. intros ->. now apply (He l).
Qed.

Lemma run_extends_own_list (name : string) (m : list (string * node)) (r : ref)
    done (p : list string) c (events : list event) :
  leaves_of m done ->
  In (p, c) done ->
  (forall l, ~ In (Assign (dotted (name :: p)) (VRef l)) events) ->
  forall w,
    invariant name m r done w ->
    extends_own_list (dotted (name :: p)) w ->
    extends_own_list (dotted (name :: p)) (run events w).
Proof.
  intros Hdone Hin. induction events as [|e events IH]; intros He w Hinv Hown.
  - exact Hown.
  - simpl. apply IH.
    + intros l Hl. apply (He l). now right.
    + now apply step_invariant.
    + eapply step_extends_own_list; eauto.
      intros l ->. apply (He l). now left.
Qed.

(** The state after [define_flags] and later events, at one leaf: the
    flag of the leaf and the shared mapping. *)
Lemma leaf_after_events (name : string) (m : list (string * node))
    (w0 w1 : World) (r : ref) (events : list event) (p : list string) c :
  unique_keys (DictNode m) = true ->
  closed w0 ->
  define_flags name m w0 = (Return r, w1) ->
  leaf_at (DictNode m) p = Some c ->
  exists f shared,
    registry (run events w1) !! dotted (name :: p) = Some (Leaf f)
    /\ heap (run events w1) !! r = Some shared
    /\ related any_value (DictNode m) shared
    /\ flag_of_leaf name r p c f
    /\ get_path shared p = Some (_value f)
    /\ ((forall l, ~ In (Assign (dotted (name :: p)) (VRef l)) events) ->
        extends_own_list (dotted (name :: p)) (run events w1)).
Proof.
  intros Hu Hclosed H Hleaf.
  destruct (define_flags_returned name m w0 w1 r Hu Hclosed H)
    as (_ & Hinv & Hprog).
  pose proof (leaves_of_leaves m Hu) as Hls.
  pose proof (leaf_at_leaves _ _ _ Hleaf) as Hin.
  pose proof (run_invariant name m r _ events Hls w1 Hinv) as Hinv'.
  destruct Hinv' as [(shared & Hv & Hrel & Hflags) Hown].
  destruct (Hflags p c Hin) as (f & Hf & Hfl & Hg).
  exists f, shared. repeat (split; [assumption|]).
  intros Hev. apply (run_extends_own_list name m r _ p c events Hls Hin Hev w1 Hinv).
  intros f1 l Hf1 _ Hpres.
  destruct (made_flags _ _ _ _ _ _ Hprog p c Hin) as (_ & f2 & Hf2 & _ & _ & H0).
  rewrite Hf1 in Hf2. injection Hf2 as <-. contradiction.
Qed.



(** What the parser of a repeatable flag makes of one occurrence. *)
Lemma _parse_occurrence (lists : list_store) (f : leaf_flag) (t : string)
    (x : pyval) :
  class_of f = _MultiFlag -> flag_parser f (VStr t) = Return x ->
  _parse lists f (VStr t) = Return (VList [x]).
Proof.
  intros Hcls Hx. apply _parse_parsed_by. rewrite Hcls. unfold parsed_by.
  cbn [multi_arguments parse_each]. rewrite Hx. reflexivity.
Qed.

(** Occurrences of a repeatable leaf that has been present and holds a
    list of its own: every one returns, and the parsed values are added
    at the end of the list, in order. *)
Lemma occurrences_extend (name : string) (m : list (string * node)) (r : ref)
    done (p : list string) (it : descriptor) :
  leaves_of m done ->
  In (p, (_MultiFlag, it)) done ->
  forall texts xs,
    Forall2 (fun t x => _parser it (VStr t) = Return x) texts xs ->
    forall w f items,
      invariant name m r done w ->
      registry w !! dotted (name :: p) = Some (Leaf f) ->
      present f <> 0 ->
      _value f = VList items ->
      exists w' f' shared',
        occurrences (dotted (name :: p)) texts w = (Return tt, w')
        /\ invariant name m r done w'
        /\ registry w' !! dotted (name :: p) = Some (Leaf f')
        /\ _value f' = VList (items ++ xs)
        /\ present f' = present f + length xs
        /\ heap w' !! r = Some shared'
        /\ get_path shared' p = Some (VList (items ++ xs))
        /\ lists w' = lists w.
Proof.
  intros Hdone Hin texts xs Hall.
  induction Hall as [|t x texts xs Hx Hall IH]; intros w f items Hinv Hf Hpres Hval.
  - destruct Hinv as [(shared & Hv & Hrel & Hflags) Hown].
    destruct (Hflags p _ Hin) as (f0 & Hf0 & _ & Hg).
    rewrite Hf in Hf0. injection Hf0 as <-.
    exists w, f, shared. rewrite app_nil_r. simpl.
    split; [reflexivity|]. split; [split; eauto|].
    rewrite <- Hval. repeat split; auto.
  - pose proof Hinv as [(shared & Hv & Hrel & Hflags) Hown].
    destruct (Hflags p _ Hin) as (f0 & Hf0 & (Hatt & Hcls & Hpar) & Hg).
    rewrite Hf in Hf0. injection Hf0 as <-. simpl in Hcls, Hpar.
    assert (Hparse : _parse (lists w) f (VStr t) = Return (VList [x]))
      by (apply _parse_occurrence; [exact Hcls|now rewrite Hpar]).
    assert (Hy : value_after_parse (lists w) f (VList [x])
                 = Some (VList (items ++ [x]), lists w)).
    { unfold value_after_parse. rewrite Hcls, Hval.
      destruct (Nat.eqb (present f) 0) eqn:E0; [|reflexivity].
      apply Nat.eqb_eq in E0. contradiction. }
    destruct (override_leaf name m r w p _ t f shared _ _ _
                (Hdone p _ Hin) Hf Hatt Hv Hrel Hparse Hy)
      as (shared1 & Hov & _ & _).
    pose proof (step_invariant name m r done (Override (dotted (name :: p)) t) w
                  Hdone Hinv) as Hinv1.
    cbn [step] in Hinv1. rewrite Hov in Hinv1. cbn [snd] in Hinv1.
    destruct (IH _ (overridden f (VList [x]) (VList (items ++ [x]))) (items ++ [x])
                Hinv1)
      as (w' & f' & shared' & Hocc & Hinv' & Hf' & Hval' & Hpres' & Hv' & Hg' & Hl').
    { cbn [registry set_registry]. now rewrite lookup_insert_eq. }
    { cbn [overridden present set_using_default_value set_present].
      unfold present_after_parse. rewrite Hcls. simpl. lia. }
    { reflexivity. }
    exists w', f', shared'. cbn [occurrences]. unfold bind. rewrite Hov.
    split; [exact Hocc|]. split; [exact Hinv'|]. split; [exact Hf'|].
    rewrite <- app_assoc in Hval', Hg'. split; [exact Hval'|].
    split.
    { rewrite Hpres'. cbn [overridden present set_using_default_value set_present].
      unfold present_after_parse. rewrite Hcls. simpl. lia. }
    split; [exact Hv'|]. split; [exact Hg'|]. exact Hl'.
Qed.

(** C5.  An accepted override of a single-valued leaf leaves the parsed
    text at the leaf's path whatever happened before, earlier overrides
    of the same leaf included: the last occurrence wins.  Any number of
    occurrences of a repeatable leaf after its definition all return and
    leave at the leaf's path the list of the parsed texts, in the order
    of the occurrences; and in every later state in which the leaf has
    been present and holds a list of its own, one more occurrence adds
    its parsed text at the end of that list. *)
Theorem repeated_overrides
    (name : string) (m : list (string * node)) (w0 w1 : World) (r : ref) :
  unique_keys (DictNode m) = true ->
  closed w0 ->
  define_flags name m w0 = (Return r, w1) ->
  (forall events p it t x,
      leaf_at (DictNode m) p = Some (_ItemFlag, it) ->
      _parser it (VStr t) = Return x ->
      exists w3 shared,
        override (dotted (name :: p)) t (run events w1) = (Return tt, w3)
        /\ heap w3 !! r = Some shared
        /\ get_path shared p = Some x) /\
  (forall p it texts xs,
      leaf_at (DictNode m) p = Some (_MultiFlag, it) ->
      texts <> [] ->
      Forall2 (fun t x => _parser it (VStr t) = Return x) texts xs ->
      exists w' shared,
        occurrences (dotted (name :: p)) texts w1 = (Return tt, w')
        /\ heap w' !! r = Some shared
        /\ get_path shared p = Some (VList xs)) /\
  (forall events p it t x,
      leaf_at (DictNode m) p = Some (_MultiFlag, it) ->
      _parser it (VStr t) = Return x ->
      exists f shared,
        registry (run events w1) !! dotted (name :: p) = Some (Leaf f)
        /\ heap (run events w1) !! r = Some shared
        /\ get_path shared p = Some (_value f)
        /\ forall items,
             (present f = 0 /\ items = [])
             \/ (present f <> 0 /\ _value f = VList items) ->
             exists w3 shared',
               override (dotted (name :: p)) t (run events w1) = (Return tt, w3)
               /\ heap w3 !! r = Some shared'
               /\ get_path shared' p = Some (VList (items ++ [x]))
               /\ lists w3 = lists (run events w1)).
Proof.
  intros Hu Hclosed H. split; [|split].
  - intros events p it t x Hleaf Hx.
    destruct (leaf_after_events name m w0 w1 r events p _ Hu Hclosed H Hleaf)
      as (f & shared & Hf & Hv & Hrel & (Hatt & Hcls & Hpar) & Hg & _).
    simpl in Hcls, Hpar.
    assert (Hlt : r < length (heap (run events w1))) by (eapply lookup_lt_Some; eauto).
    destruct (override_leaf name m r (run events w1) p _ t f shared x x
                (lists (run events w1)) Hleaf Hf Hatt Hv Hrel)
      as (shared1 & Hov & _ & Hg1).
    { apply _parse_parsed_by. rewrite Hcls, Hpar. simpl. now rewrite Hx. }
    { unfold value_after_parse. now rewrite Hcls. }
    eexists _, shared1. split; [exact Hov|]. split; [|exact Hg1].
    cbn [heap set_registry set_lists set_heap]. now rewrite list_lookup_insert_eq.
  - intros p it texts xs Hleaf Hne Hall.
    destruct Hall as [|t x texts xs Hx Hall]; [contradiction|].
    destruct (define_flags_returned name m w0 w1 r Hu Hclosed H)
      as (_ & Hinv & Hprog).
    pose proof (leaves_of_leaves m Hu) as Hls.
    pose proof (leaf_at_leaves _ _ _ Hleaf) as Hin.
    pose proof Hinv as [(shared & Hv & Hrel & Hflags) _].
    destruct (Hflags p _ Hin) as (f & Hf & (Hatt & Hcls & Hpar) & Hg).
    destruct (made_flags _ _ _ _ _ _ Hprog p _ Hin) as (_ & f2 & Hf2 & _ & _ & H0).
    rewrite Hf in Hf2. injection Hf2 as <-. simpl in Hcls, Hpar.
    assert (Hparse : _parse (lists w1) f (VStr t) = Return (VList [x]))
      by (apply _parse_occurrence; [exact Hcls|now rewrite Hpar]).
    assert (Hy : value_after_parse (lists w1) f (VList [x])
                 = Some (VList [x], lists w1)).
    { unfold value_after_parse. now rewrite Hcls, H0. }
    destruct (override_leaf name m r w1 p _ t f shared _ _ _
                Hleaf Hf Hatt Hv Hrel Hparse Hy) as (shared1 & Hov & _ & _).
    pose proof (step_invariant name m r _ (Override (dotted (name :: p)) t) w1
                  Hls Hinv) as Hinv1.
    cbn [step] in Hinv1. rewrite Hov in Hinv1. cbn [snd] in Hinv1.
    destruct (occurrences_extend name m r _ p it Hls Hin texts xs Hall _
                (overridden f (VList [x]) (VList [x])) [x] Hinv1)
      as (w' & f' & shared' & Hocc & _ & _ & _ & _ & Hv' & Hg' & _).
    { cbn [registry set_registry]. now rewrite lookup_insert_eq. }
    { cbn [overridden present set_using_default_value set_present].
      unfold present_after_parse. rewrite Hcls. simpl. lia. }
    { reflexivity. }
    exists w', shared'. cbn [occurrences]. unfold bind. rewrite Hov.
    split; [exact Hocc|]. split; [exact Hv'|exact Hg'].
  - intros events p it t x Hleaf Hx.
    destruct (leaf_after_events name m w0 w1 r events p _ Hu Hclosed H Hleaf)
      as (f & shared & Hf & Hv & Hrel & (Hatt & Hcls & Hpar) & Hg & _).
    simpl in Hcls, Hpar.
    exists f, shared. split; [exact Hf|]. split; [exact Hv|]. split; [exact Hg|].
    intros items Hitems.
    assert (Hlt : r < length (heap (run events w1))) by (eapply lookup_lt_Some; eauto).
    assert (Hparse : _parse (lists (run events w1)) f (VStr t) = Return (VList [x]))
      by (apply _parse_occurrence; [exact Hcls|now rewrite Hpar]).
    assert (Hy : value_after_parse (lists (run events w1)) f (VList [x])
                 = Some (VList (items ++ [x]), lists (run events w1))).
    { unfold value_after_parse. rewrite Hcls.
      destruct Hitems as [[H0 ->]|[H0 Hval]].
      - now rewrite H0.
      - rewrite Hval. destruct (Nat.eqb (present f) 0) eqn:E0; [|reflexivity].
        apply Nat.eqb_eq in E0. contradiction. }
    destruct (override_leaf name m r (run events w1) p _ t f shared _ _ _
                Hleaf Hf Hatt Hv Hrel Hparse Hy) as (shared1 & Hov & _ & Hg1).
    eexists _, shared1. split; [exact Hov|].
    cbn [heap lists set_registry set_lists set_heap].
    rewrite list_lookup_insert_eq by exact Hlt. auto.
Qed.

Lemma repeated_overrides_witness :
  exists w' shared,
    occurrences "cfg.tags" ["x"; "y"; "z"]
      (snd (define_flags "cfg" Samples.tagged empty_world))
    = (Return tt, w')
    /\ heap w' !! 0 = Some shared
    /\ get_path shared ["tags"] = Some (VList [VStr "x"; VStr "y"; VStr "z"]).
Proof.
  destruct (repeated_overrides "cfg" Samples.tagged empty_world
              (snd (define_flags "cfg" Samples.tagged empty_world))
              0 eq_refl (closed_new_world []) ltac:(vm_compute; reflexivity))
    as (_ & Hmulti & _).
  apply (Hmulti ["tags"] (Samples.item (VList [VStr "a"]) Samples.string_parser)
           ["x"; "y"; "z"] [VStr "x"; VStr "y"; VStr "z"]).
  - reflexivity.
  - discriminate.
  - repeat constructor.
Defined.


(* ===================================================================== *)
(** ** Further properties of the builder and of the entry point *)
(* ===================================================================== *)

(** X1.  For a definition with unique keys, what [_extract_defaults]
    returns has a dict with the same keys, in the same order, wherever the
    definition has one, and at every leaf exactly the [default] attribute
    of the leaf's descriptor. *)
Theorem extract_defaults_gives_defaults
    (m : list (string * node)) (defaults : list (string * pyval)) :
  unique_keys (DictNode m) = true ->
  _extract_defaults m = Return defaults ->
  mirrors (fun _ it => Some (default it)) m (VDict defaults).
Proof. apply extract_defaults_mirrors. Qed.

Lemma extract_defaults_gives_defaults_witness :
  mirrors (fun _ it => Some (default it)) Samples.image_settings
    (VDict [("mode", VStr "pad");
            ("sizes", VDict [("width", VInt 5); ("height", VInt 7)])]).
Proof.
  apply (extract_defaults_gives_defaults Samples.image_settings); reflexivity.
Defined.

Lemma extract_defaults_returns_iff_aux (m : list (string * node)) :
  (exists defaults, _extract_defaults m = Return defaults) <->
  other_types (DictNode m) = [].
Proof.
  split.
  - intros [defaults H]. apply (other_types_of_extract _ (VDict defaults)).
    rewrite extract_value_dict, H. reflexivity.
  - intros H. destruct (extract_value_other (DictNode m)) as [_ Hok].
    destruct (Hok H) as [v Hv]. rewrite extract_value_dict in Hv.
    destruct (_extract_defaults m) as [defaults|e]; [eauto|discriminate].
Qed.

(** X2.  [_extract_defaults] returns exactly when the definition holds no
    value other than dicts, [Item]s and [MultiItem]s: a foreign value is
    its only cause of failure. *)
Theorem extract_defaults_returns_iff (m : list (string * node)) :
  (exists defaults, _extract_defaults m = Return defaults) <->
  other_types (DictNode m) = [].
Proof.
  split.
  - intros [defaults H]. apply (other_types_of_extract _ (VDict defaults)).
    rewrite extract_value_dict, H. reflexivity.
  - intros H. destruct (extract_value_other (DictNode m)) as [_ Hok].
    destruct (Hok H) as [v Hv]. rewrite extract_value_dict in Hv.
    destruct (_extract_defaults m) as [defaults|e]; [eauto|discriminate].
Qed.

(** X3.  A definition that holds a foreign value makes [define_flags], and
    [DEFINE_dict] called with a name (and possibly a [FlagValues]), raise
    the [TypeError] of [_extract_defaults] before anything is allocated or
    registered: the state is the one before the call. *)
Theorem foreign_value_fails_before_registration
    (name : string) (m : list (string * node)) (w : World)
    (type_name : string) (rest : list string) :
  other_types (DictNode m) = type_name :: rest ->
  define_flags name m w
  = (Raise (Exception TypeError (found_type_message type_name)), w)
  /\ DEFINE_dict [StrArg name] m w
     = (Raise (Exception TypeError (found_type_message type_name)), w)
  /\ DEFINE_dict [StrArg name; FlagValuesArg] m w
     = (Raise (Exception TypeError (found_type_message type_name)), w).
Proof.
  intros H.
  pose proof (extract_defaults_reports_type_aux m type_name rest H) as Hx.
  assert (Hd : define_flags name m w
               = (Raise (Exception TypeError (found_type_message type_name)), w))
    by (now rewrite define_flags_eq, Hx).
  split; [exact Hd|].
  assert (Hm : m <> []) by (intros ->; discriminate).
  split.
  - rewrite (DEFINE_dict_eq _ name m w (or_introl eq_refl) Hm). now rewrite Hd.
  - rewrite (DEFINE_dict_eq _ name m w (or_intror eq_refl) Hm). now rewrite Hd.
Qed.

Lemma foreign_value_fails_before_registration_witness :
  DEFINE_dict [StrArg "cfg"]
    [("mode", ItemNode (Samples.item (VStr "pad") Samples.string_parser));
     ("size", OtherNode "int")] empty_world
  = (Raise (Exception TypeError (found_type_message "int")), empty_world).
Proof.
  apply (foreign_value_fails_before_registration "cfg"
           [("mode", ItemNode (Samples.item (VStr "pad") Samples.string_parser));
            ("size", OtherNode "int")] empty_world "int" []).
  reflexivity.
Defined.

(** X4.  [DEFINE_dict] accepts one positional argument that is a string,
    optionally followed by a [FlagValues], together with at least one
    keyword argument.  Any other call raises a [ValueError] and leaves the
    state as it was; and a call that returns was of the accepted form, the
    holder carrying the name given first. *)
Theorem DEFINE_dict_checks_arguments
    (args : list argument) (kwargs : list (string * node)) (w : World) :
  (kwargs = [] \/
   ~ (exists name, args = [StrArg name] \/ args = [StrArg name; FlagValuesArg]) ->
   exists e, DEFINE_dict args kwargs w = (Raise e, w) /\ exn_type e = ValueError) /\
  (forall h w',
      DEFINE_dict args kwargs w = (Return h, w') ->
      kwargs <> []
      /\ exists name,
           (args = [StrArg name] \/ args = [StrArg name; FlagValuesArg])
           /\ holder_name h = name).
Proof.
  split.
  - intros H. unfold DEFINE_dict.
    destruct args as [|arg0 args']; [exists no_positional; split; reflexivity|].
    destruct kwargs as [|kw kwargs']; [exists no_keyword; split; reflexivity|].
    destruct H as [H|H]; [discriminate|].
    destruct args' as [|arg1 [|arg2 args'']].
    + destruct arg0 as [name| |tn];
        [exfalso; apply H; exists name; now left
        |eexists; split; reflexivity
        |eexists; split; reflexivity].
    + destruct arg0 as [name| |tn];
        [|eexists; split; reflexivity|eexists; split; reflexivity].
      destruct arg1 as [s| |tn];
        [eexists; split; reflexivity
        |exfalso; apply H; exists name; now right
        |eexists; split; reflexivity].
    + exists too_many_positional. split; reflexivity.
  - intros h w' H.
    split; [intros ->; destruct args; discriminate|].
    destruct (DEFINE_dict_guards args kwargs w w' (Return h) H)
      as [(name & Hargs & Hm)|(_ & text & Ht)]; [|discriminate].
    exists name. split; [exact Hargs|].
    rewrite (DEFINE_dict_eq args name kwargs w Hargs Hm) in H.
    destruct (define_flags name kwargs w) as [[r|e] w1]; [|discriminate].
    rewrite DEFINE_flag_eq in H.
    destruct (refusal w1 _); [discriminate|]. now injection H as <- _.
Qed.

Lemma DEFINE_dict_checks_arguments_witness :
  exists e,
    DEFINE_dict [OtherArg "int"; StrArg "cfg"] Samples.image_settings empty_world
    = (Raise e, empty_world)
    /\ exn_type e = ValueError.
Proof.
  apply (DEFINE_dict_checks_arguments [OtherArg "int"; StrArg "cfg"]
           Samples.image_settings empty_world).
  right. intros [name [H|H]]; discriminate.
Defined.

(* ===================================================================== *)

(* ===================================================================== *)
(** ** Further properties of the write-through *)
(* ===================================================================== *)

Lemma descend_cons (d : pyval) (k : string) (names : list string) :
  descend d (k :: names) =
  match getitem d k with
  | Return d' => let (o, n) := descend d' names in (o, S n)
  | Raise e => (Raise e, 1)
  end.
Proof. reflexivity. Qed.

Lemma store_path_descend_raise (rest : list string) :
  forall d k v e n,
    descend d (removelast (k :: rest)) = (Raise e, n) ->
    store_path d k rest v = Raise e.
Proof.
  induction rest as [|k' rest IH]; intros d k v e n H.
  - simpl in H. discriminate.
  - change (removelast (k :: k' :: rest)) with (k :: removelast (k' :: rest)) in H.
    rewrite descend_cons in H. simpl store_path.
    destruct (getitem d k) as [d'|e'].
    + destruct (descend d' (removelast (k' :: rest))) as [o n'] eqn:Ed.
      injection H as -> _. simpl. now rewrite (IH d' k' v e n' Ed).
    + now injection H as -> _.
Qed.

Lemma store_path_descend_other (rest : list string) :
  forall d k v d1 n,
    descend d (removelast (k :: rest)) = (Return d1, n) ->
    (forall es, d1 <> VDict es) ->
    store_path d k rest v = Raise no_item_assignment.
Proof.
  induction rest as [|k' rest IH]; intros d k v d1 n H Hd1.
  - simpl in H. injection H as <- _. simpl.
    destruct d; try reflexivity. exfalso. eapply Hd1. reflexivity.
  - change (removelast (k :: k' :: rest)) with (k :: removelast (k' :: rest)) in H.
    rewrite descend_cons in H. simpl store_path.
    destruct (getitem d k) as [d'|e']; [|discriminate].
    destruct (descend d' (removelast (k' :: rest))) as [o n'] eqn:Ed.
    injection H as -> _. simpl. now rewrite (IH d' k' v d1 n' Ed Hd1).
Qed.

(** X5.  The ways [_update_shared_dict] fails, for a flag whose wrapper
    refers to allocated dicts only: with an empty namespace it raises
    [IndexError]; when the walk through all segments but the last raises (a
    [KeyError] for a missing key, a [TypeError] for a value that cannot be
    indexed), it raises that exception; when the walk ends at a value
    that is not a dict, it raises the [TypeError] of the item assignment.
    In each case neither the flag nor the heap has changed. *)
Theorem update_shared_dict_failures (f : leaf_flag) (heap : list pyval) :
  (forall k r, dict_get (_shared_dict f) k = Some (Alias r) -> r < length heap) ->
  (_namespace f = [] ->
   _update_shared_dict (f, heap) = (Raise tuple_index_out_of_range, (f, heap))) /\
  (forall e n,
      _namespace f <> [] ->
      descend (view (_shared_dict f) heap) (removelast (_namespace f)) = (Raise e, n) ->
      _update_shared_dict (f, heap) = (Raise e, (f, heap))) /\
  (forall d n,
      _namespace f <> [] ->
      descend (view (_shared_dict f) heap) (removelast (_namespace f)) = (Return d, n) ->
      (forall es, d <> VDict es) ->
      _update_shared_dict (f, heap) = (Raise no_item_assignment, (f, heap))).
Proof.
  intros Hclosed. unfold _update_shared_dict. split; [|split].
  - intros ->. reflexivity.
  - intros e n Hne H. destruct (_namespace f) as [|k [|k' rest]]; [contradiction| |].
    + simpl in H. discriminate.
    + change (removelast (k :: k' :: rest)) with (k :: removelast (k' :: rest)) in H.
      rewrite descend_cons in H. cbn [getitem view] in H.
      rewrite (dict_get_map (deref heap)) in H.
      destruct (dict_get (_shared_dict f) k) as [[r|d]|] eqn:Ek.
      * pose proof (Hclosed k r Ek) as Hlt. cbn [deref] in H.
        destruct (heap !! r) as [d|] eqn:Er;
          [|apply lookup_ge_None in Er; lia].
        destruct (descend d (removelast (k' :: rest))) as [o n'] eqn:Ed.
        injection H as -> _.
        now rewrite (store_path_descend_raise rest d k' (_value f) e n' Ed).
      * cbn [deref] in H.
        destruct (descend d (removelast (k' :: rest))) as [o n'] eqn:Ed.
        injection H as -> _.
        now rewrite (store_path_descend_raise rest d k' (_value f) e n' Ed).
      * now injection H as <- _.
  - intros d1 n Hne H Hd1.
    destruct (_namespace f) as [|k [|k' rest]]; [contradiction| |].
    + simpl in H. injection H as <- _. exfalso. eapply Hd1. reflexivity.
    + change (removelast (k :: k' :: rest)) with (k :: removelast (k' :: rest)) in H.
      rewrite descend_cons in H. cbn [getitem view] in H.
      rewrite (dict_get_map (deref heap)) in H.
      destruct (dict_get (_shared_dict f) k) as [[r|d]|] eqn:Ek; [| |discriminate].
      * pose proof (Hclosed k r Ek) as Hlt. cbn [deref] in H.
        destruct (heap !! r) as [d|] eqn:Er;
          [|apply lookup_ge_None in Er; lia].
        destruct (descend d (removelast (k' :: rest))) as [o n'] eqn:Ed.
        injection H as -> _.
        now rewrite (store_path_descend_other rest d k' (_value f) d1 n' Ed Hd1).
      * cbn [deref] in H.
        destruct (descend d (removelast (k' :: rest))) as [o n'] eqn:Ed.
        injection H as -> _.
        now rewrite (store_path_descend_other rest d k' (_value f) d1 n' Ed Hd1).
Qed.

Lemma update_shared_dict_failures_witness :
  _update_shared_dict
    (new_object _ItemFlag [("cfg", Alias 0)] ["cfg"; "sizes"; "height"]
       Samples.integer_parser ArgumentSerializer "cfg.sizes.height" "Height.",
     [VDict [("mode", VStr "pad")]])
  = (Raise (Exception KeyError (Text "sizes")),
     (new_object _ItemFlag [("cfg", Alias 0)] ["cfg"; "sizes"; "height"]
        Samples.integer_parser ArgumentSerializer "cfg.sizes.height" "Height.",
      [VDict [("mode", VStr "pad")]])).
Proof.
  destruct (update_shared_dict_failures
              (new_object _ItemFlag [("cfg", Alias 0)] ["cfg"; "sizes"; "height"]
                 Samples.integer_parser ArgumentSerializer "cfg.sizes.height" "Height.")
              [VDict [("mode", VStr "pad")]]) as (_ & H & _).
  - intros k r Hk. cbn [dict_get _shared_dict new_object] in Hk.
    destruct (String.eqb "cfg" k); [|discriminate]. injection Hk as <-. simpl. lia.
  - apply (H _ 2); [discriminate|reflexivity].
Defined.

Lemma dict_set_idem {A : Type} (d : list (string * A)) k v :
  dict_set (dict_set d k v) k v = dict_set d k v.
Proof.
  induction d as [|[k0 v0] d IH]; simpl.
  - now rewrite String.eqb_refl.
  - destruct (String.eqb k0 k) eqn:E; simpl.
    + now rewrite String.eqb_refl.
    + now rewrite E, IH.
Qed.

Lemma store_path_idem (rest : list string) :
  forall d k v d',
    store_path d k rest v = Return d' -> store_path d' k rest v = Return d'.
Proof.
  induction rest as [|k' rest IH]; intros d k v d' H.
  - simpl in *. destruct d; try discriminate. injection H as <-.
    simpl. now rewrite dict_set_idem.
  - simpl in H. destruct d; try discriminate. simpl in H.
    destruct (dict_get entries k) as [d1|] eqn:E1; [|discriminate]. simpl in H.
    destruct (store_path d1 k' rest v) as [d1'|] eqn:Es; [|discriminate].
    simpl in H. injection H as <-.
    simpl. rewrite dict_get_set_eq. simpl.
    rewrite (IH d1 k' v d1' Es). simpl. now rewrite dict_set_idem.
Qed.

(** X6.  [_update_shared_dict] is idempotent: run again on the state a
    successful run left, it returns and changes nothing.  (The [parse] of
    a single-valued flag runs it twice, once through the setter.) *)
Theorem update_shared_dict_idempotent
    (f f' : leaf_flag) (heap heap' : list pyval) :
  _update_shared_dict (f, heap) = (Return tt, (f', heap')) ->
  _update_shared_dict (f', heap') = (Return tt, (f', heap')).
Proof.
  unfold _update_shared_dict. intros H.
  destruct (_namespace f) as [|k [|k' rest]] eqn:Ens; [discriminate| |].
  - injection H as <- <-. simpl. rewrite Ens. simpl. now rewrite dict_set_idem.
  - destruct (dict_get (_shared_dict f) k) as [[r|d]|] eqn:Ek; [| |discriminate].
    + destruct (heap !! r) as [d|] eqn:Er; [|discriminate].
      destruct (store_path d k' rest (_value f)) as [d'|] eqn:Es; [|discriminate].
      injection H as <- <-. rewrite Ens, Ek.
      rewrite list_lookup_insert_eq by (eapply lookup_lt_Some; eauto).
      rewrite (store_path_idem rest d k' (_value f) d' Es).
      now rewrite list_insert_insert_eq.
    + destruct (store_path d k' rest (_value f)) as [d'|] eqn:Es; [|discriminate].
      injection H as <- <-. simpl. rewrite Ens, dict_get_set_eq.
      rewrite (store_path_idem rest d k' (_value f) d' Es). simpl.
      now rewrite dict_set_idem.
Qed.

Lemma update_shared_dict_idempotent_witness :
  _update_shared_dict
    (set__value (VInt 10)
       (new_object _ItemFlag [("cfg", Alias 0)] ["cfg"; "height"]
          Samples.integer_parser ArgumentSerializer "cfg.height" "Height."),
     [VDict [("height", VInt 10)]])
  = (Return tt,
     (set__value (VInt 10)
        (new_object _ItemFlag [("cfg", Alias 0)] ["cfg"; "height"]
           Samples.integer_parser ArgumentSerializer "cfg.height" "Height."),
      [VDict [("height", VInt 10)]])).
Proof.
  apply (update_shared_dict_idempotent
           (set__value (VInt 10)
              (new_object _ItemFlag [("cfg", Alias 0)] ["cfg"; "height"]
                 Samples.integer_parser ArgumentSerializer "cfg.height" "Height."))
           _ [VDict [("height", VInt 7)]]).
  reflexivity.
Defined.

Lemma parse_refused (f : leaf_flag) (heap : list pyval) (lists : list_store)
    (argument : pyval) (e : exn) :
  _parse lists f argument = Raise e ->
  parse argument ((f, heap), lists) = (Raise e, ((f, heap), lists)).
Proof.
  intros H. rewrite parse_eq. unfold _parse in H.
  destruct (class_of f) eqn:Ecls.
  - unfold keeping_lists. cbn [fst snd]. rewrite Flag_parse_eq. unfold _parse.
    now rewrite Ecls, H.
  - rewrite MultiFlag_parse_eq. unfold MultiFlag__parse in H.
    destruct (parse_each (Flag__parse f) (multi_arguments lists argument));
      [discriminate|].
    simpl in H. now injection H as ->.
Qed.

Lemma world_insert_same (w : World) (n : string) (fl : flag) :
  registry w !! n = Some fl ->
  set_registry (<[n := fl]> (registry w)) (set_lists (lists w) (set_heap (heap w) w))
  = w.
Proof.
  intros H. unfold set_registry, set_lists, set_heap. cbn.
  rewrite insert_id by exact H. now destruct w.
Qed.

(** X7.  An override that the leaf's [_parse] refuses raises and leaves
    the whole state as it was: the flag, the registry, every shared
    mapping and every list object.  For a single-valued leaf whose parser
    raised a [TypeError] or a [ValueError], what is raised is the
    [IllegalFlagValueError] made by [flags.Flag._parse] from the flag's
    name, the text and the parser's message. *)
Theorem refused_override_changes_nothing
    (w : World) (flag_name text : string) (f : leaf_flag) :
  registry w !! flag_name = Some (Leaf f) ->
  (forall e, _parse (lists w) f (VStr text) = Raise e ->
             override flag_name text w = (Raise e, w)) /\
  (forall e0,
      class_of f = _ItemFlag ->
      flag_parser f (VStr text) = Raise e0 ->
      exn_type e0 = TypeError \/ exn_type e0 = ValueError ->
      override flag_name text w
      = (Raise (Exception IllegalFlagValueError
                  (FlagMessage (name f) (VStr text) (exn_message e0))), w)).
Proof.
  intros Hf.
  assert (Hgen : forall e, _parse (lists w) f (VStr text) = Raise e ->
                           override flag_name text w = (Raise e, w)).
  { intros e He. unfold override. rewrite Hf. unfold on_leaf, bind.
    rewrite (parse_refused f (heap w) (lists w) (VStr text) e He).
    now rewrite world_insert_same. }
  split; [exact Hgen|].
  intros e0 Hcls Hp Hty. apply Hgen. unfold _parse, Flag__parse.
  rewrite Hcls, Hp. destruct Hty as [-> | ->]; reflexivity.
Qed.

Lemma refused_override_changes_nothing_witness :
  override "image_settings.sizes.height" "tall"
    (snd (define_flags "image_settings" Samples.image_settings empty_world))
  = (Raise (Exception IllegalFlagValueError
              (FlagMessage "image_settings.sizes.height" (VStr "tall")
                 (Text "invalid literal for int()"))),
     snd (define_flags "image_settings" Samples.image_settings empty_world)).
Proof.
  destruct (refused_override_changes_nothing
              (snd (define_flags "image_settings" Samples.image_settings empty_world))
              "image_settings.sizes.height" "tall"
              (constructed _ItemFlag [("image_settings", Alias 0)]
                 ["image_settings"; "sizes"; "height"] Samples.integer_parser
                 ArgumentSerializer "image_settings.sizes.height" "help"
                 (VInt 7) (VInt 7) (Some (StrOf (VInt 7)))))
    as [_ H].
  - vm_compute. reflexivity.
  - apply (H (Exception ValueError (Text "invalid literal for int()")));
      [reflexivity|reflexivity|now right].
Defined.

(* ===================================================================== *)
(** ** The holder returned by [DEFINE_dict] *)
(* ===================================================================== *)

Lemma DEFINE_dict_registers (args : list argument) (m : list (string * node))
    (w0 w2 : World) (h : FlagHolder) :
  DEFINE_dict args m w0 = (Return h, w2) ->
  exists name r w1,
    names_root args name
    /\ define_flags name m w0 = (Return r, w1)
    /\ h = {| holder_name := name; ensure_non_none_value := true |}
    /\ refusal w1 name = None
    /\ w2 = set_registry (<[name := Aggregate (root_flag name r)]> (registry w1)) w1.
Proof.
  intros H.
  destruct (DEFINE_dict_guards args m w0 w2 (Return h) H)
    as [(name & Hargs & Hm)|(_ & text & Ht)]; [|discriminate].
  rewrite (DEFINE_dict_eq args name m w0 Hargs Hm) in H.
  destruct (define_flags name m w0) as [[r|e] w1] eqn:Ed; [|discriminate].
  rewrite DEFINE_flag_eq in H. cbn [flag_name root_flag dict_name] in H.
  destruct (refusal w1 name) eqn:Er; [discriminate|].
  injection H as <- <-. exists name, r, w1. auto.
Qed.

Lemma DEFINE_dict_invariant (args : list argument) (m : list (string * node))
    (w0 w2 : World) (h : FlagHolder) :
  unique_keys (DictNode m) = true ->
  closed w0 ->
  DEFINE_dict args m w0 = (Return h, w2) ->
  exists r,
    invariant (holder_name h) m r (leaves (DictNode m)) w2
    /\ aggregate_ok (holder_name h) r w2
    /\ ensure_non_none_value h = true.
Proof.
  intros Hu Hclosed H.
  apply DEFINE_dict_registers in H
    as (name & r & w1 & _ & Hd & -> & Hfresh & ->).
  apply refusal_registered in Hfresh.
  destruct (define_flags_returned name m w0 w1 r Hu Hclosed Hd)
    as (_ & [(v & Hv & Hrel & Hflags) Hown] & _).
  exists r. cbn [holder_name ensure_non_none_value]. split; [split|split].
  - exists v. cbn [heap registry set_registry].
    split; [exact Hv|]. split; [exact Hrel|].
    intros p c Hin. destruct (Hflags p c Hin) as (f & Hf & Hrest).
    exists f. split; [|exact Hrest].
    rewrite lookup_insert_ne; [exact Hf|]. intros Heq.
    rewrite <- Heq, Hfresh in Hf. discriminate.
  - cbn [registry set_registry]. intros n f Hn Hal.
    destruct (String.eqb name n) eqn:E.
    + apply String.eqb_eq in E. subst n. rewrite lookup_insert_eq in Hn. discriminate.
    + apply String.eqb_neq in E. rewrite lookup_insert_ne in Hn by exact E.
      eapply Hown; eauto.
  - exists (root_flag name r). cbn [registry set_registry].
    rewrite lookup_insert_eq. auto.
  - reflexivity.
Qed.

(** An event on a leaf flag leaves the other names of the registry. *)
Lemma on_leaf_other {A : Type} (n n' : string) (f : leaf_flag)
    (mth : list_method A) (w : World) :
  n <> n' ->
  registry (snd (on_leaf n f mth w)) !! n' = registry w !! n'.
Proof.
  intros Hn. unfold on_leaf.
  destruct (mth (f, heap w, lists w)) as [o [[f' heap'] lists']].
  simpl. now rewrite lookup_insert_ne.
Qed.

(** The dict flag stays registered, with its shared dict, whatever the
    events. *)
Lemma step_aggregate_kept (name : string) (r : ref) (e : event) (w : World) :
  aggregate_kept name r w -> aggregate_kept name r (snd (step e w)).
Proof.
  intros (d & Hd & Hsd).
  assert (Hleaf : forall A n f (mth : list_method A),
             registry w !! n = Some (Leaf f) ->
             aggregate_kept name r (snd (on_leaf n f mth w))).
  { intros A n f mth Hn. exists d. split; [|exact Hsd].
    rewrite on_leaf_other; [exact Hd|]. intros ->. rewrite Hd in Hn. discriminate. }
  assert (Hins : forall n d0 d',
             registry w !! n = Some (Aggregate d0) ->
             dict_shared_dict d' = dict_shared_dict d0 ->
             aggregate_kept name r
               (set_registry (<[n := Aggregate d']> (registry w)) w)).
  { intros n d0 d' Hn Heq. destruct (String.eqb n name) eqn:E.
    - apply String.eqb_eq in E. subst n. rewrite Hd in Hn. injection Hn as <-.
      exists d'. cbn [registry set_registry]. rewrite lookup_insert_eq.
      split; [reflexivity|congruence].
    - apply String.eqb_neq in E. exists d. cbn [registry set_registry].
      now rewrite lookup_insert_ne by exact E. }
  destruct e as [n value|n value|items|]; simpl;
    try (exists d; split; assumption).
  - unfold override. destruct (registry w !! n) as [[f|d0]|] eqn:En.
    + now apply Hleaf.
    + unfold _DictFlag_parse.
      destruct (_DictFlag__parse d0 (Value (VStr value))); simpl.
      * now apply (Hins n d0).
      * exists d. auto.
    + exists d. auto.
  - unfold assign. destruct (registry w !! n) as [[f|d0]|] eqn:En.
    + now apply Hleaf.
    + simpl. now apply (Hins n d0).
    + exists d. auto.
Qed.

Lemma run_aggregate_kept (name : string) (r : ref) (events : list event) :
  forall w, aggregate_kept name r w -> aggregate_kept name r (run events w).
Proof.
  induction events as [|e events IH]; intros w H; simpl; [exact H|].
  apply IH. now apply step_aggregate_kept.
Qed.

(** Its value stays the shared dict as long as the program assigns
    nothing to it. *)
Lemma step_aggregate (name : string) (r : ref) (e : event) (w : World) :
  (forall v, e <> Assign name v) ->
  aggregate_ok name r w -> aggregate_ok name r (snd (step e w)).
Proof.
  intros He (d & Hd & Hsd & Hdv).
  assert (Hleaf : forall A n f (mth : list_method A),
             registry w !! n = Some (Leaf f) ->
             aggregate_ok name r (snd (on_leaf n f mth w))).
  { intros A n f mth Hn. exists d. split; [|auto].
    rewrite on_leaf_other; [exact Hd|]. intros ->. rewrite Hd in Hn. discriminate. }
  destruct e as [n value|n value|items|]; simpl;
    try (exists d; repeat split; assumption).
  - unfold override. destruct (registry w !! n) as [[f|d0]|] eqn:En.
    + now apply Hleaf.
    + unfold _DictFlag_parse.
      destruct (_DictFlag__parse d0 (Value (VStr value))) as [v|e] eqn:Ep; simpl;
        [|exists d; auto].
      destruct (String.eqb n name) eqn:E.
      * apply String.eqb_eq in E. subst n. rewrite Hd in En. injection En as <-.
        eexists. cbn [registry set_registry]. rewrite lookup_insert_eq.
        split; [reflexivity|]. cbn.
        unfold _DictFlag__parse in Ep.
        destruct (is_shared_dict d (Value (VStr value))
                  || equals_EMPTY (Value (VStr value))); [|discriminate].
        injection Ep as <-. split; [exact Hsd|]. now rewrite Hsd.
      * apply String.eqb_neq in E. exists d. cbn [registry set_registry].
        rewrite lookup_insert_ne by exact E. auto.
    + exists d. auto.
  - unfold assign. destruct (registry w !! n) as [[f|d0]|] eqn:En.
    + now apply Hleaf.
    + destruct (String.eqb n name) eqn:E.
      * apply String.eqb_eq in E. subst n. exfalso. now apply (He value).
      * apply String.eqb_neq in E. exists d. cbn [snd registry set_registry].
        rewrite lookup_insert_ne by exact E. auto.
    + exists d. auto.
Qed.

Lemma run_aggregate (name : string) (r : ref) (events : list event) :
  (forall v, ~ In (Assign name v) events) ->
  forall w, aggregate_ok name r w -> aggregate_ok name r (run events w).
Proof.
  induction events as [|e events IH]; intros He w H; simpl; [exact H|].
  apply IH.
  - intros v Hv. apply (He v). now right.
  - apply step_aggregate; [|exact H]. intros v ->. apply (He v). now left.
Qed.

(** X8.  The value of the holder that [DEFINE_dict] returned is a live
    view.  After any sequence of overrides and assignments, raised
    exceptions included, in which the program assigns nothing to the
    dict flag itself, and once the flags have been parsed, the holder
    gives the shared dict, which is a mapping with the keys and the
    nesting of the definition in which every leaf holds the current value
    of the flag registered under the leaf's dotted name. *)
Theorem holder_shows_current_values
    (args : list argument) (m : list (string * node)) (w0 w2 : World)
    (h : FlagHolder) :
  unique_keys (DictNode m) = true ->
  closed w0 ->
  DEFINE_dict args m w0 = (Return h, w2) ->
  forall events,
    (forall v, ~ In (Assign (holder_name h) v) events) ->
    flags_parsed (run events w2) = true ->
    exists o shared,
      holder_value h (run events w2) = Return o
      /\ contents (run events w2) o = Some shared
      /\ (forall path entries,
             node_at (DictNode m) path = Some (DictNode entries) ->
             exists es, get_path shared path = Some (VDict es)
                        /\ keys es = keys entries)
      /\ (forall path c,
             leaf_at (DictNode m) path = Some c ->
             exists f,
               registry (run events w2) !! dotted (holder_name h :: path)
               = Some (Leaf f)
               /\ get_path shared path = Some (_value f)).
Proof.
  intros Hu Hclosed H events Hev Hparsed.
  destruct (DEFINE_dict_invariant args m w0 w2 h Hu Hclosed H)
    as (r & Hinv & Hagg & Hens).
  pose proof (run_invariant _ m r _ events (leaves_of_leaves m Hu) w2 Hinv)
    as [(v & Hv & Hrel & Hflags) _].
  destruct (run_aggregate _ r events Hev w2 Hagg) as (d & Hd & _ & Hdv).
  exists (Object r), v. split; [|split; [exact Hv|split]].
  - unfold holder_value. rewrite Hd, Hparsed. cbn [orb flag_value].
    rewrite Hdv. cbn [is_None]. now rewrite andb_false_r.
  - intros path entries Hat. eapply related_containers; eauto.
  - intros path c Hleaf.
    destruct (Hflags path c (leaf_at_leaves _ _ _ Hleaf)) as (f & Hf & _ & Hg).
    eauto.
Qed.

Lemma holder_shows_current_values_witness :
  exists o shared,
    holder_value {| holder_name := "image_settings"; ensure_non_none_value := true |}
      (run [Override "image_settings.sizes.height" "10";
            Override "image_settings.sizes.width" "wide";
            MarkAsParsed;
            Assign "image_settings.mode" (VStr "crop")]
         (snd (DEFINE_dict [StrArg "image_settings"] Samples.image_settings
                 empty_world)))
    = Return o
    /\ contents
         (run [Override "image_settings.sizes.height" "10";
               Override "image_settings.sizes.width" "wide";
               MarkAsParsed;
               Assign "image_settings.mode" (VStr "crop")]
            (snd (DEFINE_dict [StrArg "image_settings"] Samples.image_settings
                    empty_world))) o
       = Some shared
    /\ get_path shared ["sizes"; "height"] = Some (VInt 10)
    /\ get_path shared ["mode"] = Some (VStr "crop").
Proof.
  destruct (holder_shows_current_values [StrArg "image_settings"]
              Samples.image_settings empty_world
              (snd (DEFINE_dict [StrArg "image_settings"] Samples.image_settings
                      empty_world))
              {| holder_name := "image_settings"; ensure_non_none_value := true |}
              eq_refl (closed_new_world []) ltac:(vm_compute; reflexivity)
              [Override "image_settings.sizes.height" "10";
               Override "image_settings.sizes.width" "wide";
               MarkAsParsed;
               Assign "image_settings.mode" (VStr "crop")])
    as (o & shared & Hh & Hc & _ & _).
  - intros v [H|[H|[H|[H|[]]]]]; discriminate.
  - vm_compute. reflexivity.
  - exists o, shared. split; [exact Hh|]. split; [exact Hc|].
    vm_compute in Hh. injection Hh as <-.
    vm_compute in Hc. injection Hc as <-. split; reflexivity.
Defined.

(** X9.  The dict flag's own serialization is accepted by its parser at
    any time: after [DEFINE_dict] and any overrides and assignments, an
    override of the root name with what [_DictFlag.serialize] returns
    comes back normally; the dict objects, the list objects and all
    other flags are as before, and the dict flag's value is then the
    shared dict, which its holder gives. *)
Theorem dict_flag_serialization_round_trip
    (args : list argument) (m : list (string * node)) (w0 w2 : World)
    (h : FlagHolder) :
  DEFINE_dict args m w0 = (Return h, w2) ->
  forall events,
    exists r d d' w3,
      registry (run events w2) !! holder_name h = Some (Aggregate d)
      /\ dict_shared_dict d = r
      /\ override (holder_name h) (_DictFlag_serialize d) (run events w2)
         = (Return tt, w3)
      /\ heap w3 = heap (run events w2)
      /\ lists w3 = lists (run events w2)
      /\ registry w3 !! holder_name h = Some (Aggregate d')
      /\ dict_value d' = Object r
      /\ holder_value h w3 = Return (Object r)
      /\ forall other, other <> holder_name h ->
                       registry w3 !! other = registry (run events w2) !! other.
Proof.
  intros H events.
  apply DEFINE_dict_registers in H
    as (name & r & w1 & _ & _ & -> & _ & ->).
  cbn [holder_name].
  assert (Hagg : aggregate_kept name r
                   (set_registry (<[name := Aggregate (root_flag name r)]>
                                    (registry w1)) w1)).
  { exists (root_flag name r). cbn [registry set_registry].
    rewrite lookup_insert_eq. auto. }
  apply (run_aggregate_kept name r events) in Hagg.
  destruct Hagg as (d & Hd & Hsd).
  exists r, d. unfold override. rewrite Hd.
  unfold _DictFlag_parse, _DictFlag__parse, _DictFlag_serialize.
  cbn [equals_EMPTY is_shared_dict orb obind].
  rewrite String.eqb_refl. cbn [obind].
  eexists _, _. split; [reflexivity|]. split; [exact Hsd|].
  split; [reflexivity|]. cbn [heap lists registry set_registry].
  split; [reflexivity|]. split; [reflexivity|].
  rewrite lookup_insert_eq. split; [reflexivity|].
  cbn [set_dict_using_default_value dict_value]. split; [now rewrite Hsd|].
  split.
  - unfold holder_value. cbn [holder_name registry set_registry].
    rewrite lookup_insert_eq.
    cbn [flag_present flag_value set_dict_using_default_value dict_present
         dict_value Nat.eqb negb ensure_non_none_value is_None andb].
    rewrite orb_true_r. now rewrite Hsd.
  - intros other Hne. now rewrite lookup_insert_ne.
Qed.

Lemma dict_flag_serialization_round_trip_witness :
  exists r d d' w3,
    registry (run [Override "image_settings.mode" "crop";
                   Assign "image_settings" (VStr "oops")]
                (snd (DEFINE_dict [StrArg "image_settings"] Samples.image_settings
                        empty_world)))
      !! "image_settings" = Some (Aggregate d)
    /\ dict_value d = Value (VStr "oops")
    /\ override "image_settings" (_DictFlag_serialize d)
         (run [Override "image_settings.mode" "crop";
               Assign "image_settings" (VStr "oops")]
            (snd (DEFINE_dict [StrArg "image_settings"] Samples.image_settings
                    empty_world)))
       = (Return tt, w3)
    /\ registry w3 !! "image_settings" = Some (Aggregate d')
    /\ dict_value d' = Object r
    /\ heap w3
       = [VDict [("mode", VStr "crop");
                 ("sizes", VDict [("width", VInt 5); ("height", VInt 7)])]].
Proof.
  destruct (dict_flag_serialization_round_trip [StrArg "image_settings"]
              Samples.image_settings empty_world
              (snd (DEFINE_dict [StrArg "image_settings"] Samples.image_settings
                      empty_world))
              {| holder_name := "image_settings"; ensure_non_none_value := true |}
              ltac:(vm_compute; reflexivity)
              [Override "image_settings.mode" "crop";
               Assign "image_settings" (VStr "oops")])
    as (r & d & d' & w3 & Hd & _ & Hov & Hheap & _ & Hd' & Hv' & _).
  exists r, d, d', w3. split; [exact Hd|]. split.
  { vm_compute in Hd. injection Hd as <-. reflexivity. }
  split; [exact Hov|]. split; [exact Hd'|]. split; [exact Hv'|].
  rewrite Hheap. vm_compute. reflexivity.
Defined.

(** X10.  When [define_flags] returns, no two leaves of the definition
    share a dotted name: the flags of distinct leaf paths are registered
    under distinct names, each flag carrying the namespace of its leaf. *)
Theorem leaves_get_distinct_names
    (name : string) (m : list (string * node)) (w0 w1 : World) (r : ref) :
  unique_keys (DictNode m) = true ->
  closed w0 ->
  define_flags name m w0 = (Return r, w1) ->
  forall p q c c',
    leaf_at (DictNode m) p = Some c ->
    leaf_at (DictNode m) q = Some c' ->
    (dotted (name :: p) = dotted (name :: q) -> p = q)
    /\ exists f, registry w1 !! dotted (name :: p) = Some (Leaf f)
                 /\ _namespace f = name :: p.
Proof.
  intros Hu Hclosed H p q c c' Hp Hq.
  destruct (define_flags_returned name m w0 w1 r Hu Hclosed H)
    as (_ & [(v & _ & _ & Hflags) _] & _).
  destruct (Hflags p c (leaf_at_leaves _ _ _ Hp)) as (f & Hf & ([Hns _] & _) & _).
  destruct (Hflags q c' (leaf_at_leaves _ _ _ Hq)) as (f' & Hf' & ([Hns' _] & _) & _).
  split; [|eauto].
  intros Heq. rewrite Heq, Hf' in Hf. injection Hf as ->. congruence.
Qed.

Lemma leaves_get_distinct_names_witness :
  (dotted ["image_settings"; "sizes"; "width"]
   = dotted ["image_settings"; "sizes"; "height"] ->
   ["sizes"; "width"] = ["sizes"; "height"])
  /\ exists f,
       registry (snd (define_flags "image_settings" Samples.image_settings
                        empty_world))
         !! dotted ["image_settings"; "sizes"; "width"] = Some (Leaf f)
       /\ _namespace f = ["image_settings"; "sizes"; "width"].
Proof.
  apply (leaves_get_distinct_names "image_settings" Samples.image_settings
           empty_world
           (snd (define_flags "image_settings" Samples.image_settings empty_world)) 0
           eq_refl (closed_new_world []) ltac:(vm_compute; reflexivity)
           ["sizes"; "width"] ["sizes"; "height"]
           (_ItemFlag, Samples.item (VInt 5) Samples.integer_parser)
           (_ItemFlag, Samples.item (VInt 7) Samples.integer_parser));
    reflexivity.
Defined.

Lemma parse_each_stable (p : parser) :
  stable p ->
  forall items vs, parse_each p items = Return vs -> parse_each p vs = Return vs.
Proof.
  intros Hp. induction items as [|item items IH]; intros vs H; simpl in H.
  - now injection H as <-.
  - apply obind_Return in H as (v & Hv & H).
    apply obind_Return in H as (vs' & Hvs & H). injection H as <-.
    simpl. rewrite (Hp _ _ Hv). simpl. rewrite (IH _ Hvs). reflexivity.
Qed.

(** A descriptor built by its constructor with a stable parser is given
    back its own default by the flag made from it. *)
Lemma built_stable_initial_value (lists0 lists : list_store) (cls : flag_class)
    (it : descriptor) :
  stable (_parser it) -> built lists0 cls it ->
  initial_value lists cls it = Some (default it).
Proof.
  intros Hp (d & h & s & H). unfold initial_value.
  destruct cls.
  - unfold Item__init__ in H. apply obind_Return in H as (x & Hx & H).
    injection H as <-. simpl in *.
    destruct d; try (injection Hx as <-; reflexivity);
      pose proof (Hp _ _ Hx) as Hxx;
      destruct x; try reflexivity; unfold parsed_by; now rewrite Hxx.
  - unfold MultiItem__init__ in H. apply obind_Return in H as (x & Hx & H).
    injection H as <-. simpl in *.
    destruct d; try (injection Hx as <-; reflexivity);
      apply obind_Return in Hx as (vs & Hvs & Hx); injection Hx as <-;
      simpl; now rewrite (parse_each_stable _ Hp _ _ Hvs).
Qed.

(** X11.  For a definition with unique keys whose descriptors were built
    by [Item.__init__] and [MultiItem.__init__] with parsers that return
    their own results unchanged, the mapping [define_flags] returns has
    the keys and nesting of the definition and exactly the descriptors'
    defaults at the leaves. *)
Theorem define_flags_keeps_defaults_of_stable_parsers
    (name : string) (m : list (string * node)) (w0 w1 : World) (r : ref) :
  unique_keys (DictNode m) = true ->
  closed w0 ->
  (forall path cls it,
      leaf_at (DictNode m) path = Some (cls, it) ->
      stable (_parser it) /\ exists lists0, built lists0 cls it) ->
  define_flags name m w0 = (Return r, w1) ->
  exists shared,
    heap w1 !! r = Some shared
    /\ mirrors (fun _ it => Some (default it)) m shared.
Proof.
  intros Hu Hclosed Hleaves H.
  destruct (define_flags_initial_values name m w0 w1 r Hu Hclosed H)
    as (shared & Hs & Hshape & Hvals).
  exists shared. split; [exact Hs|]. split; [exact Hshape|].
  intros path cls it Hleaf. destruct (Hvals path cls it Hleaf) as (v & Hv & Hg).
  destruct (Hleaves path cls it Hleaf) as [Hst [lists0 Hb]].
  rewrite (built_stable_initial_value lists0 _ cls it Hst Hb) in Hv.
  injection Hv as <-. eauto.
Qed.

Lemma stable_string_parser : stable Samples.string_parser.
Proof. intros x y H. destruct x; try discriminate. now injection H as <-. Qed.

Lemma stable_integer_parser : stable Samples.integer_parser.
Proof.
  intros x y H. destruct x; try discriminate.
  - now injection H as <-.
  - unfold Samples.integer_parser in H. destruct s; [discriminate|].
    destruct (Samples.decimal 0 (String a s)); [|discriminate].
    now injection H as <-.
Qed.

Lemma define_flags_keeps_defaults_of_stable_parsers_witness :
  exists shared,
    heap (snd (define_flags "image_settings" Samples.image_settings empty_world)) !! 0
    = Some shared
    /\ mirrors (fun _ it => Some (default it)) Samples.image_settings shared.
Proof.
  apply (define_flags_keeps_defaults_of_stable_parsers "image_settings"
           Samples.image_settings empty_world
           (snd (define_flags "image_settings" Samples.image_settings empty_world)) 0
           eq_refl (closed_new_world [])).
  - intros path cls it Hleaf. apply leaf_at_leaves in Hleaf. simpl in Hleaf.
    destruct Hleaf as [H|[H|[H|[]]]]; injection H as <- <- <-; simpl.
    + split; [exact stable_string_parser|].
      exists [], (VStr "pad"), "help", None. reflexivity.
    + split; [exact stable_integer_parser|].
      exists [], (VInt 5), "help", None. reflexivity.
    + split; [exact stable_integer_parser|].
      exists [], (VInt 7), "help", None. reflexivity.
  - vm_compute. reflexivity.
Defined.

(* ===================================================================== *)
(** ** [Item.define] and [MultiItem.define] *)
(* ===================================================================== *)

Lemma update_changes_wrapper_only (f f' : leaf_flag) (heap heap' : list pyval)
    (o : outcome unit) :
  _update_shared_dict (f, heap) = (o, (f', heap')) ->
  f' = set__shared_dict (_shared_dict f') f.
Proof.
  unfold _update_shared_dict. intros H.
  destruct (_namespace f) as [|k [|k' rest]].
  - injection H as _ <- _. now destruct f.
  - injection H as _ <- _. reflexivity.
  - destruct (dict_get (_shared_dict f) k) as [[r|d]|].
    + destruct (heap !! r) as [d|].
      * destruct (store_path d k' rest (_value f));
          injection H as _ <- _; now destruct f.
      * injection H as _ <- _. now destruct f.
    + destruct (store_path d k' rest (_value f)); injection H as _ <- _;
        [reflexivity|now destruct f].
    + injection H as _ <- _. now destruct f.
Qed.

Lemma init_returns (lists : list_store) (cls : flag_class) (wr : wrapper)
    (ns : list string) (p : parser) (s : serializer) (n : string) (d : pyval)
    (h : string) (heap heap' : list pyval) (f : leaf_flag) :
  leaf_flag__init__ lists cls wr ns p s n d h heap = (Return f, heap') ->
  exists v0 text,
    parsed_default lists (new_object cls wr ns p s n h) d = Return v0
    /\ _get_parsed_value_as_string lists (new_object cls wr ns p s n h) v0
       = Return text
    /\ f = set__shared_dict (_shared_dict f) (constructed cls wr ns p s n h d v0 text).
Proof.
  rewrite leaf_flag_init_eq, Flag_init_eq.
  destruct (parsed_default _ _ _) as [v0|e] eqn:Ed; [|discriminate].
  destruct (_get_parsed_value_as_string _ _ _) as [text|e] eqn:Et; [|discriminate].
  destruct (_update_shared_dict _) as [[u|e] [f1 heap1]] eqn:Eu; [|discriminate].
  intros H. injection H as <- <-. exists v0, text.
  split; [reflexivity|]. split; [exact Et|].
  apply update_changes_wrapper_only in Eu. unfold constructed.
  rewrite Eu at 1. destruct cls; reflexivity.
Qed.

(** X12.  When [Item.define] or [MultiItem.define] returns, the registry
    did not refuse the name made of the namespace joined by dots, which
    was free before and now holds a flag of the item's class with that
    namespace and name, the item's parser and serializer, the help text
    absl makes of the item's help string, the item's default as its
    unparsed default, a value and a default that are the item's default
    parsed once more, and the text the serializer makes of it; the flag
    is not yet present and on its default.  Every other name of the
    registry is as before, and so are the list objects. *)
Theorem define_registers_flag
    (cls : flag_class) (it : descriptor) (namespace : list string)
    (shared_dict : wrapper) (w w' : World) :
  define cls it namespace shared_dict w = (Return tt, w') ->
  refusal w (dotted namespace) = None
  /\ registry w !! dotted namespace = None
  /\ (exists f,
        registry w' !! dotted namespace = Some (Leaf f)
        /\ class_of f = cls
        /\ _namespace f = namespace
        /\ name f = dotted namespace
        /\ flag_parser f = _parser it
        /\ flag_serializer f = _serializer it
        /\ help f = help_text cls (_help_string it)
        /\ default_unparsed f = default it
        /\ initial_value (lists w) cls it = Some (_value f)
        /\ _get_parsed_value_as_string (lists w) f (_value f)
           = Return (default_as_str f)
        /\ flag_default f = _value f
        /\ present f = 0
        /\ using_default_value f = true)
  /\ lists w' = lists w
  /\ forall other, other <> dotted namespace ->
                   registry w' !! other = registry w !! other.
Proof.
  intros H. rewrite define_eq in H.
  destruct (leaf_flag__init__ (lists w) cls shared_dict namespace (_parser it)
              (_serializer it) (dotted namespace) (default it) (_help_string it)
              (heap w))
    as [[f|e] heap1] eqn:Ei; [|discriminate].
  pose proof (init_name _ _ _ _ _ _ _ _ _ _ _ _ Ei) as Hname.
  apply init_returns in Ei as (v0 & text & Hd & Ht & Hf).
  rewrite Hname in H.
  destruct (refusal w (dotted namespace)) eqn:Er; [discriminate|].
  injection H as <-. split; [reflexivity|].
  split; [now apply refusal_registered|]. split; [|split].
  - exists f. cbn [registry set_registry]. rewrite lookup_insert_eq.
    split; [reflexivity|].
    rewrite Hf. destruct cls; cbn; repeat split;
      try (eapply parsed_default_initial_value; exact Hd); exact Ht.
  - reflexivity.
  - intros other Hne. cbn [registry set_registry set_heap].
    now rewrite lookup_insert_ne.
Qed.

Lemma define_registers_flag_witness :
  exists f,
    registry
      (snd (define _MultiFlag
              (Samples.item (VList [VStr "a"]) Samples.string_parser)
              ["cfg"; "tags"] [("cfg", Alias 0)]
              (set_heap [VDict [("tags", VNone)]] empty_world)))
      !! dotted ["cfg"; "tags"] = Some (Leaf f)
    /\ class_of f = _MultiFlag
    /\ help f = help_text _MultiFlag "help"
    /\ _value f = VList [VStr "a"].
Proof.
  destruct (define_registers_flag _MultiFlag
              (Samples.item (VList [VStr "a"]) Samples.string_parser)
              ["cfg"; "tags"] [("cfg", Alias 0)]
              (set_heap [VDict [("tags", VNone)]] empty_world)
              (snd (define _MultiFlag
                      (Samples.item (VList [VStr "a"]) Samples.string_parser)
                      ["cfg"; "tags"] [("cfg", Alias 0)]
                      (set_heap [VDict [("tags", VNone)]] empty_world))))
    as (_ & _ & (f & Hf & Hcls & _ & _ & _ & _ & Hh & _ & Hv & _) & _).
  - vm_compute. reflexivity.
  - exists f. split; [exact Hf|]. split; [exact Hcls|]. split; [exact Hh|].
    assert (Hi : initial_value [] _MultiFlag
                   (Samples.item (VList [VStr "a"]) Samples.string_parser)
                 = Some (VList [VStr "a"])) by reflexivity.
    cbn [lists set_heap empty_world new_world] in Hv.
    rewrite Hi in Hv. now injection Hv as <-.
Defined.

(* ===================================================================== *)
(** ** When [define_flags] returns *)
(* ===================================================================== *)

Lemma initial_value_parsed_default lists cls w ns it n h v :
  initial_value lists cls it = Some v ->
  parsed_default lists (new_object cls w ns (_parser it) (_serializer it) n h)
    (default it)
  = Return v.
Proof.
  unfold parsed_default, initial_value.
  destruct (default it) eqn:Ed; try (intros H; injection H as <-; reflexivity);
    intros H; apply _parse_parsed_by; exact H.
Qed.

(** A flag whose descriptor's default is accepted is constructed. *)
Lemma accepted_default_constructs (lists : list_store) (name : string) (r : ref)
    (p : list string) (cls : flag_class) (it : descriptor) (e : exn) :
  accepts_default lists cls it ->
  ~ construction_fails lists (leaf_object name r p cls it) (default it) e.
Proof.
  intros (v & Hv & Hs) Hfail. unfold leaf_object in Hfail.
  pose proof (initial_value_parsed_default lists cls [(name, Alias r)] (name :: p)
                it (String.concat SEPARATOR (name :: p)) (_help_string it) v Hv)
    as Hd.
  destruct Hfail as [Hfail|(v' & Hv' & Hfail)]; [congruence|].
  rewrite Hd in Hv'. injection Hv' as <-.
  unfold _get_parsed_value_as_string in Hfail.
  destruct Hs as [->|(text & Ht)]; [discriminate|].
  cbn [flag_serializer new_object] in Hfail. rewrite Ht in Hfail.
  destruct v; discriminate.
Qed.

(** X13.  [define_flags] returns whenever nothing stands in its way: for
    a definition with unique keys and no foreign value, in which the flag
    of every leaf accepts the leaf's default, whose leaves have pairwise
    distinct dotted names, none of which the registry refuses (none is
    empty, has a space, is the name of a method of the registry or is
    registered already). *)
Theorem define_flags_returns
    (name : string) (m : list (string * node)) (w0 : World) :
  unique_keys (DictNode m) = true ->
  closed w0 ->
  other_types (DictNode m) = [] ->
  (forall p cls it,
      leaf_at (DictNode m) p = Some (cls, it) ->
      accepts_default (lists w0) cls it) ->
  List.NoDup (map (fun l => dotted (name :: fst l)) (leaves (DictNode m))) ->
  (forall p c, leaf_at (DictNode m) p = Some c ->
               refusal w0 (dotted (name :: p)) = None) ->
  exists w1, define_flags name m w0 = (Return (length (heap w0)), w1).
Proof.
  intros Hu Hclosed Hother Hvals Hnd Hfresh.
  destruct (proj2 (extract_defaults_returns_iff_aux m) Hother) as [defaults Hx].
  destruct (define_flags name m w0) as [o w1] eqn:Hd.
  destruct (define_flags_invariant name m w0 w1 o defaults Hu Hclosed Hx Hd)
    as (made & rest & Hsplit & _ & Hprog & Hret & Hfail).
  destruct o as [r|e].
  - destruct (Hret r eq_refl) as [-> _]. eauto.
  - exfalso.
    destruct (Hfail e eq_refl) as (p & cls & it & rest' & -> & [Hc|Hc]).
    + assert (Hleaf : leaf_at (DictNode m) p = Some (cls, it)).
      { apply leaves_leaf_at; [exact Hu|]. rewrite Hsplit.
        apply in_app_iff. right. now left. }
      exact (accepted_default_constructs _ _ _ _ _ _ e (Hvals p cls it Hleaf) Hc).
    + assert (Hleaf : leaf_at (DictNode m) p = Some (cls, it)).
      { apply leaves_leaf_at; [exact Hu|]. rewrite Hsplit.
        apply in_app_iff. right. now left. }
      pose proof (Hfresh p _ Hleaf) as Hr0.
      assert (Hreg : registry w1 !! dotted (name :: p) = None).
      { destruct (registry w1 !! dotted (name :: p)) eqn:E; [|reflexivity].
        exfalso.
        destruct (new_names _ _ _ _ _ _ Hprog (dotted (name :: p)))
          as (p' & c' & Hin & Heq).
        { now apply refusal_registered. }
        { rewrite E. discriminate. }
        rewrite Hsplit, map_app in Hnd. cbn [map fst] in Hnd.
        apply List.NoDup_remove_2 in Hnd. apply Hnd.
        apply in_app_iff. left. rewrite Heq.
        apply in_map_iff. exists (p', c'). auto. }
      assert (Hsame : refusal w1 (dotted (name :: p))
                      = refusal w0 (dotted (name :: p))).
      { unfold refusal. rewrite (kept_banned _ _ _ _ _ _ Hprog), Hreg.
        now rewrite (refusal_registered _ _ Hr0). }
      congruence.
Qed.

Lemma define_flags_returns_witness :
  exists w1,
    define_flags "cfg" Samples.tagged empty_world
    = (Return (length (heap empty_world)), w1).
Proof.
  apply define_flags_returns.
  - reflexivity.
  - exact (closed_new_world []).
  - reflexivity.
  - intros p cls it Hleaf. apply leaf_at_leaves in Hleaf. simpl in Hleaf.
    destruct Hleaf as [H|[H|[]]]; injection H as <- <- <-;
      eexists; (split; [reflexivity|]); right; eexists; reflexivity.
  - simpl. repeat constructor; simpl; intuition discriminate.
  - intros p c Hleaf. apply leaf_at_leaves in Hleaf. simpl in Hleaf.
    destruct Hleaf as [H|[H|[]]]; injection H as <- <-; reflexivity.
Defined.

(* ===================================================================== *)
(** ** Several definitions in one registry *)
(* ===================================================================== *)

Lemma init_frame (lists : list_store) (cls : flag_class) (name : string)
    (r r' : ref) (ns : list string) (p : parser) (s : serializer) (n : string)
    (d : pyval) (h : string) (heap heap1 : list pyval) (o : outcome leaf_flag) :
  r' <> r ->
  leaf_flag__init__ lists cls [(name, Alias r)] ns p s n d h heap = (o, heap1) ->
  heap1 !! r' = heap !! r'
  /\ forall f, o = Return f -> aliases r' f = false.
Proof.
  intros Hne H. rewrite leaf_flag_init_eq, Flag_init_eq in H.
  destruct (parsed_default _ _ _) as [v0|e0];
    [|injection H as <- <-; split; [reflexivity|discriminate]].
  destruct (_get_parsed_value_as_string _ _ _) as [text|e1];
    [|injection H as <- <-; split; [reflexivity|discriminate]].
  match type of H with
  | context [_update_shared_dict (?g, heap)] =>
      assert (H0 : detached r' (heap !! r') (g, heap))
  end.
  { split; [reflexivity|]. unfold aliases. simpl.
    destruct (Nat.eqb r r') eqn:E; [|reflexivity].
    apply Nat.eqb_eq in E. congruence. }
  destruct (_update_shared_dict _) as [[u|e] [f1 heap1']] eqn:Eu.
  - injection H as <- <-.
    destruct (update_detached r' (heap !! r') _ _ _ H0 Eu) as [Hh Hal].
    simpl in Hh, Hal. split; [exact Hh|]. intros f Hf. injection Hf as <-.
    destruct cls; exact Hal.
  - injection H as <- <-.
    destruct (update_detached r' (heap !! r') _ _ _ H0 Eu) as [Hh Hal].
    simpl in Hh. split; [exact Hh|]. discriminate.
Qed.

Lemma extends_registry_refl r w : extends_registry r w w.
Proof. repeat split; auto. Qed.

Lemma extends_registry_trans r w1 w2 w3 :
  extends_registry r w1 w2 -> extends_registry r w2 w3 -> extends_registry r w1 w3.
Proof.
  intros (Hm1 & Hh1 & Hn1) (Hm2 & Hh2 & Hn2). split; [|split].
  - auto.
  - intros r' Hne. rewrite Hh2, Hh1; auto.
  - intros n fl H3. destruct (Hn2 n fl H3) as [H2|H2]; [|now right]. auto.
Qed.

Lemma DEFINE_flag_frame (fl : flag) (w w' : World) (o : outcome FlagHolder) :
  DEFINE_flag fl w = (o, w') ->
  heap w' = heap w
  /\ (forall n x, registry w !! n = Some x -> registry w' !! n = Some x)
  /\ (forall n x, registry w' !! n = Some x ->
        registry w !! n = Some x \/ x = fl).
Proof.
  rewrite DEFINE_flag_eq. destruct (refusal w (flag_name fl)) eqn:En; intros H.
  - injection H as <- <-. auto.
  - apply refusal_registered in En.
    injection H as <- <-. simpl. split; [reflexivity|split].
    + intros n x Hn. rewrite lookup_insert_ne; [exact Hn|].
      intros Heq. rewrite Heq, Hn in En. discriminate.
    + intros n x Hn. destruct (String.eqb (flag_name fl) n) eqn:E.
      * apply String.eqb_eq in E. subst n. rewrite lookup_insert_eq in Hn.
        injection Hn as <-. now right.
      * apply String.eqb_neq in E. rewrite lookup_insert_ne in Hn by exact E.
        now left.
Qed.

Lemma define_frame (cls : flag_class) (it : descriptor) (ns : list string)
    (nm : string) (r : ref) (w w' : World) (o : outcome unit) :
  define cls it ns [(nm, Alias r)] w = (o, w') ->
  extends_registry r w w'.
Proof.
  intros H. rewrite define_eq in H.
  destruct (leaf_flag__init__ (lists w) cls [(nm, Alias r)] ns (_parser it)
              (_serializer it) (dotted ns) (default it) (_help_string it) (heap w))
    as [[f|e] heap1] eqn:Ei.
  - assert (Hheap : forall r', r' <> r -> heap1 !! r' = heap w !! r')
      by (intros r' Hne; eapply init_frame; eauto).
    assert (Hal : forall r', r' <> r -> aliases r' f = false)
      by (intros r' Hne; eapply (init_frame (lists w) cls nm r r'); eauto).
    destruct (refusal w (name f)) eqn:En.
    + injection H as <- <-. split; [|split]; simpl; auto.
    + apply refusal_registered in En. injection H as <- <-.
      split; [|split]; simpl.
      * intros n x Hn. rewrite lookup_insert_ne; [exact Hn|].
        intros Heq. rewrite Heq, Hn in En. discriminate.
      * exact Hheap.
      * intros n x Hn. destruct (String.eqb (name f) n) eqn:E.
        -- apply String.eqb_eq in E. subst n. rewrite lookup_insert_eq in Hn.
           injection Hn as <-. right. eauto.
        -- apply String.eqb_neq in E. rewrite lookup_insert_ne in Hn by exact E.
           now left.
  - injection H as <- <-. split; [|split]; simpl; auto.
    intros r' Hne. eapply init_frame; eauto.
Qed.

Lemma recursively_define_flags_frame (name : string) (r : ref) (n : node) :
  forall ns w w' o,
    recursively_define_flags name r ns n w = (o, w') ->
    extends_registry r w w'.
Proof.
  induction n as [it|it|entries IH|type_name] using node_induction;
    intros ns w w' o H.
  - eapply define_frame; exact H.
  - eapply define_frame; exact H.
  - simpl in H. revert w H.
    induction entries as [|[k n'] entries IHe]; intros w H.
    + injection H as _ <-. apply extends_registry_refl.
    + apply Forall_cons in IH as [Hn' Hrest]. simpl in Hn'.
      unfold bind in H.
      destruct (recursively_define_flags name r (ns ++ [k]) n' w)
        as [[u|e] w1] eqn:E1.
      * eapply extends_registry_trans; [eapply Hn'; exact E1|].
        apply (IHe Hrest w1). exact H.
      * injection H as _ <-. eapply Hn'; exact E1.
  - injection H as _ <-. apply extends_registry_refl.
Qed.

Lemma define_each_frame (name : string) (r : ref) (items : list (string * node)) :
  forall w w' o,
    define_each name r items w = (o, w') -> extends_registry r w w'.
Proof.
  induction items as [|[k n'] items IH]; intros w w' o H.
  - injection H as _ <-. apply extends_registry_refl.
  - simpl in H. unfold bind in H.
    destruct (recursively_define_flags name r [name; k] n' w) as [[u|e] w1] eqn:E1.
    + eapply extends_registry_trans;
        [eapply recursively_define_flags_frame; exact E1|].
      eapply IH; exact H.
    + injection H as _ <-. eapply recursively_define_flags_frame; exact E1.
Qed.

Lemma grows_refl (w : World) : grows w w.
Proof. split; [|split]; auto. Qed.

Lemma define_flags_frame (name : string) (m : list (string * node))
    (w0 w1 : World) (o : outcome ref) :
  define_flags name m w0 = (o, w1) -> grows w0 w1.
Proof.
  intros H. unfold define_flags, bind, lift_outcome, alloc in H.
  destruct (_extract_defaults m) as [defaults|e].
  - destruct (define_each name (length (heap w0)) m
                (set_heap (heap w0 ++ [VDict defaults]) w0))
      as [o1 w'] eqn:Ed.
    apply define_each_frame in Ed as (Hm & Hh & Hn). simpl in Hm, Hh, Hn.
    assert (w1 = w') by (destruct o1; injection H as _ <-; reflexivity). subst w'.
    split; [|split].
    + exact Hm.
    + intros r Hr. rewrite Hh by lia. now apply lookup_app_l.
    + intros n f Hf. destruct (Hn n (Leaf f) Hf) as [Hold|(f' & Heq & Hal)].
      * now left.
      * right. injection Heq as <-. intros r Hr. apply Hal. lia.
  - injection H as _ <-. apply grows_refl.
Qed.

Lemma DEFINE_dict_frame (args : list argument) (m : list (string * node))
    (w0 w2 : World) (o : outcome FlagHolder) :
  DEFINE_dict args m w0 = (o, w2) -> grows w0 w2.
Proof.
  intros H.
  destruct (DEFINE_dict_guards args m w0 w2 o H)
    as [(name & Hargs & Hm)|(-> & _)]; [|apply grows_refl].
  rewrite (DEFINE_dict_eq args name m w0 Hargs Hm) in H.
  destruct (define_flags name m w0) as [[r|e] w1] eqn:Ed.
  - apply define_flags_frame in Ed as (Hm1 & Hh & Hn).
    apply DEFINE_flag_frame in H as (Hh2 & Hm2 & Hn2).
    split; [|split].
    + auto.
    + intros r' Hr. rewrite Hh2. now apply Hh.
    + intros n f Hf. destruct (Hn2 n _ Hf) as [Hold|Heq]; [|discriminate].
      now apply Hn.
  - injection H as _ <-. eapply define_flags_frame; exact Ed.
Qed.

(** X14.  Whatever its outcome, a call of [DEFINE_dict] keeps every flag
    that was registered before it, with the value it had, and leaves every
    dict object that existed before it as it was: only its own new flags
    and its own new shared dict appear. *)
Theorem DEFINE_dict_keeps_earlier_flags
    (args : list argument) (m : list (string * node)) (w0 w2 : World)
    (o : outcome FlagHolder) :
  DEFINE_dict args m w0 = (o, w2) ->
  (forall n fl, registry w0 !! n = Some fl -> registry w2 !! n = Some fl)
  /\ (forall r, r < length (heap w0) -> heap w2 !! r = heap w0 !! r)
  /\ length (heap w0) <= length (heap w2).
Proof.
  intros H. destruct (DEFINE_dict_frame args m w0 w2 o H) as (Hm & Hh & _).
  split; [exact Hm|split; [exact Hh|]].
  destruct (length (heap w0)) as [|k] eqn:El; [lia|].
  assert (Hk : k < length (heap w0)) by lia.
  pose proof (Hh k ltac:(lia)) as Hk'.
  destruct (lookup_lt_is_Some_2 (heap w0) k Hk) as [x Hx].
  rewrite Hx in Hk'. apply lookup_lt_Some in Hk'. lia.
Qed.

Lemma DEFINE_dict_keeps_earlier_flags_witness :
  registry
    (snd (DEFINE_dict [StrArg "image_settings"] Samples.tagged
            (snd (DEFINE_dict [StrArg "image_settings"] Samples.image_settings
                    empty_world))))
    !! "image_settings.mode"
  = registry
      (snd (DEFINE_dict [StrArg "image_settings"] Samples.image_settings
              empty_world))
      !! "image_settings.mode".
Proof.
  destruct (DEFINE_dict_keeps_earlier_flags [StrArg "image_settings"]
              Samples.tagged
              (snd (DEFINE_dict [StrArg "image_settings"] Samples.image_settings
                      empty_world))
              (snd (DEFINE_dict [StrArg "image_settings"] Samples.tagged
                      (snd (DEFINE_dict [StrArg "image_settings"]
                              Samples.image_settings empty_world))))
              (fst (DEFINE_dict [StrArg "image_settings"] Samples.tagged
                      (snd (DEFINE_dict [StrArg "image_settings"]
                              Samples.image_settings empty_world))))
              ltac:(vm_compute; reflexivity))
    as (Hkeep & _ & _).
  destruct (registry
              (snd (DEFINE_dict [StrArg "image_settings"] Samples.image_settings
                      empty_world)) !! "image_settings.mode") as [fl|] eqn:E.
  - exact (Hkeep _ _ E).
  - vm_compute in E. discriminate.
Defined.

Lemma invariant_grows (name : string) (m : list (string * node)) (r : ref)
    done (w w' : World) :
  invariant name m r done w -> grows w w' -> invariant name m r done w'.
Proof.
  intros [(v & Hv & Hrel & Hflags) Hown] (Hm & Hh & Hn).
  assert (Hr : r < length (heap w)) by (eapply lookup_lt_Some; exact Hv).
  split.
  - exists v. split; [rewrite Hh; assumption|split; [exact Hrel|]].
    intros p c Hin. destruct (Hflags p c Hin) as (f & Hf & Hfl & Hg).
    exists f. split; [now apply Hm|split; assumption].
  - intros n f Hf Hal. destruct (Hn n f Hf) as [Hold|Hnew].
    + eapply Hown; eauto.
    + rewrite (Hnew r Hr) in Hal. discriminate.
Qed.

Lemma aggregate_grows (name : string) (r : ref) (w w' : World) :
  aggregate_ok name r w -> grows w w' -> aggregate_ok name r w'.
Proof.
  intros (d & Hd & Hs & Hv) (Hm & _ & _). exists d. split; [now apply Hm|auto].
Qed.

(** X15.  Definitions compose: after a later call of [DEFINE_dict], with
    any definition and whether it returns or raises, and after any
    overrides and assignments that follow, of the flags of either
    definition but not of the earlier dict flag itself, the holder of the
    earlier definition, once the flags have been parsed, still gives a
    mapping with the keys and the nesting of its definition in which
    every leaf holds the current value of its flag. *)
Theorem later_definition_keeps_holder
    (args args' : list argument) (m m' : list (string * node))
    (w0 w1 w2 : World) (h : FlagHolder) (o : outcome FlagHolder) :
  unique_keys (DictNode m) = true ->
  closed w0 ->
  DEFINE_dict args m w0 = (Return h, w1) ->
  DEFINE_dict args' m' w1 = (o, w2) ->
  forall events,
    (forall v, ~ In (Assign (holder_name h) v) events) ->
    flags_parsed (run events w2) = true ->
    exists x shared,
      holder_value h (run events w2) = Return x
      /\ contents (run events w2) x = Some shared
      /\ (forall path entries,
             node_at (DictNode m) path = Some (DictNode entries) ->
             exists es, get_path shared path = Some (VDict es)
                        /\ keys es = keys entries)
      /\ (forall path c,
             leaf_at (DictNode m) path = Some c ->
             exists f,
               registry (run events w2) !! dotted (holder_name h :: path)
               = Some (Leaf f)
               /\ get_path shared path = Some (_value f)).
Proof.
  intros Hu Hclosed H H' events Hev Hparsed.
  destruct (DEFINE_dict_invariant args m w0 w1 h Hu Hclosed H)
    as (r & Hinv & Hagg & Hens).
  pose proof (DEFINE_dict_frame args' m' w1 w2 o H') as Hgrows.
  pose proof (invariant_grows _ _ _ _ _ _ Hinv Hgrows) as Hinv2.
  pose proof (aggregate_grows _ _ _ _ Hagg Hgrows) as Hagg2.
  pose proof (run_invariant _ m r _ events (leaves_of_leaves m Hu) w2 Hinv2)
    as [(v & Hv & Hrel & Hflags) _].
  destruct (run_aggregate _ r events Hev w2 Hagg2) as (d & Hd & _ & Hdv).
  exists (Object r), v. split; [|split; [exact Hv|split]].
  - unfold holder_value. rewrite Hd, Hparsed. cbn [orb flag_value].
    rewrite Hdv. cbn [is_None]. now rewrite andb_false_r.
  - intros path entries Hat. eapply related_containers; eauto.
  - intros path c Hleaf.
    destruct (Hflags path c (leaf_at_leaves _ _ _ Hleaf)) as (f & Hf & _ & Hg).
    eauto.
Qed.

Lemma later_definition_keeps_holder_witness :
  exists x shared,
    holder_value {| holder_name := "image_settings"; ensure_non_none_value := true |}
      (run [Override "labels.tags" "b";
            Override "image_settings.sizes.height" "10";
            MarkAsParsed]
         (snd (DEFINE_dict [StrArg "labels"] Samples.tagged
                 (snd (DEFINE_dict [StrArg "image_settings"]
                         Samples.image_settings empty_world)))))
    = Return x
    /\ contents
         (run [Override "labels.tags" "b";
               Override "image_settings.sizes.height" "10";
               MarkAsParsed]
            (snd (DEFINE_dict [StrArg "labels"] Samples.tagged
                    (snd (DEFINE_dict [StrArg "image_settings"]
                            Samples.image_settings empty_world))))) x
       = Some shared
    /\ get_path shared ["sizes"; "height"] = Some (VInt 10)
    /\ get_path shared ["mode"] = Some (VStr "pad").
Proof.
  destruct (later_definition_keeps_holder
              [StrArg "image_settings"] [StrArg "labels"]
              Samples.image_settings Samples.tagged empty_world
              (snd (DEFINE_dict [StrArg "image_settings"] Samples.image_settings
                      empty_world))
              (snd (DEFINE_dict [StrArg "labels"] Samples.tagged
                      (snd (DEFINE_dict [StrArg "image_settings"]
                              Samples.image_settings empty_world))))
              {| holder_name := "image_settings"; ensure_non_none_value := true |}
              (fst (DEFINE_dict [StrArg "labels"] Samples.tagged
                      (snd (DEFINE_dict [StrArg "image_settings"]
                              Samples.image_settings empty_world))))
              eq_refl (closed_new_world [])
              ltac:(vm_compute; reflexivity) ltac:(vm_compute; reflexivity)
              [Override "labels.tags" "b";
               Override "image_settings.sizes.height" "10";
               MarkAsParsed])
    as (x & shared & Hh & Hc & _ & _).
  - intros v [H|[H|[H|[]]]]; discriminate.
  - vm_compute. reflexivity.
  - exists x, shared. split; [exact Hh|]. split; [exact Hc|].
    vm_compute in Hh. injection Hh as <-.
    vm_compute in Hc. injection Hc as <-. split; reflexivity.
Defined.

(* ===================================================================== *)
(** ** When [define_flags] raises half way *)
(* ===================================================================== *)

(** X16.  [define_flags] does not undo what it did when it raises: if
    the definition holds no foreign value and the call raises, the
    failure is that of one leaf: the constructor of its flag raised,
    because [_parse] refused the default or the serializer could not make
    its text, or the registry refused its dotted name, which has a space,
    is the name of a method of the registry or is taken.  The flags of the
    leaves that come before it in definition order stay registered with
    their constructed values, and so does every flag registered before
    the call. *)
Theorem failed_define_flags_keeps_earlier_leaves
    (name : string) (m : list (string * node)) (w0 w1 : World) (e : exn) :
  unique_keys (DictNode m) = true ->
  closed w0 ->
  other_types (DictNode m) = [] ->
  define_flags name m w0 = (Raise e, w1) ->
  exists done p c rest,
    leaves (DictNode m) = done ++ (p, c) :: rest
    /\ (construction_fails (lists w0)
          (leaf_object name (length (heap w0)) p (fst c) (snd c))
          (default (snd c)) e
        \/ refusal w1 (dotted (name :: p)) = Some e
           /\ (e = name_has_space
               \/ e = name_is_method (dotted (name :: p))
               \/ e = defined_twice (dotted (name :: p))
                  /\ exists fl, registry w1 !! dotted (name :: p) = Some fl))
    /\ (forall q c', In (q, c') done ->
          exists f, registry w1 !! dotted (name :: q) = Some (Leaf f)
                    /\ as_constructed (lists w0) c' f)
    /\ (forall n fl, registry w0 !! n = Some fl -> registry w1 !! n = Some fl).
Proof.
  intros Hu Hclosed Hother H.
  destruct (proj2 (extract_defaults_returns_iff_aux m) Hother) as [defaults Hx].
  destruct (define_flags_invariant name m w0 w1 _ defaults Hu Hclosed Hx H)
    as (made & rest & Hsplit & _ & Hprog & _ & Hfail).
  destruct (Hfail e eq_refl) as (p & cls & it & rest' & -> & Hcause).
  exists made, p, (cls, it), rest'. split; [exact Hsplit|]. split; [|split].
  - destruct Hcause as [Hc|Hc]; [now left|right]. split; [exact Hc|].
    unfold refusal in Hc.
    destruct (String.eqb (dotted (name :: p)) "") eqn:E0.
    { apply String.eqb_eq in E0. exfalso.
      assert (Hleaf : leaf_at (DictNode m) p = Some (cls, it)).
      { apply leaves_leaf_at; [exact Hu|]. rewrite Hsplit.
        apply in_app_iff. right. now left. }
      apply (dotted_not_empty name p); [|exact E0].
      intros ->. discriminate. }
    destruct (has_space (dotted (name :: p))); [injection Hc as <-; now left|].
    destruct (existsb _ _); [injection Hc as <-; right; now left|].
    destruct (registry w1 !! dotted (name :: p)) as [fl|] eqn:En; [|discriminate].
    injection Hc as <-. right. right. eauto.
  - intros q c' Hin.
    destruct (made_flags _ _ _ _ _ _ Hprog q c' Hin) as (_ & f & Hf & Hc). eauto.
  - exact (kept_flags _ _ _ _ _ _ Hprog).
Qed.

Lemma failed_define_flags_keeps_earlier_leaves_witness :
  Item__init__ (VStr "pad") "help" Samples.string_parser None
  = Return (Samples.item (VStr "pad") Samples.string_parser)
  /\ Item__init__ (VStr "5") "help" Samples.integer_parser None
     = Return (Samples.item (VInt 5) Samples.integer_parser)
  /\ exists f,
       registry
         (snd (define_flags "cfg"
                 [("mode", ItemNode (Samples.item (VStr "pad") Samples.string_parser));
                  ("my key", ItemNode (Samples.item (VInt 5) Samples.integer_parser))]
                 empty_world))
         !! "cfg.mode" = Some (Leaf f)
       /\ _value f = VStr "pad".
Proof.
  split; [reflexivity|]. split; [reflexivity|].
  destruct (failed_define_flags_keeps_earlier_leaves "cfg"
              [("mode", ItemNode (Samples.item (VStr "pad") Samples.string_parser));
               ("my key", ItemNode (Samples.item (VInt 5) Samples.integer_parser))]
              empty_world
              (snd (define_flags "cfg"
                      [("mode", ItemNode (Samples.item (VStr "pad")
                                            Samples.string_parser));
                       ("my key", ItemNode (Samples.item (VInt 5)
                                              Samples.integer_parser))]
                      empty_world))
              name_has_space
              eq_refl (closed_new_world []) eq_refl
              ltac:(vm_compute; reflexivity))
    as (done & p & c & rest & Hsplit & Hcause & Hflags & _).
  destruct done as [|[q c'] done'].
  - exfalso. simpl in Hsplit. injection Hsplit as <- <- _.
    destruct Hcause as [[Hc|(v & Hc & Hs)]|[Hc _]].
    + vm_compute in Hc. discriminate.
    + vm_compute in Hc. injection Hc as <-. vm_compute in Hs. discriminate.
    + vm_compute in Hc. discriminate.
  - vm_compute in Hsplit. injection Hsplit as <- <- Hrest.
    destruct (Hflags ["mode"]
                (_ItemFlag, Samples.item (VStr "pad") Samples.string_parser)
                ltac:(now left)) as (f & Hf & Hv & _).
    exists f. split; [exact Hf|].
    assert (Hi : initial_value (lists empty_world)
                   (fst (_ItemFlag,
                         Samples.item (VStr "pad") Samples.string_parser))
                   (snd (_ItemFlag,
                         Samples.item (VStr "pad") Samples.string_parser))
                 = Some (VStr "pad")) by reflexivity.
    rewrite Hi in Hv. injection Hv as Hv. symmetry. exact Hv.
Defined.
